(** * Translation assistant: a shallow embedding of [translation-assistant.js]

    JavaScript strings are sequences of UTF-16 code units; they are modelled
    as [list N].  The fixed regular expressions of the source are written in
    a small syntax of patterns and run by a backtracking interpreter; the
    global operations [match], [replace] and the [exec] loop are all
    derived from one left-to-right scan. *)

From Stdlib Require Import NArith Ascii String List Lia Bool.
From stdpp Require Import base option list gmap sorting.
Import ListNotations.

Local Open Scope N_scope.

(** ** Strings *)

Abbreviation jsstring := (list N).

Definition str (s : string) : jsstring :=
  List.map N_of_ascii (list_ascii_of_string s).
Arguments str _%_string.

Definition DOLLAR : N := 36.
Definition BACKSLASH : N := 92.
Definition RPAREN : N := 41.
Definition RBRACKET : N := 93.
Definition RBRACE : N := 125.
Definition COMMA : N := 44.
Definition QUOTE : N := 34.
Definition TAB : N := 9.
Definition LF : N := 10.
Definition SPACE : N := 32.
(** U+2603, the marker that opens a widget reference. *)
Definition SNOWMAN : N := 9731.

Fixpoint starts_with (w s : jsstring) : bool :=
  match w, s with
  | [], _ => true
  | a :: w', b :: s' => (a =? b) && starts_with w' s'
  | _ :: _, [] => false
  end.

(** Length of the longest prefix of [s] whose code units satisfy [p]. *)
Fixpoint span_len (p : N → bool) (s : jsstring) : nat :=
  match s with
  | c :: tl => if p c then S (span_len p tl) else O
  | [] => O
  end.

(** ** Global regular-expression operations

    A matcher gives the length of the match starting at the head of its
    argument, if there is one.  [scan] walks the string once: at a position
    where the matcher succeeds it emits the matched text and skips it,
    elsewhere it emits the code unit.  None of the patterns of the source
    matches the empty text, so an empty match is not provided for.  This is what a [g]-flagged regular
    expression does in [String.prototype.match], [String.prototype.replace]
    and repeated [RegExp.prototype.exec]. *)

Inductive token : Type :=
  | Plain (c : N)
  | Hit (w : jsstring).

Abbreviation matcher := (jsstring → option nat).

Fixpoint scan (m : matcher) (skip : nat) (s : jsstring) : list token :=
  match s with
  | [] => []
  | c :: tl =>
      match skip with
      | S k => scan m k tl
      | O =>
          match m s with
          | Some (S k) => Hit (take (S k) s) :: scan m k tl
          | _ => Plain c :: scan m O tl
          end
      end
  end.

Definition tokens (m : matcher) (s : jsstring) : list token := scan m O s.

Fixpoint hits (ts : list token) : list jsstring :=
  match ts with
  | [] => []
  | Plain _ :: ts' => hits ts'
  | Hit w :: ts' => w :: hits ts'
  end.

(** [s.match(re) || []] *)
Definition js_match (m : matcher) (s : jsstring) : list jsstring :=
  hits (tokens m s).

(** [s.replace(re, f)] with a function [f] of the matched text. *)
Fixpoint render (f : jsstring → jsstring) (ts : list token) : jsstring :=
  match ts with
  | [] => []
  | Plain c :: ts' => c :: render f ts'
  | Hit w :: ts' => f w ++ render f ts'
  end.

Definition js_replace_fn (m : matcher) (f : jsstring → jsstring)
    (s : jsstring) : jsstring :=
  render f (tokens m s).

(** [s.replace(re, r)] for a replacement text [r] without [$] patterns. *)
Definition js_replace (m : matcher) (r : jsstring) (s : jsstring) : jsstring :=
  js_replace_fn m (λ _, r) s.

(** A pattern made of literal characters only. *)
Definition lit_at (w : jsstring) : matcher :=
  λ s, if starts_with w s then Some (length w) else None.

(** ** [translateMath] *)

(** [/\\sin/g] *)
Definition SIN_REGEX : matcher := lit_at (str "\sin").

Definition PT : jsstring := str "pt".

(** [lang] is [None] when the JavaScript value is [undefined]. *)
Definition translateMath (math : jsstring) (lang : option jsstring) : jsstring :=
  match lang with
  | Some l =>
      if decide (l = PT)
      then js_replace SIN_REGEX (str "\operatorname{sen}") math
      else math
  | None => math
  end.


(** ** Regular expressions

    The syntax of the patterns that the source writes as literals, and a
    backtracking interpreter for it.  [ends r s] lists what is left of [s]
    after each way of matching [r] at its head, in the order in which a
    backtracking matcher tries them: the first alternative before the
    second, and one more round of a greedy loop before leaving it.  A
    round of a loop that consumes nothing is given up. *)

Inductive regex : Type :=
  | Lit (w : jsstring)
  | Class (members : jsstring)
  | NotClass (members : jsstring)
  | Seq (a b : regex)
  | Alt (a b : regex)
  | Star (a : regex)
  | Plus (a : regex).

Infix "··" := Seq (at level 60, right associativity).

Definition member (c : N) (members : jsstring) : bool :=
  existsb (N.eqb c) members.

Definition one_unit (p : N → bool) (s : jsstring) : list jsstring :=
  match s with
  | c :: tl => if p c then [tl] else []
  | [] => []
  end.

Fixpoint star_ends (step : jsstring → list jsstring) (fuel : nat)
    (s : jsstring) : list jsstring :=
  match fuel with
  | O => [s]
  | S f =>
      (s' ← step s;
       if bool_decide (length s' < length s)%nat
       then star_ends step f s' else [])
      ++ [s]
  end.

Fixpoint ends (r : regex) (s : jsstring) : list jsstring :=
  match r with
  | Lit w => if starts_with w s then [drop (length w) s] else []
  | Class members => one_unit (λ c, member c members) s
  | NotClass members => one_unit (λ c, negb (member c members)) s
  | Seq a b => s' ← ends a s; ends b s'
  | Alt a b => ends a s ++ ends b s
  | Star a => star_ends (ends a) (length s) s
  | Plus a => s' ← ends a s; star_ends (ends a) (length s') s'
  end.

(** The match at the head of [s] is the first way that succeeds. *)
Definition exec (r : regex) : matcher :=
  λ s, (λ rest, length s - length rest)%nat <$> head (ends r s).

(** ** The fixed patterns of the source *)

(** [MATH_REGEX = /\$(\\\$|[^\$])+\$/g] *)
Definition MATH_STEP : regex :=
  Alt (Lit [BACKSLASH; DOLLAR]) (NotClass [DOLLAR]).
Definition MATH_REGEX : matcher :=
  exec (Lit [DOLLAR] ·· Plus MATH_STEP ·· Lit [DOLLAR]).

(** [GRAPHIE_REGEX = /\!\[\]\([^)]+\)/g] *)
Definition GRAPHIE_REGEX : matcher :=
  exec (Lit (str "![](") ·· Plus (NotClass [RPAREN]) ·· Lit [RPAREN]).

(** [WIDGET_REGEX = /\[\[[☃][^\]]+\]\]/g] *)
Definition WIDGET_REGEX : matcher :=
  exec (Lit (str "[[") ·· Class [SNOWMAN] ·· Plus (NotClass [RBRACKET])
        ·· Lit (str "]]")).

(** [TEXT_REGEX]: a backslash and [text{], then a captured run of code
    units other than [}] (it may be empty), then [}]. *)
Definition TEXT_OPEN : jsstring := str "\text{".
Definition TEXT_REGEX : matcher :=
  exec (Lit TEXT_OPEN ·· Star (NotClass [RBRACE]) ·· Lit [RBRACE]).

(** The first capture group of a [TEXT_REGEX] match. *)
Definition text_capture (w : jsstring) : jsstring :=
  take (length w - 7) (drop 6 w).

(** [allMatches(text, TEXT_REGEX, matches => ... matches[1] ...)]: the
    captures handed to the callback, in order. *)
Definition allMatches_text (text : jsstring) : list jsstring :=
  text_capture <$> js_match TEXT_REGEX text.

Definition MATH_PH : jsstring := str "__MATH__".
Definition GRAPHIE_PH : jsstring := str "__GRAPHIE__".
Definition WIDGET_PH : jsstring := str "__WIDGET__".

(** [/__MATH__[\t ]*__WIDGET__/g] *)
Definition MATH_WIDGET_REGEX : matcher :=
  exec (Lit MATH_PH ·· Star (Class [TAB; SPACE]) ·· Lit WIDGET_PH).

(** *** Closed forms

    What the patterns above come to, without lists of alternatives.  The
    lemmas [exec_delimited_star], [exec_delimited_plus] and [exec_MATH]
    relate them to the interpreter. *)

Definition or_else {A : Type} (a b : option A) : option A :=
  match a with Some _ => a | None => b end.

(** The part of [MATH_REGEX] after the opening dollar, that is the loop
    and the closing dollar, as the length of the match.  At each position
    it first tries to go on with the escaped dollar, then with one code
    unit other than a dollar, and only then leaves the loop to match the
    closing dollar. *)
Fixpoint math_tail (r : jsstring) : option nat :=
  match r with
  | [] => None
  | c :: tl =>
      let escaped :=
        match tl with
        | d :: tl' =>
            if (c =? BACKSLASH) && (d =? DOLLAR)
            then (λ n, S (S n)) <$> math_tail tl'
            else None
        | [] => None
        end in
      let single := if c =? DOLLAR then None else S <$> math_tail tl in
      let close := if c =? DOLLAR then Some 1%nat else None in
      or_else escaped (or_else single close)
  end.

(** The loop runs at least once, so the code unit after the opening dollar
    is not a dollar. *)
Definition math_at : matcher := λ s,
  match s with
  | c :: r =>
      match r with
      | d :: _ =>
          if (c =? DOLLAR) && negb (d =? DOLLAR)
          then S <$> math_tail r
          else None
      | [] => None
      end
  | [] => None
  end.

(** A prefix, then a run of code units satisfying [p] of at least [least]
    units, then a closing text.  The run stops at the first unit that
    fails [p]; giving back units of the run never helps when the closing
    text starts with a unit that fails [p]. *)
Definition delimited (open : jsstring) (p : N → bool) (least : nat)
    (close : jsstring) : matcher := λ s,
  if starts_with open s then
    let r := drop (length open) s in
    let n := span_len p r in
    if bool_decide (least ≤ n)%nat && starts_with close (drop n r)
    then Some (length open + n + length close)%nat
    else None
  else None.

(** The ends of a greedy run of code units satisfying [p], longest first. *)
Fixpoint runs (p : N → bool) (s : jsstring) : list jsstring :=
  match s with
  | c :: tl => if p c then runs p tl ++ [s] else [s]
  | [] => [[]]
  end.

(** ** String and array primitives *)

Definition LINE_BREAK : jsstring := [LF; LF].

Definition cons_first (c : N) (ls : list jsstring) : list jsstring :=
  match ls with
  | l :: ls' => (c :: l) :: ls'
  | [] => [[c]]
  end.

(** [s.split(LINE_BREAK)] *)
Fixpoint split_LINE_BREAK (s : jsstring) : list jsstring :=
  match s with
  | [] => [[]]
  | c :: tl =>
      match tl with
      | d :: tl' =>
          if (c =? LF) && (d =? LF)
          then [] :: split_LINE_BREAK tl'
          else cons_first c (split_LINE_BREAK tl)
      | [] => [[c]]
      end
  end.

(** [parts.join(sep)] *)
Fixpoint join (sep : jsstring) (parts : list jsstring) : jsstring :=
  match parts with
  | [] => []
  | [p] => p
  | p :: ps => p ++ sep ++ join sep ps
  end.

(** White space and line terminators, as [String.prototype.trim] sees them. *)
Definition is_ws (c : N) : bool :=
  ((9 <=? c) && (c <=? 13)) || (c =? 32) || (c =? 160) || (c =? 5760)
  || ((8192 <=? c) && (c <=? 8202)) || (c =? 8232) || (c =? 8233)
  || (c =? 8239) || (c =? 8287) || (c =? 12288) || (c =? 65279).

Fixpoint trim_start (s : jsstring) : jsstring :=
  match s with
  | c :: tl => if is_ws c then trim_start tl else s
  | [] => []
  end.

Definition trim (s : jsstring) : jsstring :=
  rev (trim_start (rev (trim_start s))).

(** [xs.indexOf(x)], [None] standing for [-1]. *)
Fixpoint indexOf (xs : list jsstring) (x : jsstring) : option nat :=
  match xs with
  | [] => None
  | y :: xs' => if decide (y = x) then Some O else S <$> indexOf xs' x
  end.

(** [s.indexOf(w) !== -1] *)
Fixpoint includes (w s : jsstring) : bool :=
  starts_with w s ||
  match s with
  | _ :: tl => includes w tl
  | [] => false
  end.

(** Order of strings by code units, the default order of [Array.prototype.sort]. *)
Fixpoint str_ltb (a b : jsstring) : bool :=
  match a, b with
  | _, [] => false
  | [], _ :: _ => true
  | x :: a', y :: b' => (x <? y) || ((x =? y) && str_ltb a' b')
  end.

Fixpoint insert_sorted (x : jsstring) (l : list jsstring) : list jsstring :=
  match l with
  | [] => [x]
  | y :: l' => if str_ltb x y then x :: l else y :: insert_sorted x l'
  end.

(** [xs.sort()] on an array of strings. *)
Definition sort (xs : list jsstring) : list jsstring :=
  foldr insert_sorted [] xs.

(** ** [JSON.stringify] and [JSON.parse] on group keys *)

Definition LBRACKET : N := 91.

Definition is_surrogate (c : N) : bool := (55296 <=? c) && (c <=? 57343).
Definition is_high (c : N) : bool := (55296 <=? c) && (c <=? 56319).
Definition is_low (c : N) : bool := (56320 <=? c) && (c <=? 57343).

Definition hexdigit (n : N) : N := if n <? 10 then 48 + n else 87 + n.

Definition hex4 (c : N) : jsstring :=
  [hexdigit (c / 4096 mod 16); hexdigit (c / 256 mod 16);
   hexdigit (c / 16 mod 16); hexdigit (c mod 16)].

(** The text [QuoteJSONString] writes for one code point that is a single
    code unit: the short escapes, a [\u] escape for the other control
    characters and for a surrogate that stands alone, the unit itself
    otherwise. *)
Definition quote_unit (c : N) : jsstring :=
  if c =? 8 then str "\b"
  else if c =? 9 then str "\t"
  else if c =? 10 then str "\n"
  else if c =? 12 then str "\f"
  else if c =? 13 then str "\r"
  else if c =? QUOTE then [BACKSLASH; QUOTE]
  else if c =? BACKSLASH then [BACKSLASH; BACKSLASH]
  else if (c <? 32) || is_surrogate c then str "\u" ++ hex4 c
  else [c].

(** A high surrogate followed by a low one is one code point and is
    written as it is. *)
Fixpoint quote_body (s : jsstring) : jsstring :=
  match s with
  | [] => []
  | c :: tl =>
      match tl with
      | d :: tl' =>
          if is_high c && is_low d
          then c :: d :: quote_body tl'
          else quote_unit c ++ quote_body tl
      | [] => quote_unit c
      end
  end.

Definition JSON_quote (s : jsstring) : jsstring :=
  QUOTE :: quote_body s ++ [QUOTE].

Definition JSON_array (items : list jsstring) : jsstring :=
  LBRACKET :: join [COMMA] items ++ [RBRACKET].

(** The object [{ str, texts }] of [stringToGroupKey]. *)
Record normalObj : Type := {
  obj_str : jsstring;
  obj_texts : list (list jsstring)
}.

Definition STR_FIELD : jsstring := str "{" ++ JSON_quote (str "str") ++ str ":".
Definition TEXTS_FIELD : jsstring := str "," ++ JSON_quote (str "texts") ++ str ":".

(** [JSON.stringify({ str, texts })] *)
Definition JSON_stringify (o : normalObj) : jsstring :=
  STR_FIELD ++ JSON_quote (obj_str o) ++
  TEXTS_FIELD ++ JSON_array ((λ t, JSON_array (JSON_quote <$> t)) <$> obj_texts o) ++
  str "}".

Definition unhex (c : N) : option N :=
  if (48 <=? c) && (c <=? 57) then Some (c - 48)
  else if (97 <=? c) && (c <=? 102) then Some (c - 87)
  else if (65 <=? c) && (c <=? 70) then Some (c - 55)
  else None.

Definition unescape (c : N) : option N :=
  if c =? QUOTE then Some QUOTE
  else if c =? BACKSLASH then Some BACKSLASH
  else if c =? 47 then Some 47
  else if c =? 98 then Some 8
  else if c =? 102 then Some 12
  else if c =? 110 then Some 10
  else if c =? 114 then Some 13
  else if c =? 116 then Some 9
  else None.

Definition cons_fst {A B : Type} (x : A) (r : option (list A * B)) :
    option (list A * B) :=
  (λ p, (x :: p.1, p.2)) <$> r.

(** The characters of a JSON string after its opening quote, up to the
    closing quote; the result is the string and the text that follows. *)
Fixpoint parse_chars (s : jsstring) : option (jsstring * jsstring) :=
  match s with
  | [] => None
  | c :: tl =>
      if c =? QUOTE then Some ([], tl)
      else if c =? BACKSLASH then
        match tl with
        | e :: tl1 =>
            if e =? 117 then
              match tl1 with
              | h1 :: h2 :: h3 :: h4 :: tl2 =>
                  match unhex h1, unhex h2, unhex h3, unhex h4 with
                  | Some a, Some b, Some c', Some d =>
                      cons_fst (((a * 16 + b) * 16 + c') * 16 + d)
                               (parse_chars tl2)
                  | _, _, _, _ => None
                  end
              | _ => None
              end
            else
              match unescape e with
              | Some u => cons_fst u (parse_chars tl1)
              | None => None
              end
        | [] => None
        end
      else if c <? 32 then None
      else cons_fst c (parse_chars tl)
  end.

Definition parse_string (s : jsstring) : option (jsstring * jsstring) :=
  match s with
  | c :: tl => if c =? QUOTE then parse_chars tl else None
  | [] => None
  end.

(** The rest of an array after one of its elements: a comma and the next
    element, or the closing bracket. *)
Fixpoint parse_elems {A : Type} (elem : jsstring → option (A * jsstring))
    (fuel : nat) (s : jsstring) : option (list A * jsstring) :=
  match fuel, s with
  | S f, c :: tl =>
      if c =? RBRACKET then Some ([], tl)
      else if c =? COMMA then
        match elem tl with
        | Some (x, rest) => cons_fst x (parse_elems elem f rest)
        | None => None
        end
      else None
  | _, _ => None
  end.

Definition parse_array {A : Type} (elem : jsstring → option (A * jsstring))
    (fuel : nat) (s : jsstring) : option (list A * jsstring) :=
  match s with
  | c :: tl =>
      match tl with
      | d :: tl' =>
          if c =? LBRACKET then
            if d =? RBRACKET then Some ([], tl')
            else
              match elem tl with
              | Some (x, rest) => cons_fst x (parse_elems elem fuel rest)
              | None => None
              end
          else None
      | [] => None
      end
  | [] => None
  end.

Definition strip_prefix (w s : jsstring) : option jsstring :=
  if starts_with w s then Some (drop (length w) s) else None.

(** [JSON.parse] on the texts [JSON.stringify] writes for a [normalObj]
    (no white space, the two fields in this order).  [None] stands for the
    [SyntaxError] thrown on other input. *)
Definition JSON_parse (s : jsstring) : option normalObj :=
  let fuel := length s in
  r1 ← strip_prefix STR_FIELD s;
  '(v, r2) ← parse_string r1;
  r3 ← strip_prefix TEXTS_FIELD r2;
  '(ts, r4) ← parse_array (parse_array parse_string fuel) fuel r3;
  if decide (r4 = str "}")
  then Some {| obj_str := v; obj_texts := ts |}
  else None.

(** ** [stringToGroupKey] *)

Definition group_texts (s : jsstring) : list (list jsstring) :=
  (λ math, sort (allMatches_text math)) <$> js_match MATH_REGEX s.

Definition group_str (s : jsstring) : jsstring :=
  let s := js_replace MATH_REGEX MATH_PH s in
  let s := js_replace GRAPHIE_REGEX GRAPHIE_PH s in
  let s := js_replace WIDGET_REGEX WIDGET_PH s in
  let s := js_replace MATH_WIDGET_REGEX (str "__MATH__ __WIDGET__") s in
  join LINE_BREAK (trim <$> split_LINE_BREAK s).

Definition stringToGroupKey (s : jsstring) : jsstring :=
  JSON_stringify {| obj_str := group_str s; obj_texts := group_texts s |}.

(** ** Objects used as dictionaries

    An object literal [{}] that the source fills by assignment is modelled by
    the list of its own properties in creation order.  Enumeration
    ([Object.keys], [Object.entries]) lists the keys that are array indices
    first, in ascending numeric order, and then the other keys in creation
    order. *)

Abbreviation object V := (list (jsstring * V)).

Definition PROTO : jsstring := str "__proto__".

Definition has_own {V : Type} (o : object V) (k : jsstring) : bool :=
  existsb (λ kv, bool_decide (kv.1 = k)) o.

Fixpoint get_own {V : Type} (o : object V) (k : jsstring) : option V :=
  match o with
  | [] => None
  | (k', v) :: o' => if decide (k' = k) then Some v else get_own o' k
  end.

(** [o[k] = v] for a value [v] that is not an object.  Assigning to
    [__proto__] goes to the inherited setter, which ignores such a value. *)
Definition assign {V : Type} (o : object V) (k : jsstring) (v : V) : object V :=
  if decide (k = PROTO) then o
  else if has_own o k
  then (λ kv, if decide (kv.1 = k) then (k, v) else kv) <$> o
  else o ++ [(k, v)].

Definition is_digit (c : N) : bool := (48 <=? c) && (c <=? 57).

Definition digits_value (s : jsstring) : N :=
  foldl (λ acc c, acc * 10 + (c - 48)) 0 s.

(** The array index a property key denotes, if it is the canonical decimal
    text of an integer below [2^32 - 1]. *)
Definition array_index (k : jsstring) : option N :=
  match k with
  | [] => None
  | c :: tl =>
      if forallb is_digit k
         && (negb (c =? 48) || bool_decide (tl = []))
         && bool_decide (length k ≤ 10)%nat
         && (digits_value k <? 4294967295)
      then Some (digits_value k)
      else None
  end.

Fixpoint insert_by_index {V : Type} (i : N) (kv : jsstring * V)
    (l : list (N * (jsstring * V))) : list (N * (jsstring * V)) :=
  match l with
  | [] => [(i, kv)]
  | (j, kv') :: l' =>
      if i <? j then (i, kv) :: l else (j, kv') :: insert_by_index i kv l'
  end.

Fixpoint indexed_entries {V : Type} (o : object V) : list (N * (jsstring * V)) :=
  match o with
  | [] => []
  | kv :: o' =>
      match array_index kv.1 with
      | Some i => insert_by_index i kv (indexed_entries o')
      | None => indexed_entries o'
      end
  end.

(** [Object.entries(o)] *)
Definition entries {V : Type} (o : object V) : list (jsstring * V) :=
  (snd <$> indexed_entries o) ++
  filter (λ kv, array_index kv.1 = None) o.

(** [Object.keys(o)] *)
Definition keys {V : Type} (o : object V) : list jsstring :=
  fst <$> entries o.

(** ** [getMathDictionary] *)

Definition TEXT_PH : jsstring := str "__TEXT__".

(** The loop [forEach(x => { normalized = ...; map[normalized].push(x) })]:
    the formulas grouped by their text with every [\text] block replaced.
    A key starts with a dollar, so it is neither [__proto__] nor inherited. *)
Definition group_by_normalized (maths : list jsstring) : object (list jsstring) :=
  foldl (λ map x,
           let normalized := js_replace TEXT_REGEX TEXT_PH x in
           match get_own map normalized with
           | Some xs => assign map normalized (xs ++ [x])
           | None => assign map normalized [x]
           end) [] maths.

(** [Array.prototype.toString], which [RegExp.prototype.exec] applies to
    the array that [allMatches] is handed. *)
Definition Array_toString (xs : list jsstring) : jsstring := join [COMMA] xs.

(** The object [inputTexts] (or [outputTexts]): one property, of value
    [true], per distinct capture. *)
Definition texts_object (formulas : list jsstring) : object bool :=
  foldl (λ o t, assign o t true) [] (allMatches_text (Array_toString formulas)).

(** A dictionary value is [None] when the JavaScript value is [undefined]. *)
Abbreviation dictionary := (object (option jsstring)).

(** The loop [for (i = 0; i < inputKeys.length; i++)
    dict[inputKeys[i]] = outputKeys[i]]. *)
Fixpoint pair_keys (dict : dictionary) (i : nat) (inputKeys outputKeys : list jsstring)
    : dictionary :=
  match inputKeys with
  | [] => dict
  | k :: inputKeys' =>
      pair_keys (assign dict k (outputKeys !! i)) (S i) inputKeys' outputKeys
  end.

Definition getMathDictionary (englishStr translatedStr : jsstring) : dictionary :=
  let inputs := js_match MATH_REGEX englishStr in
  let outputs := js_match MATH_REGEX translatedStr in
  let inputMap := group_by_normalized inputs in
  let outputMap := group_by_normalized outputs in
  foldl (λ dict key,
           if includes TEXT_PH key then
             match get_own inputMap key, get_own outputMap key with
             | Some input, Some output =>
                 let inputKeys := keys (texts_object input) in
                 let outputKeys := keys (texts_object output) in
                 pair_keys dict 0 inputKeys outputKeys
             | _, _ => dict
             end
           else dict)
        [] (keys inputMap).

(** ** Errors

    A call either completes with a value or throws. *)

Inductive exn : Type :=
  | Error (message : jsstring)        (* [new Error(message)] *)
  | SyntaxError (pattern : jsstring)  (* thrown by [new RegExp(pattern, 'g')] *)
  | TypeError.                        (* a property read on [undefined] *)

Inductive completion (A : Type) : Type :=
  | Ok (a : A)
  | Throw (e : exn).
Arguments Ok {A} a.
Arguments Throw {A} e.

Definition bind_completion {A B : Type} (m : completion A) (k : A → completion B)
    : completion B :=
  match m with
  | Ok a => k a
  | Throw e => Throw e
  end.

Notation "'try!' x := m 'in' k" := (bind_completion m (λ x, k))
  (at level 10, x name, m at level 100, k at level 200).

(** [xs.map(f)] and [xs.forEach(f)] when [f] may throw: the first throw ends
    the loop. *)
Fixpoint map_completion {A B : Type} (f : A → completion B) (xs : list A)
    : completion (list B) :=
  match xs with
  | [] => Ok []
  | x :: xs' =>
      try! y := f x in
      try! ys := map_completion f xs' in
      Ok (y :: ys)
  end.

(** ** The regular expressions built at run time

    [getMapping] and [populateTemplate] build a pattern from each dictionary
    key with [new RegExp].  What a pattern text means is the business of the
    JavaScript engine; the development is parametric in it. *)

Class RegExpEngine : Type := {
  RegExp : Type;
  (** [new RegExp(pattern, 'g')]; [None] when it throws a [SyntaxError]. *)
  new_RegExp : jsstring → option RegExp;
  (** [subject.replace(re, replacement)] with a replacement text. *)
  RegExp_replace : RegExp → jsstring → jsstring → jsstring
}.

(** ** [getMapping] *)

(** Which of [MATH_REGEX], [GRAPHIE_REGEX], [WIDGET_REGEX] the argument
    [findRegex] is; the source compares it with [===]. *)
Inductive kind : Type := Math | Graphie | Widget.

Definition findRegex (k : kind) : matcher :=
  match k with
  | Math => MATH_REGEX
  | Graphie => GRAPHIE_REGEX
  | Widget => WIDGET_REGEX
  end.

Definition mismatch (k : kind) : exn :=
  match k with
  | Math => Error (str "math doesn't match")
  | Graphie => Error (str "graphies don't match")
  | Widget => Error (str "widgets don't match")
  end.

(** The text a template literal writes for a string or [undefined]. *)
Definition to_text (v : option jsstring) : jsstring :=
  match v with
  | Some s => s
  | None => str "undefined"
  end.

(** The pattern text of the template literal in [new RegExp(..., 'g')]: two
    backslashes, [text{], the key, [}]. *)
Definition text_pattern (englishText : jsstring) : jsstring :=
  str "\\text{" ++ englishText ++ [RBRACE].

Definition text_replacement (translatedText : option jsstring) : jsstring :=
  str "\text{" ++ to_text translatedText ++ [RBRACE].

Section WithEngine.

Context `{engine : RegExpEngine}.

(** The loop [for (const [englishText, translatedText] of Object.entries(dict))]
    over the entries still to come. *)
Fixpoint apply_entries (es : list (jsstring * option jsstring)) (result : jsstring)
    : completion jsstring :=
  match es with
  | [] => Ok result
  | (englishText, translatedText) :: es' =>
      match new_RegExp (text_pattern englishText) with
      | None => Throw (SyntaxError (text_pattern englishText))
      | Some regex =>
          apply_entries es'
            (RegExp_replace regex (text_replacement translatedText) result)
      end
  end.

(** [Object.entries(mathDictionary)] throws when the argument was left out. *)
Definition apply_dictionary (mathDictionary : option dictionary) (input : jsstring)
    : completion jsstring :=
  match mathDictionary with
  | None => Throw TypeError
  | Some dict => apply_entries (entries dict) input
  end.

(** The English occurrences against which the translated ones are looked
    up: for math, after the dictionary substitutions. *)
Definition mapping_inputs (englishStr : jsstring) (k : kind)
    (mathDictionary : option dictionary) : completion (list jsstring) :=
  let inputs := js_match (findRegex k) englishStr in
  match k with
  | Math => map_completion (apply_dictionary mathDictionary) inputs
  | _ => Ok inputs
  end.

(** The translated occurrences as they are looked up: for math, after
    [translateMath]. *)
Definition mapping_outputs (translatedStr : jsstring) (lang : option jsstring)
    (k : kind) : list jsstring :=
  let outputs := js_match (findRegex k) translatedStr in
  match k with
  | Math => (λ output, translateMath output lang) <$> outputs
  | _ => outputs
  end.

Definition getMapping (englishStr translatedStr : jsstring) (lang : option jsstring)
    (k : kind) (mathDictionary : option dictionary) : completion (list nat) :=
  try! inputs := mapping_inputs englishStr k mathDictionary in
  map_completion (λ output,
                match indexOf inputs output with
                | None => Throw (mismatch k)
                | Some inputIndex => Ok inputIndex
                end)
             (mapping_outputs translatedStr lang k).

(** ** [createTemplate] *)

Record Template : Type := {
  lines : list jsstring;
  mathMapping : list nat;
  graphieMapping : list nat;
  widgetMapping : list nat;
  mathDictionary : dictionary
}.

(** What [createTemplate] returns: a template object, or the error it caught. *)
Inductive template_or_error : Type :=
  | IsTemplate (t : Template)
  | IsError (e : exn).

Definition strip_line (line : jsstring) : jsstring :=
  js_replace WIDGET_REGEX WIDGET_PH
    (js_replace GRAPHIE_REGEX GRAPHIE_PH
       (js_replace MATH_REGEX MATH_PH line)).

Definition createTemplate (englishStr translatedStr : jsstring)
    (lang : option jsstring) : template_or_error :=
  let translatedLines := split_LINE_BREAK translatedStr in
  let mathDictionary := getMathDictionary englishStr translatedStr in
  let body :=
    let lines := strip_line <$> translatedLines in
    try! mathMapping :=
      getMapping englishStr translatedStr lang Math (Some mathDictionary) in
    try! graphieMapping :=
      getMapping englishStr translatedStr lang Graphie None in
    try! widgetMapping :=
      getMapping englishStr translatedStr lang Widget None in
    Ok {| lines := lines;
          mathMapping := mathMapping;
          graphieMapping := graphieMapping;
          widgetMapping := widgetMapping;
          mathDictionary := mathDictionary |} in
  match body with
  | Ok template => IsTemplate template
  | Throw e => IsError e
  end.

(** ** [populateTemplate] *)

(** The text the replacement callback [() => xs[mapping[index]]] yields; an
    [undefined] result is written as the text [undefined]. *)
Definition pick (xs : list jsstring) (mapping : list nat) (index : nat) : jsstring :=
  to_text (i ← mapping !! index; xs !! i).

(** [line.replace(/placeholder/g, () => supply(index++))]: the new line and
    the value of the running index afterwards. *)
Fixpoint fill_tokens (supply : nat → jsstring) (index : nat) (ts : list token)
    : jsstring * nat :=
  match ts with
  | [] => ([], index)
  | Plain c :: ts' =>
      let '(r, i) := fill_tokens supply index ts' in (c :: r, i)
  | Hit _ :: ts' =>
      let '(r, i) := fill_tokens supply (S index) ts' in (supply index ++ r, i)
  end.

Definition fill (placeholder : jsstring) (supply : nat → jsstring) (index : nat)
    (line : jsstring) : jsstring * nat :=
  fill_tokens supply index (tokens (lit_at placeholder) line).

(** The running indices [mathIndex], [graphieIndex], [widgetIndex]. *)
Record cursors : Type := {
  mathIndex : nat;
  graphieIndex : nat;
  widgetIndex : nat
}.

(** One line: the three replacements in the order of the source. *)
Definition fill_line (maths graphies widgets : nat → jsstring) (cur : cursors)
    (templateLine : jsstring) : jsstring * cursors :=
  let '(l1, mi) := fill MATH_PH maths (mathIndex cur) templateLine in
  let '(l2, gi) := fill GRAPHIE_PH graphies (graphieIndex cur) l1 in
  let '(l3, wi) := fill WIDGET_PH widgets (widgetIndex cur) l2 in
  (l3, {| mathIndex := mi; graphieIndex := gi; widgetIndex := wi |}).

(** [englishLines.map((englishLine, index) => ...)], from line [index] on.
    Reading [replace] on a template line that does not exist throws. *)
Fixpoint fill_lines (templateLines : list jsstring)
    (maths graphies widgets : nat → jsstring)
    (englishLines : list jsstring) (index : nat) (cur : cursors)
    : completion (list jsstring) :=
  match englishLines with
  | [] => Ok []
  | _ :: englishLines' =>
      match templateLines !! index with
      | None => Throw TypeError
      | Some templateLine =>
          let '(line, cur') := fill_line maths graphies widgets cur templateLine in
          try! rest := fill_lines templateLines maths graphies widgets
                         englishLines' (S index) cur' in
          Ok (line :: rest)
      end
  end.

Definition populateTemplate (template : Template) (englishStr : jsstring)
    (lang : option jsstring) : completion jsstring :=
  let englishLines := split_LINE_BREAK englishStr in
  let maths := js_match MATH_REGEX englishStr in
  let graphies := js_match GRAPHIE_REGEX englishStr in
  let widgets := js_match WIDGET_REGEX englishStr in
  try! maths :=
    map_completion (λ math, apply_entries (entries (mathDictionary template))
                          (translateMath math lang)) maths in
  try! newLines :=
    fill_lines (lines template)
      (pick maths (mathMapping template))
      (pick graphies (graphieMapping template))
      (pick widgets (widgetMapping template))
      englishLines 0
      {| mathIndex := 0; graphieIndex := 0; widgetIndex := 0 |} in
  Ok (join LINE_BREAK newLines).

(** ** The class [TranslationAssistant] *)

Section Class.

Context {Item : Type}.

(** A suggestion group [{items, template}]; [template] is [None] for [null]. *)
Record group : Type := {
  items : list Item;
  template : option template_or_error
}.

(** The instance [this].  [lang] is [None] while the property has not been
    assigned, in which case reading it gives [undefined]. *)
Record TranslationAssistant : Type := {
  getEnglishStr : Item → jsstring;
  (** [None] for a translation that is absent ([undefined] or [null]). *)
  getTranslation : Item → option jsstring;
  suggestionGroups : gmap jsstring group;
  lang : option jsstring
}.

(** The first loop of [getSuggestionGroups]: the items by group key, in the
    order met. *)
Definition group_items (this : TranslationAssistant) (allItems : list Item)
    : gmap jsstring (list Item) :=
  foldl (λ groups obj,
           let key := stringToGroupKey (getEnglishStr this obj) in
           match groups !! key with
           | Some objs => <[key := objs ++ [obj]]> groups
           | None => <[key := [obj]]> groups
           end) ∅ allItems.

(** A string is truthy when it is not empty. *)
Definition truthy (v : option jsstring) : bool :=
  match v with
  | Some (_ :: _) => true
  | _ => false
  end.

(** The loop [for (const item of items)] that looks for a translated item. *)
Fixpoint group_template (this : TranslationAssistant) (its : list Item)
    : option template_or_error :=
  match its with
  | [] => None
  | item :: its' =>
      let englishStr := getEnglishStr this item in
      let translatedStr := getTranslation this item in
      if truthy translatedStr
      then Some (createTemplate englishStr (to_text translatedStr) (lang this))
      else group_template this its'
  end.

Definition getSuggestionGroups (this : TranslationAssistant) (allItems : list Item)
    : gmap jsstring group :=
  (λ its, {| items := its; template := group_template this its |})
    <$> group_items this allItems.

(** The constructor, one assignment to [this] after the other. *)
Definition constructor (allItems : list Item) (getEnglishStr0 : Item → jsstring)
    (getTranslation0 : Item → option jsstring) (lang0 : jsstring)
    : TranslationAssistant :=
  let this := {| getEnglishStr := getEnglishStr0;
                 getTranslation := getTranslation0;
                 suggestionGroups := ∅;
                 lang := None |} in
  let this := {| getEnglishStr := getEnglishStr this;
                 getTranslation := getTranslation this;
                 suggestionGroups := getSuggestionGroups this allItems;
                 lang := lang this |} in
  {| getEnglishStr := getEnglishStr this;
     getTranslation := getTranslation this;
     suggestionGroups := suggestionGroups this;
     lang := Some lang0 |}.

(** [/^(__MATH__|__GRAPHIE__|__WIDGET__)$/.test(s)] *)
Definition is_bare_placeholder (s : jsstring) : bool :=
  bool_decide (s = MATH_PH) || bool_decide (s = GRAPHIE_PH)
  || bool_decide (s = WIDGET_PH).

(** The callback of [itemsToTranslate.map] in [suggest]; the suggestion is
    [None] for [null]. *)
Definition suggest_item (this : TranslationAssistant) (item : Item)
    : completion (Item * option jsstring) :=
  let englishStr := getEnglishStr this item in
  let normalStr := stringToGroupKey englishStr in
  match JSON_parse normalStr with
  | None => Throw (SyntaxError normalStr)
  | Some normalObj =>
      let from_group :=
        match suggestionGroups this !! normalStr with
        | Some g =>
            match template g with
            | Some (IsError _) => Ok (item, None)
            | Some (IsTemplate t) =>
                try! translatedStr :=
                  populateTemplate t (getEnglishStr this item) (lang this) in
                Ok (item, Some translatedStr)
            | None => Ok (item, None)
            end
        | None => Ok (item, None)
        end in
      if is_bare_placeholder (obj_str normalObj) then
        if decide (obj_str normalObj = MATH_PH) then
          if negb (includes (str "\text") englishStr)
          then Ok (item, Some (translateMath englishStr (lang this)))
          else from_group
        else Ok (item, Some englishStr)
      else from_group
  end.

Definition suggest (this : TranslationAssistant) (itemsToTranslate : list Item)
    : completion (list (Item * option jsstring)) :=
  map_completion (suggest_item this) itemsToTranslate.

End Class.

End WithEngine.

(** ** A reference engine for word patterns

    An instance of [RegExpEngine] that compiles the patterns in which every
    character stands for itself: a pattern made of escaped backslashes, of
    braces ([{] not followed by a digit, so that it opens no quantifier) and
    of code units without a meaning in the pattern syntax.  It refuses every
    other pattern.  On the patterns it compiles, and on the patterns that
    ECMAScript refuses as well, it behaves as ECMAScript does; it is used
    to run the functions on concrete input. *)

Definition LBRACE : N := 123.

Definition is_syntax_char (c : N) : bool :=
  existsb (N.eqb c) (str "^$\.*+?()[|").

(** The text a word pattern matches, if the pattern is one. *)
Fixpoint compile_word (p : jsstring) : option jsstring :=
  match p with
  | [] => Some []
  | c :: tl =>
      if c =? BACKSLASH then
        match tl with
        | d :: tl' =>
            if d =? BACKSLASH then cons BACKSLASH <$> compile_word tl' else None
        | [] => None
        end
      else if is_syntax_char c then None
      else if (c =? LBRACE) && (match tl with d :: _ => is_digit d | [] => false end)
      then None
      else cons c <$> compile_word tl
  end.

(** [GetSubstitution] for a pattern without capture groups: [$$], [$&],
    the text before the match and the text after it; any other dollar
    stands for itself. *)
Fixpoint substitution (matched before after replacement : jsstring) : jsstring :=
  match replacement with
  | [] => []
  | c :: tl =>
      match tl with
      | d :: tl' =>
          if negb (c =? DOLLAR) then c :: substitution matched before after tl
          else if d =? DOLLAR then DOLLAR :: substitution matched before after tl'
          else if d =? 38 then matched ++ substitution matched before after tl'
          else if d =? 96 then before ++ substitution matched before after tl'
          else if d =? 39 then after ++ substitution matched before after tl'
          else c :: substitution matched before after tl
      | [] => [c]
      end
  end.

Fixpoint word_replace (w replacement before : jsstring) (skip : nat) (s : jsstring)
    : jsstring :=
  match s with
  | [] => []
  | c :: tl =>
      match skip with
      | S k => word_replace w replacement (before ++ [c]) k tl
      | O =>
          if starts_with w s
          then substitution w before (drop (length w) s) replacement
               ++ word_replace w replacement (before ++ [c]) (length w - 1) tl
          else c :: word_replace w replacement (before ++ [c]) O tl
      end
  end.

#[export] Instance word_engine : RegExpEngine := {|
  RegExp := jsstring;
  new_RegExp p :=
    match compile_word p with
    | Some (c :: w) => Some (c :: w)
    | _ => None
    end;
  RegExp_replace w replacement subject := word_replace w replacement [] O subject
|}.

(** ** Inputs used in the examples *)

Definition ES : option jsstring := Some (str "es").

(** The example in the documentation of [getMapping]. *)
Definition english_hint : jsstring :=
  str "simplify $2/4$" ++ LINE_BREAK ++ str "hint: the denominator is $2$".
Definition translated_hint : jsstring :=
  str "hintz: da denom $2$ iz $2$" ++ LINE_BREAK ++ str "simplifz $2/4$".

(** A pair from which a template is built, and a query with no formula. *)
Definition english_simplify : jsstring := str "Simplify $2/4$".
Definition translated_simplify : jsstring := str "Simplifica $2/4$".
Definition english_plain : jsstring := str "Simplify".

Definition english_sin : jsstring := str "$\sin(x)$".
Definition english_graphie : jsstring := str "![](web+graphie://ka-perseus-graphie/542f)".

(** ** Vocabulary of the statements *)

(** The step of [stringToGroupKey] that joins a math placeholder with the
    widget placeholder after it. *)
Definition collapse (s : jsstring) : jsstring :=
  js_replace MATH_WIDGET_REGEX (str "__MATH__ __WIDGET__") s.

Definition tab_or_space (c : N) : bool := (c =? TAB) || (c =? SPACE).

(** The collapse as the specification words it: it applies when
    white space separates the two placeholders, that is
    [/__MATH__\s+__WIDGET__/g]. *)
Definition spec_collapse (s : jsstring) : jsstring :=
  js_replace (delimited MATH_PH is_ws 1 WIDGET_PH) (str "__MATH__ __WIDGET__") s.

Definition spec_group_str (s : jsstring) : jsstring :=
  join LINE_BREAK (trim <$> split_LINE_BREAK (spec_collapse (strip_line s))).

Definition english_math_widget : jsstring :=
  str "$x$[[" ++ [SNOWMAN] ++ str " Expression 1]]".

(** The occurrences a scan finds lie in the string one after the other. *)
Inductive blocks : list jsstring → jsstring → Prop :=
  | blocks_nil (s : jsstring) : blocks [] s
  | blocks_skip (c : N) (ws : list jsstring) (s : jsstring) :
      blocks ws s → blocks ws (c :: s)
  | blocks_here (w : jsstring) (ws : list jsstring) (s : jsstring) :
      blocks ws s → blocks (w :: ws) (w ++ s).

(** A string holds a [\text] block when [\text{] occurs in it with a closing
    brace somewhere after. *)
Definition has_block (s : jsstring) : Prop :=
  ∃ x y, s = x ++ TEXT_OPEN ++ y ∧ RBRACE ∈ y.

(** A string with each of its math occurrences rewritten by
    [translateMath]. *)
Definition rewrite_maths (s : jsstring) (lang : option jsstring) : jsstring :=
  js_replace_fn MATH_REGEX (λ math, translateMath math lang) s.

(** The text the [index]-th placeholder gets when the occurrences [xs] are
    put back in their own order. *)
Definition supply (xs : list jsstring) (index : nat) : jsstring :=
  to_text (xs !! index).

Definition initial_cursors : cursors :=
  {| mathIndex := 0; graphieIndex := 0; widgetIndex := 0 |}.

(** Putting the occurrences of a translated string back into its own
    template lines, the math occurrences rewritten. *)
Definition refill (translatedStr : jsstring) (lang : option jsstring)
    : completion jsstring :=
  try! newLines :=
    fill_lines (strip_line <$> split_LINE_BREAK translatedStr)
      (supply ((λ math, translateMath math lang)
                 <$> js_match MATH_REGEX translatedStr))
      (supply (js_match GRAPHIE_REGEX translatedStr))
      (supply (js_match WIDGET_REGEX translatedStr))
      (split_LINE_BREAK translatedStr) 0 initial_cursors in
  Ok (join LINE_BREAK newLines).

(** A translated string is captured by its template lines when putting its
    own occurrences back gives the string again (with the math rewritten):
    the placeholders found in the lines are those of its occurrences, in
    the same order. *)
Definition skeleton_faithful (translatedStr : jsstring) (lang : option jsstring)
    : Prop :=
  refill translatedStr lang = Ok (rewrite_maths translatedStr lang).

(** The pattern built from the key of a dictionary entry compiles. *)
Definition compiles `{engine : RegExpEngine} (e : jsstring * option jsstring) : Prop :=
  is_Some (new_RegExp (text_pattern e.1)).

Definition english_hello : jsstring := str "Hello".
Definition english_fractions : jsstring := str "$2/4$ and $3/6$".
Definition translated_fractions : jsstring := str "$3/6$ y $2/4$".

(** An item of the examples: an English string and its translation, if any. *)
Abbreviation example_item := (jsstring * option jsstring)%type.

Definition english_find_sin : jsstring := str "Find $\sin x$".
Definition translated_find_sin : jsstring := str "Ache $\sin x$".
Definition item_find_sin : example_item :=
  (english_find_sin, Some translated_find_sin).

(** A formula whose [\text] block holds a closing parenthesis. *)
Definition english_paren : jsstring := str "$\text{a)}$".

(** The order in which [sort] leaves the strings. *)
Definition str_le (a b : jsstring) : Prop := str_ltb b a = false.

Definition english_math_newline_widget : jsstring :=
  str "$x$" ++ [LF] ++ str "[[" ++ [SNOWMAN] ++ str " Expression 1]]".

(** ** Vocabulary of the further properties *)

Section SuggestionSource.

Context `{engine : RegExpEngine} {Item : Type}.

(** The first item of [allItems] that has the given group key and a
    non-empty translation. *)
Definition first_translated (allItems : list Item)
    (getEnglishStr0 : Item → jsstring) (getTranslation0 : Item → option jsstring)
    (key : jsstring) : option Item :=
  find (λ obj, bool_decide (stringToGroupKey (getEnglishStr0 obj) = key)
               && truthy (getTranslation0 obj))
       allItems.

(** The suggestion that the group of an item gives: the template built
    (with no language) from the first translated item of the group,
    populated with the English string of the item. *)
Definition group_suggestion (allItems : list Item)
    (getEnglishStr0 : Item → jsstring) (getTranslation0 : Item → option jsstring)
    (lang0 : jsstring) (item : Item) : completion (Item * option jsstring) :=
  match first_translated allItems getEnglishStr0 getTranslation0
          (stringToGroupKey (getEnglishStr0 item)) with
  | None => Ok (item, None)
  | Some obj =>
      match createTemplate (getEnglishStr0 obj)
              (to_text (getTranslation0 obj)) None with
      | IsError _ => Ok (item, None)
      | IsTemplate t =>
          try! translatedStr :=
            populateTemplate t (getEnglishStr0 item) (Some lang0) in
          Ok (item, Some translatedStr)
      end
  end.

End SuggestionSource.

(** Two paragraphs in English, one in the translation. *)
Definition english_two_paragraphs : jsstring :=
  str "Hello" ++ LINE_BREAK ++ str "friend".
Definition item_short_translation : example_item :=
  (english_two_paragraphs, Some (str "Hola")).

Definition item_find_cos : example_item := (str "Find $\cos y$", None).

(** One round of the loop of [MATH_REGEX]: an escaped dollar, or one code
    unit that is not a dollar. *)
Definition math_step (st : jsstring) : Prop :=
  st = [BACKSLASH; DOLLAR] ∨ ∃ c, st = [c] ∧ c ≠ DOLLAR.

(** Two formulas with the same fragments in a different order. *)
Definition english_red_blue : jsstring := str "$\text{red}+\text{blue}$".
Definition english_blue_red : jsstring := str "$\text{blue}+\text{red}$".

(** A text in which no math, graphie or widget occurrence and no
    placeholder can start: it has no dollar, exclamation mark, opening
    bracket or underscore. *)
Definition plain_text (s : jsstring) : Prop :=
  Forall (λ c, c ≠ DOLLAR ∧ c ≠ 33 ∧ c ≠ LBRACKET ∧ c ≠ 95) s.

(** The template of a translated string that is plain text. *)
Definition plain_template (translatedStr : jsstring) : Template :=
  {| lines := split_LINE_BREAK translatedStr;
     mathMapping := [];
     graphieMapping := [];
     widgetMapping := [];
     mathDictionary := [] |}.

Definition item_hello : example_item := (english_hello, Some (str "Hola")).
Definition item_hello_math : example_item := (str "Hello $x$", Some (str "Hola")).
Definition item_hello_query : example_item := (str "Hello $y$", None).

(** A key that is neither [__proto__] nor an array index: assigning to it
    creates or updates an own property, and enumeration leaves it in the
    order of creation. *)
Definition ordinary_key (k : jsstring) : Prop :=
  k ≠ PROTO ∧ array_index k = None.

Definition translated_roja_azul : jsstring := str "$\text{roja}+\text{azul}$".

(** A formula with the given text between its dollars. *)
Definition formula (body : jsstring) : jsstring := [DOLLAR] ++ body ++ [DOLLAR].

(** The text between the dollars of a formula that is found as it is in
    every context: it is not empty, it has no dollar, and it does not end
    with a backslash (which would escape the closing dollar). *)
Definition formula_body (b : jsstring) : Prop :=
  b ≠ [] ∧ (DOLLAR ∉ b) ∧ last b ≠ Some BACKSLASH.

(** A string made of texts, each followed by a formula, and a rest. *)
Fixpoint with_formulas (segments : list (jsstring * jsstring)) (rest : jsstring)
    : jsstring :=
  match segments with
  | [] => rest
  | (text, body) :: segments' =>
      text ++ formula body ++ with_formulas segments' rest
  end.

Definition item_simplify : example_item :=
  (english_simplify, Some (str "simplifica $2/4$")).
Definition item_simplify_sin : example_item := (str "Simplify $\sin x$", None).
(** ** Facts about the scan *)

Lemma starts_with_app (w r : jsstring) : starts_with w (w ++ r) = true.
Proof.
  induction w as [|a w IH]; simpl; [done|].
  by rewrite N.eqb_refl, IH.
Qed.

Lemma starts_with_inv (w s : jsstring) :
  starts_with w s = true → ∃ r, s = w ++ r.
Proof.
  revert s. induction w as [|a w IH]; intros s H; simpl in *.
  - by exists s.
  - destruct s as [|b s]; [done|].
    apply andb_true_iff in H as [Hab Hw].
    apply N.eqb_eq in Hab as ->.
    destruct (IH _ Hw) as [r ->]. by exists r.
Qed.

Lemma scan_skip (m : matcher) (k : nat) (s : jsstring) :
  scan m k s = scan m O (drop k s).
Proof.
  revert k. induction s as [|c tl IH]; intros [|k]; simpl; auto.
Qed.

Lemma tokens_nil (m : matcher) : tokens m [] = [].
Proof. done. Qed.

Lemma tokens_hit (m : matcher) (c : N) (tl : jsstring) (k : nat) :
  m (c :: tl) = Some (S k) →
  tokens m (c :: tl) = Hit (c :: take k tl) :: tokens m (drop k tl).
Proof.
  intros H. unfold tokens. simpl. rewrite H. by rewrite scan_skip.
Qed.

Lemma tokens_miss (m : matcher) (c : N) (tl : jsstring) :
  m (c :: tl) = None →
  tokens m (c :: tl) = Plain c :: tokens m tl.
Proof. intros H. unfold tokens. simpl. by rewrite H. Qed.

Lemma lit_at_hit (w r : jsstring) : lit_at w (w ++ r) = Some (length w).
Proof. unfold lit_at. by rewrite starts_with_app. Qed.

Lemma lit_at_miss (w s : jsstring) :
  starts_with w s = false → lit_at w s = None.
Proof. unfold lit_at. by intros ->. Qed.

(** Replacing a literal: the two equations of the scan. *)
Lemma replace_lit_hit (w rep r : jsstring) :
  w ≠ [] →
  js_replace (lit_at w) rep (w ++ r) = rep ++ js_replace (lit_at w) rep r.
Proof.
  intros Hw. destruct w as [|a w]; [done|].
  unfold js_replace, js_replace_fn.
  change ((a :: w) ++ r) with (a :: (w ++ r)).
  rewrite (tokens_hit _ _ _ (length w)).
  - simpl. by rewrite drop_app_length.
  - apply (lit_at_hit (a :: w) r).
Qed.

Lemma replace_lit_miss (w rep : jsstring) (c : N) (tl : jsstring) :
  starts_with w (c :: tl) = false →
  js_replace (lit_at w) rep (c :: tl) = c :: js_replace (lit_at w) rep tl.
Proof.
  intros H. unfold js_replace, js_replace_fn.
  by rewrite tokens_miss by by apply lit_at_miss.
Qed.

(** ** [translateMath] is idempotent *)

Section TranslateMathIdempotent.

Let SIN : jsstring := str "\sin".
Let SEN : jsstring := str "\operatorname{sen}".
Let tm : jsstring → jsstring := js_replace (lit_at SIN) SEN.

(** A text without backslash that starts the rewritten string already
    started the original one: the rewriter only inserts text that begins
    with a backslash. *)
Lemma tm_reflects_prefix (w s : jsstring) :
  Forall (λ a, a ≠ BACKSLASH) w →
  starts_with w (tm s) = true → starts_with w s = true.
Proof.
  intros Hw. revert s. induction Hw as [|a w Ha Hw IH]; intros s H; [done|].
  destruct s as [|c tl]; [done|].
  destruct (starts_with SIN (c :: tl)) eqn:E.
  - apply starts_with_inv in E as [r E]. rewrite E in H.
    unfold tm in H. rewrite replace_lit_hit in H by done.
    simpl in H. apply andb_true_iff in H as [H _].
    apply N.eqb_eq in H. by subst a.
  - unfold tm in H. rewrite replace_lit_miss in H by done.
    simpl in *. apply andb_true_iff in H as [-> H].
    simpl. by apply IH.
Qed.

Lemma tm_keeps_miss (c : N) (tl : jsstring) :
  starts_with SIN (c :: tl) = false →
  starts_with SIN (c :: tm tl) = false.
Proof.
  intros H. destruct (starts_with SIN (c :: tm tl)) eqn:E; [|done].
  rewrite <- H. symmetry.
  change SIN with (BACKSLASH :: str "sin") in *. simpl in *.
  apply andb_true_iff in E as [-> E]. simpl.
  apply (tm_reflects_prefix (str "sin")); [|done].
  by repeat constructor.
Qed.

Lemma tm_SEN (x : jsstring) : tm (SEN ++ x) = SEN ++ tm x.
Proof.
  unfold tm. let v := eval vm_compute in SEN in change SEN with v.
  simpl.
  by repeat (rewrite replace_lit_miss by reflexivity).
Qed.

Lemma tm_idempotent (s : jsstring) : tm (tm s) = tm s.
Proof.
  remember (length s) as n eqn:Hn.
  revert s Hn. induction n as [n IH] using lt_wf_ind. intros s Hn.
  destruct s as [|c tl]; [done|].
  destruct (starts_with SIN (c :: tl)) eqn:E.
  - apply starts_with_inv in E as [r E]. rewrite E.
    unfold tm at 2 3. rewrite replace_lit_hit by done. fold tm.
    rewrite tm_SEN. f_equal.
    apply (IH (length r)); [|done].
    rewrite Hn, E. rewrite length_app. simpl. lia.
  - unfold tm at 2 3. rewrite replace_lit_miss by done. fold tm.
    unfold tm at 1. rewrite replace_lit_miss by by apply tm_keeps_miss.
    fold tm. f_equal.
    apply (IH (length tl)); [|done]. rewrite Hn. simpl. lia.
Qed.

End TranslateMathIdempotent.


(** ** Completions and list primitives *)

Lemma map_completion_Ok {A B : Type} (f : A → completion B) (xs : list A) (ys : list B) :
  map_completion f xs = Ok ys ↔ Forall2 (λ x y, f x = Ok y) xs ys.
Proof.
  revert ys. induction xs as [|x xs IH]; intros ys; simpl.
  - split.
    + intros [= <-]. constructor.
    + intros H. by inversion H.
  - destruct (f x) as [y|e] eqn:Hx; simpl.
    + destruct (map_completion f xs) as [ys'|e] eqn:Hxs; simpl.
      * split.
        -- intros [= <-]. constructor; [done|]. by apply IH.
        -- intros H. inversion H as [|? y' ? ys'' Hy Hys]; subst.
           apply IH in Hys. congruence.
      * split; [done|].
        intros H. inversion H as [|? y' ? ys'' Hy Hys]; subst.
        apply IH in Hys. congruence.
    + split; [done|].
      intros H. inversion H; subst. congruence.
Qed.

Lemma map_completion_length {A B : Type} (f : A → completion B) (xs : list A) (ys : list B) :
  map_completion f xs = Ok ys → length ys = length xs.
Proof.
  intros H. apply map_completion_Ok in H.
  symmetry. by eapply Forall2_length.
Qed.

Lemma map_completion_lookup {A B : Type} (f : A → completion B) (xs : list A)
    (ys : list B) (i : nat) (x : A) :
  map_completion f xs = Ok ys → xs !! i = Some x →
  ∃ y, ys !! i = Some y ∧ f x = Ok y.
Proof.
  intros H Hx. apply map_completion_Ok in H.
  destruct (Forall2_lookup_l _ _ _ _ _ H Hx) as (y & Hy & Hf). eauto.
Qed.

(** A loop throws exactly when its body throws on some element, and then it
    throws what the body throws on the first such element. *)
Lemma map_completion_Throw {A B : Type} (f : A → completion B) (xs : list A) (e : exn) :
  map_completion f xs = Throw e ↔
  ∃ i x, xs !! i = Some x ∧ f x = Throw e ∧
         ∀ j x', (j < i)%nat → xs !! j = Some x' → ∃ y, f x' = Ok y.
Proof.
  revert e. induction xs as [|x xs IH]; intros e; simpl.
  - split; [done|]. by intros (i & x & Hx & _).
  - destruct (f x) as [y|e'] eqn:Hfx; simpl.
    + assert (map_completion f xs = Throw e ↔
              (try! ys := map_completion f xs in Ok (y :: ys)) = Throw e) as <-.
      { destruct (map_completion f xs); simpl; split; congruence. }
      rewrite IH. split.
      * intros (i & x' & Hx' & Hf & Hbefore).
        exists (S i), x'. repeat split; [done..|].
        intros [|j] x'' Hj Hx''; simpl in Hx''.
        -- injection Hx'' as <-. eauto.
        -- apply (Hbefore j); [lia|done].
      * intros (i & x' & Hx' & Hf & Hbefore).
        destruct i as [|i]; simpl in Hx'; [congruence|].
        exists i, x'. repeat split; [done..|].
        intros j x'' Hj. apply (Hbefore (S j)). lia.
    + split.
      * intros [= <-]. exists O, x. repeat split; [done..|]. intros; lia.
      * intros (i & x' & Hx' & Hf & Hbefore).
        destruct i as [|i]; simpl in Hx'.
        -- congruence.
        -- destruct (Hbefore O x) as [y Hy]; [lia|done|congruence].
Qed.

Lemma indexOf_Some (xs : list jsstring) (x : jsstring) (i : nat) :
  indexOf xs x = Some i ↔
  xs !! i = Some x ∧ ∀ j, (j < i)%nat → xs !! j ≠ Some x.
Proof.
  revert i. induction xs as [|y xs IH]; intros i; simpl.
  - split; [done|]. by intros [? _].
  - destruct (decide (y = x)) as [->|Hne].
    + split.
      * intros [= <-]. split; [done|]. intros; lia.
      * intros [Hi Hfirst]. destruct i as [|i]; [done|].
        exfalso. by apply (Hfirst O); [lia|].
    + destruct i as [|i].
      * split.
        -- by destruct (indexOf xs x).
        -- simpl. intros [[= ?] _]. done.
      * assert (S <$> indexOf xs x = Some (S i) ↔ indexOf xs x = Some i) as ->.
        { destruct (indexOf xs x); simpl; split; congruence. }
        rewrite IH. simpl. split.
        -- intros [Hi Hfirst]. split; [done|].
           intros [|j] Hj; simpl; [congruence|]. apply Hfirst. lia.
        -- intros [Hi Hfirst]. split; [done|].
           intros j Hj. apply (Hfirst (S j)). lia.
Qed.

Lemma indexOf_None (xs : list jsstring) (x : jsstring) :
  indexOf xs x = None ↔ x ∉ xs.
Proof.
  induction xs as [|y xs IH]; simpl.
  - split; [|done]. intros _. apply not_elem_of_nil.
  - rewrite not_elem_of_cons. destruct (decide (y = x)) as [->|Hne].
    + split; [done|]. by intros [? _].
    + destruct (indexOf xs x); simpl.
      * split; [done|]. intros [_ H]. by apply IH in H.
      * split; [|done]. intros _. split; [done|]. by apply IH.
Qed.

(** ** [getMapping] *)

Section Mapping.

Context `{engine : RegExpEngine}.

Lemma mapping_inputs_length (englishStr : jsstring) (k : kind)
    (dict : option dictionary) (inputs : list jsstring) :
  mapping_inputs englishStr k dict = Ok inputs →
  length inputs = length (js_match (findRegex k) englishStr).
Proof.
  unfold mapping_inputs. destruct k.
  - apply map_completion_length.
  - by intros [= <-].
  - by intros [= <-].
Qed.

Lemma mapping_outputs_length (translatedStr : jsstring) (lang : option jsstring)
    (k : kind) :
  length (mapping_outputs translatedStr lang k)
  = length (js_match (findRegex k) translatedStr).
Proof. unfold mapping_outputs. destruct k; [apply length_fmap|done..]. Qed.

(** The shape of a successful call. *)
Lemma getMapping_Ok (englishStr translatedStr : jsstring) (lang : option jsstring)
    (k : kind) (dict : option dictionary) (mapping : list nat) :
  getMapping englishStr translatedStr lang k dict = Ok mapping ↔
  ∃ inputs, mapping_inputs englishStr k dict = Ok inputs ∧
            Forall2 (λ output e, indexOf inputs output = Some e)
                    (mapping_outputs translatedStr lang k) mapping.
Proof.
  unfold getMapping.
  destruct (mapping_inputs englishStr k dict) as [inputs|e]; simpl.
  - rewrite map_completion_Ok. split.
    + intros H. exists inputs. split; [done|].
      eapply Forall2_impl; [exact H|]. simpl. intros output i.
      by destruct (indexOf inputs output); intros [= <-].
    + intros (inputs' & [= <-] & H).
      eapply Forall2_impl; [exact H|]. simpl. by intros output i ->.
  - split; [done|]. by intros (? & ? & _).
Qed.

Lemma getMapping_bounds (englishStr translatedStr : jsstring) (lang : option jsstring)
    (k : kind) (dict : option dictionary) (mapping : list nat) :
  getMapping englishStr translatedStr lang k dict = Ok mapping →
  length mapping = length (js_match (findRegex k) translatedStr) ∧
  Forall (λ e, (e < length (js_match (findRegex k) englishStr))%nat) mapping.
Proof.
  intros H. apply getMapping_Ok in H as (inputs & Hin & Hmap).
  split.
  - rewrite <- (Forall2_length _ _ _ Hmap). apply mapping_outputs_length.
  - rewrite <- (mapping_inputs_length _ _ _ _ Hin).
    apply Forall_lookup. intros i e Hi.
    destruct (Forall2_lookup_r _ _ _ _ _ Hmap Hi) as (output & _ & Hidx).
    apply indexOf_Some in Hidx as [Hidx _].
    by eapply lookup_lt_Some.
Qed.

Lemma createTemplate_IsTemplate (englishStr translatedStr : jsstring)
    (lang : option jsstring) (t : Template) :
  createTemplate englishStr translatedStr lang = IsTemplate t ↔
  lines t = strip_line <$> split_LINE_BREAK translatedStr ∧
  mathDictionary t = getMathDictionary englishStr translatedStr ∧
  getMapping englishStr translatedStr lang Math (Some (mathDictionary t))
    = Ok (mathMapping t) ∧
  getMapping englishStr translatedStr lang Graphie None = Ok (graphieMapping t) ∧
  getMapping englishStr translatedStr lang Widget None = Ok (widgetMapping t).
Proof.
  unfold createTemplate.
  destruct (getMapping englishStr translatedStr lang Math _) as [mm|e] eqn:Hm;
    simpl; [|split; [done|]; intros (_ & Hd & H & _); rewrite Hd in H; congruence].
  destruct (getMapping englishStr translatedStr lang Graphie _) as [gm|e] eqn:Hg;
    simpl; [|split; [done|]; by intros (_ & _ & _ & H & _)].
  destruct (getMapping englishStr translatedStr lang Widget _) as [wm|e] eqn:Hw;
    simpl; [|split; [done|]; by intros (_ & _ & _ & _ & H)].
  split.
  - intros [= <-]. simpl. by rewrite Hm.
  - intros (Hl & Hd & H1 & H2 & H3). destruct t as [l m g w d]; simpl in *.
    rewrite Hd, Hm in H1. congruence.
Qed.

End Mapping.

(** ** [populateTemplate] completes *)

Section Populate.

Context `{engine : RegExpEngine}.

Lemma apply_entries_compiles (es : list (jsstring * option jsstring))
    (x y : jsstring) :
  apply_entries es x = Ok y → Forall compiles es.
Proof.
  revert x. induction es as [|[en tr] es IH]; intros x H; [constructor|].
  simpl in H. destruct (new_RegExp (text_pattern en)) as [re|] eqn:Hre; [|done].
  constructor; [|by eapply IH].
  unfold compiles. simpl. by rewrite Hre.
Qed.

Lemma apply_entries_Ok (es : list (jsstring * option jsstring)) (x : jsstring) :
  Forall compiles es → ∃ y, apply_entries es x = Ok y.
Proof.
  intros H. revert x. induction H as [|[en tr] es [re Hre] _ IH]; intros x; simpl.
  - eauto.
  - simpl in Hre. rewrite Hre. apply IH.
Qed.

Lemma map_completion_total {A B : Type} (f : A → completion B) (xs : list A) :
  (∀ x, ∃ y, f x = Ok y) → ∃ ys, map_completion f xs = Ok ys.
Proof.
  intros Hf. induction xs as [|x xs [ys IH]]; simpl; [eauto|].
  destruct (Hf x) as [y ->]. rewrite IH. simpl. eauto.
Qed.

Lemma getMathDictionary_no_math (englishStr translatedStr : jsstring) :
  js_match MATH_REGEX englishStr = [] →
  getMathDictionary englishStr translatedStr = [].
Proof. unfold getMathDictionary. by intros ->. Qed.

(** When the template was built, every pattern of its dictionary compiled. *)
Lemma built_dictionary_compiles (englishStr translatedStr : jsstring)
    (lang : option jsstring) (t : Template) :
  createTemplate englishStr translatedStr lang = IsTemplate t →
  Forall compiles (entries (mathDictionary t)).
Proof.
  intros H. apply createTemplate_IsTemplate in H as (_ & Hd & Hm & _).
  apply getMapping_Ok in Hm as (inputs & Hin & _).
  unfold mapping_inputs, findRegex in Hin.
  destruct (js_match MATH_REGEX englishStr) as [|x xs] eqn:Hmaths.
  - rewrite Hd, getMathDictionary_no_math by done. constructor.
  - simpl in Hin.
    destruct (apply_entries (entries (mathDictionary t)) x) as [y|] eqn:Hx;
      [|done].
    by eapply apply_entries_compiles.
Qed.

Lemma fill_lines_Ok (templateLines : list jsstring)
    (maths graphies widgets : nat → jsstring)
    (englishLines : list jsstring) (index : nat) (cur : cursors) :
  (index + length englishLines ≤ length templateLines)%nat →
  ∃ newLines,
    fill_lines templateLines maths graphies widgets englishLines index cur
    = Ok newLines.
Proof.
  revert index cur. induction englishLines as [|l ls IH]; intros index cur Hlen.
  - simpl. eauto.
  - simpl in *.
    destruct (lookup_lt_is_Some_2 templateLines index) as [tl Htl]; [lia|].
    rewrite Htl.
    destruct (fill_line maths graphies widgets cur tl) as [line cur'].
    destruct (IH (S index) cur') as [rest ->]; [lia|].
    simpl. eauto.
Qed.

End Populate.

(** ** [JSON.parse] inverts [JSON.stringify] *)

Lemma unhex_hexdigit (n : N) : n < 16 → unhex (hexdigit n) = Some n.
Proof.
  intros H.
  destruct n as [|p]; [done|].
  repeat (destruct p as [p|p|]; try done; try (exfalso; lia)).
Qed.

Lemma hex4_value (c : N) :
  c < 65536 →
  (((c / 4096 mod 16) * 16 + c / 256 mod 16) * 16 + c / 16 mod 16) * 16 + c mod 16 = c.
Proof.
  intros Hc.
  change 4096 with (16 * 16 * 16). change 256 with (16 * 16).
  rewrite <- !N.Div0.div_div.
  pose proof (N.div_mod c 16 ltac:(done)) as H1.
  pose proof (N.mod_lt c 16 ltac:(done)) as L1.
  set (q1 := c / 16) in *. set (r1 := c mod 16) in *.
  pose proof (N.div_mod q1 16 ltac:(done)) as H2.
  pose proof (N.mod_lt q1 16 ltac:(done)) as L2.
  set (q2 := q1 / 16) in *. set (r2 := q1 mod 16) in *.
  pose proof (N.div_mod q2 16 ltac:(done)) as H3.
  pose proof (N.mod_lt q2 16 ltac:(done)) as L3.
  set (q3 := q2 / 16) in *. set (r3 := q2 mod 16) in *.
  assert (q3 < 16) as L4 by lia.
  rewrite (N.mod_small q3 16) by done.
  lia.
Qed.

Lemma parse_chars_raw (c : N) (x : jsstring) :
  c ≠ QUOTE → c ≠ BACKSLASH → 32 ≤ c →
  parse_chars (c :: x) = cons_fst c (parse_chars x).
Proof.
  intros Hq Hb Hc. simpl.
  apply N.eqb_neq in Hq as ->. apply N.eqb_neq in Hb as ->.
  by apply N.ltb_ge in Hc as ->.
Qed.

Lemma parse_chars_u (c : N) (x : jsstring) :
  c < 65536 →
  parse_chars (str "\u" ++ hex4 c ++ x) = cons_fst c (parse_chars x).
Proof.
  intros Hc. unfold hex4.
  change (parse_chars (str "\u" ++ ?l ++ x)) with
    (match l with
     | h1 :: h2 :: h3 :: h4 :: tl2 =>
         match unhex h1, unhex h2, unhex h3, unhex h4 with
         | Some a, Some b, Some c', Some d =>
             cons_fst (((a * 16 + b) * 16 + c') * 16 + d) (parse_chars (tl2 ++ x))
         | _, _, _, _ => None
         end
     | _ => None
     end).
  cbv beta iota.
  rewrite !unhex_hexdigit by (apply N.mod_lt; done).
  by rewrite hex4_value.
Qed.

Lemma parse_chars_unit (c : N) (x : jsstring) :
  parse_chars (quote_unit c ++ x) = cons_fst c (parse_chars x).
Proof.
  unfold quote_unit.
  destruct (N.eqb_spec c 8) as [->|?]; [reflexivity|].
  destruct (N.eqb_spec c 9) as [->|?]; [reflexivity|].
  destruct (N.eqb_spec c 10) as [->|?]; [reflexivity|].
  destruct (N.eqb_spec c 12) as [->|?]; [reflexivity|].
  destruct (N.eqb_spec c 13) as [->|?]; [reflexivity|].
  destruct (N.eqb_spec c QUOTE) as [->|?]; [reflexivity|].
  destruct (N.eqb_spec c BACKSLASH) as [->|?]; [reflexivity|].
  destruct ((c <? 32) || is_surrogate c) eqn:E.
  - rewrite <- app_assoc. apply parse_chars_u.
    apply orb_true_iff in E as [E|E].
    + apply N.ltb_lt in E. lia.
    + unfold is_surrogate in E. apply andb_true_iff in E as [_ E].
      apply N.leb_le in E. lia.
  - apply orb_false_iff in E as [E _]. apply N.ltb_ge in E.
    by apply parse_chars_raw.
Qed.

Lemma parse_chars_pair (c d : N) (x : jsstring) :
  is_high c && is_low d = true →
  parse_chars (c :: d :: x) = cons_fst c (cons_fst d (parse_chars x)).
Proof.
  unfold is_high, is_low. intros H.
  apply andb_true_iff in H as [Hc Hd].
  apply andb_true_iff in Hc as [Hc _]. apply andb_true_iff in Hd as [Hd _].
  apply N.leb_le in Hc, Hd.
  rewrite !parse_chars_raw; unfold QUOTE, BACKSLASH; (done || lia).
Qed.

Lemma parse_chars_quote_body (s rest : jsstring) :
  parse_chars (quote_body s ++ QUOTE :: rest) = Some (s, rest).
Proof.
  remember (length s) as n eqn:Hn. revert s Hn.
  induction n as [n IH] using lt_wf_ind. intros s Hn.
  destruct s as [|c [|d tl]].
  - reflexivity.
  - simpl. rewrite parse_chars_unit. reflexivity.
  - change (quote_body (c :: d :: tl)) with
      (if is_high c && is_low d then c :: d :: quote_body tl
       else quote_unit c ++ quote_body (d :: tl)).
    destruct (is_high c && is_low d) eqn:E.
    + simpl app. rewrite parse_chars_pair by done.
      assert (length tl < n)%nat as Hlt by (subst n; simpl; lia).
      by rewrite (IH _ Hlt tl eq_refl).
    + rewrite <- app_assoc, parse_chars_unit.
      assert (length (d :: tl) < n)%nat as Hlt by (subst n; simpl; lia).
      by rewrite (IH _ Hlt (d :: tl) eq_refl).
Qed.

Lemma parse_string_quote (s rest : jsstring) :
  parse_string (JSON_quote s ++ rest) = Some (s, rest).
Proof.
  unfold JSON_quote. simpl. rewrite <- app_assoc. apply parse_chars_quote_body.
Qed.

Lemma join_cons (sep p : jsstring) (ps : list jsstring) :
  join sep (p :: ps) = p ++ concat ((λ q, sep ++ q) <$> ps).
Proof.
  revert p. induction ps as [|q ps IH]; intros p.
  - simpl. by rewrite app_nil_r.
  - change (join sep (p :: q :: ps)) with (p ++ sep ++ join sep (q :: ps)).
    rewrite IH. simpl. by rewrite <- app_assoc.
Qed.

Lemma parse_elems_ok {A : Type} (elem : jsstring → option (A * jsstring))
    (pr : A → jsstring) (xs : list A) (fuel : nat) (rest : jsstring) :
  (∀ x, x ∈ xs → ∀ r, elem (pr x ++ r) = Some (x, r)) →
  (length xs < fuel)%nat →
  parse_elems elem fuel
    (concat ((λ q, [COMMA] ++ q) <$> (pr <$> xs)) ++ RBRACKET :: rest)
  = Some (xs, rest).
Proof.
  revert fuel. induction xs as [|x xs IH]; intros fuel Helem Hfuel.
  - destruct fuel as [|f]; [simpl in Hfuel; lia|]. reflexivity.
  - destruct fuel as [|f]; [simpl in Hfuel; lia|].
    simpl. rewrite <- app_assoc.
    rewrite Helem by left.
    rewrite IH; [done| |simpl in Hfuel; lia].
    intros y Hy. apply Helem. by right.
Qed.

Lemma parse_array_ok {A : Type} (elem : jsstring → option (A * jsstring))
    (pr : A → jsstring) (xs : list A) (fuel : nat) (rest : jsstring) :
  (∀ x, x ∈ xs → ∀ r, elem (pr x ++ r) = Some (x, r)) →
  (∀ x, x ∈ xs → ∃ c w, pr x = c :: w ∧ c ≠ RBRACKET) →
  (length xs ≤ fuel)%nat →
  parse_array elem fuel (JSON_array (pr <$> xs) ++ rest) = Some (xs, rest).
Proof.
  intros Helem Hhead Hfuel. unfold JSON_array.
  destruct xs as [|x xs]; [reflexivity|].
  rewrite fmap_cons, join_cons.
  destruct (Hhead x) as (c & w & Hx & Hc); [left|].
  pose proof (Helem x ltac:(left)) as Hex. rewrite Hx in Hex.
  rewrite Hx. simpl. simpl in Hex.
  apply N.eqb_neq in Hc as ->.
  rewrite <- !app_assoc. rewrite Hex. simpl.
  rewrite parse_elems_ok; [done| |simpl in Hfuel; lia].
  intros y Hy. apply Helem. by right.
Qed.

Lemma JSON_array_length (ps : list jsstring) :
  (length ps < length (JSON_array ps))%nat.
Proof.
  unfold JSON_array. simpl. rewrite length_app. simpl.
  destruct ps as [|p ps]; [simpl; lia|].
  rewrite join_cons, length_app. 
  assert (length ps ≤ length (concat ((λ q, [COMMA] ++ q) <$> ps)))%nat. 2: { simpl in *. lia. }
  induction ps as [|q ps IH]; csimpl in *; [lia|].
  rewrite length_app. lia.
Qed.

Lemma join_elem_length (sep p : jsstring) (ps : list jsstring) :
  p ∈ ps → (length p ≤ length (join sep ps))%nat.
Proof.
  induction ps as [|q ps IH]; [by intros ?%elem_of_nil|].
  intros [->|Hp]%elem_of_cons.
  - rewrite join_cons, length_app. lia.
  - destruct ps as [|q' ps]; [by apply elem_of_nil in Hp|].
    change (join sep (q :: q' :: ps)) with (q ++ sep ++ join sep (q' :: ps)).
    rewrite !length_app. specialize (IH Hp). lia.
Qed.

Lemma strip_prefix_app (w r : jsstring) : strip_prefix w (w ++ r) = Some r.
Proof.
  unfold strip_prefix. rewrite starts_with_app. by rewrite drop_app_length.
Qed.

Lemma JSON_parse_stringify (o : normalObj) : JSON_parse (JSON_stringify o) = Some o.
Proof.
  destruct o as [v ts]. unfold JSON_parse, JSON_stringify.
  cbn [obj_str obj_texts].
  set (fuel := length _).
  assert (length (JSON_array ((λ t, JSON_array (JSON_quote <$> t)) <$> ts)) ≤ fuel)%nat
    as Hfuel.
  { unfold fuel. rewrite !length_app. lia. }
  rewrite strip_prefix_app. cbv beta iota delta [mbind option_bind].
  rewrite parse_string_quote. cbv beta iota.
  rewrite strip_prefix_app.
  rewrite (parse_array_ok _ (λ t, JSON_array (JSON_quote <$> t))).
  - cbv beta iota. by rewrite decide_True.
  - intros t Ht r. apply parse_array_ok.
    + intros s _ r'. apply parse_string_quote.
    + intros s _. unfold JSON_quote. exists QUOTE. eexists. split; [done|]. done.
    + pose proof (JSON_array_length (JSON_quote <$> t)) as H1.
      rewrite length_fmap in H1.
      pose proof (join_elem_length [COMMA] (JSON_array (JSON_quote <$> t))
                    ((λ t, JSON_array (JSON_quote <$> t)) <$> ts)) as H2.
      assert (length (join [COMMA] ((λ t, JSON_array (JSON_quote <$> t)) <$> ts))
              ≤ fuel)%nat as Hjoin.
      { etrans; [|exact Hfuel]. unfold JSON_array at 2. simpl.
        rewrite length_app. lia. }
      assert (JSON_array (JSON_quote <$> t) ∈
              (λ t, JSON_array (JSON_quote <$> t)) <$> ts) as Hin.
      { apply list_elem_of_fmap. eauto. }
      specialize (H2 Hin). lia.
  - intros t _. unfold JSON_array. exists LBRACKET. eexists. split; [done|]. done.
  - pose proof (JSON_array_length ((λ t, JSON_array (JSON_quote <$> t)) <$> ts)) as H1.
    rewrite length_fmap in H1. lia.
Qed.

(** ** Delimited patterns and the collapse *)

Lemma span_len_app (p : N → bool) (ws r : jsstring) :
  Forall (λ c, p c = true) ws →
  match r with c :: _ => p c = false | [] => True end →
  span_len p (ws ++ r) = length ws.
Proof.
  intros Hws Hr. induction Hws as [|c ws Hc _ IH]; simpl.
  - destruct r as [|c r]; [done|]. simpl. by rewrite Hr.
  - by rewrite Hc, IH.
Qed.

Lemma span_len_take (p : N → bool) (s : jsstring) :
  Forall (λ c, p c = true) (take (span_len p s) s).
Proof.
  induction s as [|c s IH]; simpl; [constructor|].
  destruct (p c) eqn:Hc; simpl; [by constructor|constructor].
Qed.

Lemma delimited_Some (open : jsstring) (p : N → bool) (least : nat)
    (close s : jsstring) (n : nat) :
  delimited open p least close s = Some n →
  ∃ ws r, s = open ++ ws ++ close ++ r ∧ Forall (λ c, p c = true) ws ∧
          (least ≤ length ws)%nat ∧
          n = (length open + length ws + length close)%nat.
Proof.
  unfold delimited. intros H.
  destruct (starts_with open s) eqn:Ho; [|done].
  apply starts_with_inv in Ho as [r0 ->].
  rewrite drop_app_length in H.
  destruct (bool_decide _) eqn:Hleast; [|done].
  destruct (starts_with close _) eqn:Hc; [|done].
  apply bool_decide_eq_true in Hleast.
  apply starts_with_inv in Hc as [r Hr].
  injection H as <-.
  exists (take (span_len p r0) r0), r.
  assert (length (take (span_len p r0) r0) = span_len p r0) as Hlen.
  { apply length_take_le.
    clear. induction r0 as [|c r0 IH]; simpl; [lia|]. destruct (p c); simpl; lia. }
  rewrite Hlen. repeat split; [|apply span_len_take|done].
  by rewrite <- Hr, take_drop.
Qed.

Lemma delimited_hit (open : jsstring) (p : N → bool) (least : nat)
    (c0 : N) (close ws r : jsstring) :
  p c0 = false → Forall (λ c, p c = true) ws → (least ≤ length ws)%nat →
  delimited open p least (c0 :: close) (open ++ ws ++ (c0 :: close) ++ r)
  = Some (length open + length ws + length (c0 :: close))%nat.
Proof.
  intros Hc0 Hws Hleast. unfold delimited.
  rewrite starts_with_app, drop_app_length.
  rewrite span_len_app by done.
  rewrite bool_decide_eq_true_2 by done.
  by rewrite drop_app_length, starts_with_app.
Qed.

(** ** The interpreter and the closed forms *)

Lemma bind_nil {A B : Type} (f : A → list B) : [] ≫= f = [].
Proof. done. Qed.

Lemma head_app {A : Type} (l1 l2 : list A) :
  head (l1 ++ l2) = or_else (head l1) (head l2).
Proof. destruct l1; simpl; [by destruct (head l2)|done]. Qed.

Lemma or_else_assoc {A : Type} (a b c : option A) :
  or_else (or_else a b) c = or_else a (or_else b c).
Proof. by destruct a. Qed.

Lemma fmap_or_else {A B : Type} (f : A → B) (a b : option A) :
  f <$> or_else a b = or_else (f <$> a) (f <$> b).
Proof. by destruct a. Qed.

Lemma ends_Seq (a b : regex) (s : jsstring) :
  ends (a ·· b) s = s' ← ends a s; ends b s'.
Proof. done. Qed.

Lemma ends_Plus (a : regex) (s : jsstring) :
  ends (Plus a) s = s' ← ends a s; star_ends (ends a) (length s') s'.
Proof. done. Qed.

Lemma exec_Lit (w s : jsstring) : exec (Lit w) s = lit_at w s.
Proof.
  unfold exec, lit_at. simpl. destruct (starts_with w s) eqn:E; [|done].
  apply starts_with_inv in E as [r ->]. simpl.
  rewrite drop_app_length, length_app. f_equal. lia.
Qed.

Lemma star_one_unit (p : N → bool) (fuel : nat) (s : jsstring) :
  (length s ≤ fuel)%nat → star_ends (one_unit p) fuel s = runs p s.
Proof.
  revert fuel. induction s as [|c tl IH]; intros [|f] Hf; simpl in *; try done; try lia.
  destruct (p c); [|done]. simpl.
  rewrite bool_decide_eq_true_2 by lia. rewrite app_nil_r.
  rewrite IH by lia. done.
Qed.

Lemma runs_close (p : N → bool) (c0 : N) (close r : jsstring) :
  p c0 = false →
  (s' ← runs p r; ends (Lit (c0 :: close)) s')
  = if starts_with (c0 :: close) (drop (span_len p r) r)
    then [drop (span_len p r + length (c0 :: close)) r] else [].
Proof.
  intros Hc0. induction r as [|c tl IH].
  - simpl. done.
  - cbn [runs span_len]. destruct (p c) eqn:Hc.
    + rewrite bind_app, IH. cbn [mbind list_bind ends].
      assert (starts_with (c0 :: close) (c :: tl) = false) as ->.
      { simpl. destruct (N.eqb_spec c0 c) as [->|]; [congruence|done]. }
      rewrite !app_nil_r. done.
    + cbn [mbind list_bind]. rewrite app_nil_r. simpl. done.
Qed.

Lemma star_ends_ext (step step' : jsstring → list jsstring) (fuel : nat) (s : jsstring) :
  (∀ s, step s = step' s) → star_ends step fuel s = star_ends step' fuel s.
Proof.
  intros H. revert s. induction fuel as [|f IH]; intros s; simpl; [done|].
  rewrite H. f_equal. apply list_bind_ext; [|done]. intros s'.
  by destruct (bool_decide _).
Qed.

Lemma span_len_le (p : N → bool) (s : jsstring) : (span_len p s ≤ length s)%nat.
Proof. induction s as [|c s IH]; simpl; [lia|]. destruct (p c); simpl; lia. Qed.

Lemma starts_with_length (w s : jsstring) :
  starts_with w s = true → (length w ≤ length s)%nat.
Proof. intros [r ->]%starts_with_inv. rewrite length_app. lia. Qed.

(** A pattern of the form: literal, run of one class, literal. *)
Lemma exec_delimited_star (a : regex) (p : N → bool) (open : jsstring) (c0 : N)
    (close s : jsstring) :
  (∀ s, ends a s = one_unit p s) → p c0 = false →
  exec (Lit open ·· Star a ·· Lit (c0 :: close)) s
  = delimited open p 0 (c0 :: close) s.
Proof.
  intros Ha Hc0. unfold exec, delimited. cbn [ends].
  destruct (starts_with open s) eqn:Ho; [|done].
  cbn [mbind list_bind]. rewrite app_nil_r.
  rewrite (star_ends_ext _ (one_unit p)) by done.
  rewrite star_one_unit by done.
  fold (ends (Lit (c0 :: close))).
  change (list_bind _ _ (ends (Lit (c0 :: close))) (runs p (drop (length open) s)))
    with (s' ← runs p (drop (length open) s); ends (Lit (c0 :: close)) s').
  rewrite runs_close by done.
  rewrite bool_decide_eq_true_2 by lia. cbn [andb].
  destruct (starts_with _ (drop (span_len _ _) _)) eqn:Hc; [|done].
  rewrite drop_drop. cbn [head fmap option_fmap option_map].
  f_equal. rewrite length_drop.
  apply starts_with_length in Ho, Hc. rewrite !length_drop in Hc.
  pose proof (span_len_le p (drop (length open) s)) as Hn. rewrite length_drop in Hn.
  simpl in *. lia.
Qed.

Lemma exec_delimited_plus (a : regex) (p : N → bool) (open : jsstring) (c0 : N)
    (close s : jsstring) :
  (∀ s, ends a s = one_unit p s) → p c0 = false →
  exec (Lit open ·· Plus a ·· Lit (c0 :: close)) s
  = delimited open p 1 (c0 :: close) s.
Proof.
  intros Ha Hc0. unfold exec, delimited. cbn [ends].
  destruct (starts_with open s) eqn:Ho; [|done].
  apply starts_with_inv in Ho as [r ->]. rewrite drop_app_length.
  cbn [mbind list_bind]. rewrite app_nil_r. rewrite Ha.
  destruct r as [|c tl]; [done|]. cbn [one_unit span_len].
  destruct (p c) eqn:Hc; [|done].
  rewrite bind_singleton.
  rewrite (star_ends_ext _ (one_unit p)) by done.
  rewrite star_one_unit by done.
  fold (ends (Lit (c0 :: close))).
  rewrite runs_close by done.
  rewrite bool_decide_eq_true_2 by lia. cbn [andb drop].
  destruct (starts_with _ (drop (span_len _ _) _)) eqn:Hcl; [|done].
  cbn [head fmap option_fmap option_map].
  f_equal. rewrite length_drop, length_app.
  apply starts_with_length in Hcl. rewrite !length_drop in Hcl.
  pose proof (span_len_le p tl) as Hn.
  simpl in *. lia.
Qed.

(** The ways to go once round the loop of [MATH_REGEX], in order. *)
Lemma ends_MATH_STEP (c : N) (tl : jsstring) :
  ends MATH_STEP (c :: tl)
  = (if (c =? BACKSLASH) && starts_with [DOLLAR] tl then [drop 1 tl] else [])
    ++ (if c =? DOLLAR then [] else [tl]).
Proof.
  cbn [ends MATH_STEP starts_with one_unit member existsb length drop].
  rewrite (N.eqb_sym BACKSLASH c), orb_false_r.
  by destruct (c =? DOLLAR).
Qed.

(** The first way to finish the loop and match the closing dollar. *)
Lemma math_loop_head (fuel : nat) (r : jsstring) :
  (length r ≤ fuel)%nat →
  head (s' ← star_ends (ends MATH_STEP) fuel r; ends (Lit [DOLLAR]) s')
  = (λ n, drop n r) <$> math_tail r.
Proof.
  revert r. induction fuel as [fuel IH] using lt_wf_ind. intros r Hfuel.
  destruct r as [|c tl].
  - destruct fuel; cbn [star_ends ends MATH_STEP starts_with one_unit app].
    + by rewrite bind_singleton.
    + rewrite bind_nil. cbn [app]. by rewrite bind_singleton.
  - destruct fuel as [|f]; [simpl in Hfuel; lia|].
    cbn [star_ends]. rewrite ends_MATH_STEP.
    rewrite !bind_app, !head_app.
    cbn [math_tail]. rewrite or_else_assoc, !fmap_or_else.
    (* the three ways, in order *)
    f_equal; [|f_equal].
    + (* the escaped dollar *)
      destruct tl as [|d tl']; [by rewrite andb_false_r|].
      cbn [starts_with]. rewrite (N.eqb_sym DOLLAR d), andb_true_r.
      destruct ((c =? BACKSLASH) && (d =? DOLLAR)); [|by rewrite !bind_nil].
      rewrite !bind_singleton. cbn [drop length]. rewrite drop_0.
      rewrite bool_decide_eq_true_2 by lia.
      rewrite (IH f) by (simpl in *; lia).
      by destruct (math_tail tl').
    + (* one unit other than a dollar *)
      destruct (c =? DOLLAR); [by rewrite !bind_nil|].
      rewrite !bind_singleton. cbn [length].
      rewrite bool_decide_eq_true_2 by lia.
      rewrite (IH f) by (simpl in *; lia).
      by destruct (math_tail tl).
    + (* the closing dollar *)
      rewrite bind_singleton. cbn [ends starts_with]. rewrite andb_true_r.
      rewrite (N.eqb_sym DOLLAR c). by destruct (c =? DOLLAR).
Qed.

Lemma math_tail_le (r : jsstring) (n : nat) :
  math_tail r = Some n → (n ≤ length r)%nat.
Proof.
  revert n. induction r as [r IH] using (induction_ltof1 _ length).
  unfold ltof in IH. intros n. destruct r as [|c tl]; [done|].
  cbn [math_tail length].
  destruct tl as [|d tl'].
  - cbn [or_else math_tail fmap option_fmap option_map].
    destruct (c =? DOLLAR); cbn [or_else]; intros [= <-]; lia.
  - destruct ((c =? BACKSLASH) && (d =? DOLLAR)).
    + destruct (math_tail tl') as [m|] eqn:E.
      { cbn [fmap option_fmap option_map or_else]. intros [= <-].
        apply IH in E; simpl in *; lia. }
      cbn [fmap option_fmap option_map or_else].
      destruct (c =? DOLLAR).
      { cbn [or_else]. intros [= <-]. lia. }
      destruct (math_tail (d :: tl')) as [m|] eqn:E'; [|done].
      cbn [fmap option_fmap option_map or_else]. intros [= <-].
      apply IH in E'; simpl in *; lia.
    + cbn [or_else]. destruct (c =? DOLLAR).
      { cbn [or_else]. intros [= <-]. lia. }
      destruct (math_tail (d :: tl')) as [m|] eqn:E'; [|done].
      cbn [fmap option_fmap option_map or_else]. intros [= <-].
      apply IH in E'; simpl in *; lia.
Qed.

Lemma math_loop_length (k : nat) (r : jsstring) :
  (λ rest, k + length r - length rest)%nat
    <$> head (s' ← star_ends (ends MATH_STEP) (length r) r; ends (Lit [DOLLAR]) s')
  = (λ n, k + n)%nat <$> math_tail r.
Proof.
  rewrite math_loop_head by done.
  destruct (math_tail r) as [n|] eqn:E; [|done].
  apply math_tail_le in E. cbn [fmap option_fmap option_map].
  rewrite length_drop. f_equal. lia.
Qed.

Lemma exec_MATH (s : jsstring) :
  exec (Lit [DOLLAR] ·· Plus MATH_STEP ·· Lit [DOLLAR]) s = math_at s.
Proof.
  unfold exec, math_at. rewrite ends_Seq.
  destruct s as [|c r]; [done|].
  change (ends (Lit [DOLLAR]) (c :: r))
    with (if (DOLLAR =? c) && true then [drop 0 r] else []).
  rewrite (N.eqb_sym DOLLAR c), andb_true_r.
  destruct (c =? DOLLAR); [|by destruct r].
  rewrite bind_singleton, drop_0, ends_Seq, ends_Plus.
  destruct r as [|d tl]; [done|]. cbn [andb].
  rewrite ends_MATH_STEP, !bind_app, head_app, fmap_or_else.
  cbn [math_tail].
  destruct (N.eqb_spec d DOLLAR) as [->|Hd]; cbn [negb]; [done|].
  rewrite !fmap_or_else. cbn [fmap option_fmap option_map].
  rewrite bind_singleton.
  change (length (c :: d :: tl)) with (2 + length tl)%nat.
  rewrite math_loop_length.
  destruct tl as [|e tl'].
  { rewrite andb_false_r. done. }
  cbn [starts_with]. rewrite (N.eqb_sym DOLLAR e), andb_true_r.
  destruct ((d =? BACKSLASH) && (e =? DOLLAR)).
  - rewrite bind_singleton. cbn [drop]. rewrite drop_0.
    change (2 + length (e :: tl'))%nat with (3 + length tl')%nat.
    rewrite math_loop_length.
    destruct (math_tail tl'), (math_tail (e :: tl')); done.
  - rewrite !bind_nil. by destruct (math_tail (e :: tl')).
Qed.

Lemma ends_NotClass_1 (x : N) (s : jsstring) :
  ends (NotClass [x]) s = one_unit (λ c, negb (c =? x)) s.
Proof. destruct s as [|c tl]; [done|]. cbn. by rewrite orb_false_r. Qed.

Lemma ends_Class_tab_or_space (s : jsstring) :
  ends (Class [TAB; SPACE]) s = one_unit tab_or_space s.
Proof.
  destruct s as [|c tl]; [done|]. cbn. unfold tab_or_space.
  by rewrite orb_false_r.
Qed.

Lemma MATH_REGEX_closed (s : jsstring) : MATH_REGEX s = math_at s.
Proof. apply exec_MATH. Qed.

Lemma GRAPHIE_REGEX_closed (s : jsstring) :
  GRAPHIE_REGEX s = delimited (str "![](") (λ c, negb (c =? RPAREN)) 1 [RPAREN] s.
Proof.
  apply exec_delimited_plus; [apply ends_NotClass_1|].
  apply negb_false_iff, N.eqb_refl.
Qed.

Lemma ends_Lit_Class {A : Type} (w : jsstring) (x : N) (k : jsstring → list A)
    (s : jsstring) :
  (s' ← ends (Lit w) s; s'' ← ends (Class [x]) s'; k s'')
  = s' ← ends (Lit (w ++ [x])) s; k s'.
Proof.
  revert s. induction w as [|a w IH]; intros s.
  - destruct s as [|c tl]; [done|].
    cbn [ends starts_with app length]. rewrite drop_0, bind_singleton.
    cbn [one_unit member existsb]. rewrite orb_false_r, andb_true_r, (N.eqb_sym x c).
    by destruct (c =? x).
  - destruct s as [|c tl]; [done|].
    specialize (IH tl). cbn [ends starts_with app length drop] in *.
    by destruct (a =? c).
Qed.

Lemma WIDGET_REGEX_closed (s : jsstring) :
  WIDGET_REGEX s
  = delimited (str "[[" ++ [SNOWMAN]) (λ c, negb (c =? RBRACKET)) 1
      [RBRACKET; RBRACKET] s.
Proof.
  rewrite <- (exec_delimited_plus (NotClass [RBRACKET]));
    [|apply ends_NotClass_1|apply negb_false_iff, N.eqb_refl].
  unfold WIDGET_REGEX, exec. f_equal. f_equal.
  rewrite !ends_Seq. apply ends_Lit_Class.
Qed.

Lemma TEXT_REGEX_closed (s : jsstring) :
  TEXT_REGEX s = delimited TEXT_OPEN (λ c, negb (c =? RBRACE)) 0 [RBRACE] s.
Proof.
  apply exec_delimited_star; [apply ends_NotClass_1|].
  apply negb_false_iff, N.eqb_refl.
Qed.

Lemma MATH_WIDGET_REGEX_closed (s : jsstring) :
  MATH_WIDGET_REGEX s = delimited MATH_PH tab_or_space 0 WIDGET_PH s.
Proof. by apply exec_delimited_star; [apply ends_Class_tab_or_space|]. Qed.

Lemma replace_hit (m : matcher) (rep s : jsstring) (n : nat) :
  m s = Some n → (0 < n ≤ length s)%nat →
  js_replace m rep s = rep ++ js_replace m rep (drop n s).
Proof.
  intros H Hn. destruct s as [|c tl]; [simpl in Hn; lia|].
  destruct n as [|k]; [lia|].
  unfold js_replace, js_replace_fn. by rewrite (tokens_hit _ _ _ k).
Qed.

Lemma replace_miss (m : matcher) (rep : jsstring) (c : N) (tl : jsstring) :
  m (c :: tl) = None →
  js_replace m rep (c :: tl) = c :: js_replace m rep tl.
Proof.
  intros H. unfold js_replace, js_replace_fn. by rewrite tokens_miss.
Qed.

Lemma tab_or_space_underscore : tab_or_space 95 = false.
Proof. reflexivity. Qed.

(** Where a math placeholder is followed by tabs and spaces only (maybe by
    none) and then by the widget placeholder, the collapse applies. *)
Lemma collapse_hit (ws rest : jsstring) :
  Forall (λ c, tab_or_space c = true) ws →
  collapse (MATH_PH ++ ws ++ WIDGET_PH ++ rest)
  = str "__MATH__ __WIDGET__" ++ collapse rest.
Proof.
  intros Hws. unfold collapse.
  rewrite (replace_hit _ _ _ (length MATH_PH + length ws + length WIDGET_PH)).
  - f_equal. f_equal.
    rewrite !app_assoc, <- (app_assoc MATH_PH).
    rewrite <- !length_app. rewrite <- app_assoc. by rewrite drop_app_length.
  - rewrite MATH_WIDGET_REGEX_closed.
    apply (delimited_hit MATH_PH tab_or_space 0 95 (str "_WIDGET__")); [done..|lia].
  - rewrite !length_app. simpl. lia.
Qed.

(** Elsewhere it leaves the code unit alone. *)
Lemma collapse_miss (c : N) (rest : jsstring) :
  (¬ ∃ ws r, Forall (λ c, tab_or_space c = true) ws ∧
             c :: rest = MATH_PH ++ ws ++ WIDGET_PH ++ r) →
  collapse (c :: rest) = c :: collapse rest.
Proof.
  intros Hno. unfold collapse. apply replace_miss.
  destruct (MATH_WIDGET_REGEX (c :: rest)) as [n|] eqn:E; [|done].
  exfalso. apply Hno. rewrite MATH_WIDGET_REGEX_closed in E.
  apply delimited_Some in E as (ws & r & Hs & Hws & _). eauto.
Qed.

(** ** No [\text] block, no dictionary *)

Lemma blocks_skip_app (u : jsstring) (ws : list jsstring) (s : jsstring) :
  blocks ws s → blocks ws (u ++ s).
Proof. intros H. induction u as [|c u IH]; [done|]. by constructor. Qed.

Lemma blocks_sublist (ws ws' : list jsstring) (s : jsstring) :
  blocks ws s → ws' `sublist_of` ws → blocks ws' s.
Proof.
  intros H. revert ws'. induction H as [s|c ws s _ IH|w ws s _ IH]; intros ws' Hsub.
  - apply sublist_nil_r in Hsub as ->. constructor.
  - constructor. by apply IH.
  - inversion Hsub as [| x l1 l2 Hsub' | x l1 l2 Hsub']; subst.
    + constructor. by apply IH.
    + apply blocks_skip_app. by apply IH.
Qed.

Lemma blocks_scan (m : matcher) (s : jsstring) : blocks (js_match m s) s.
Proof.
  unfold js_match, tokens.
  remember (length s) as n eqn:Hn. revert s Hn.
  induction n as [n IH] using lt_wf_ind. intros s Hn.
  destruct s as [|c tl]; [constructor|].
  simpl. destruct (m (c :: tl)) as [[|k]|] eqn:E; simpl.
  - constructor. apply (IH (length tl)); [subst; simpl; lia|done].
  - rewrite scan_skip.
    assert (blocks (hits (scan m 0 (drop k tl))) (drop k tl)) as H.
    { apply (IH (length (drop k tl))); [|done].
      subst. rewrite length_drop. simpl. lia. }
    apply (blocks_here (c :: take k tl)) in H.
    simpl in H. by rewrite take_drop in H.
  - constructor. apply (IH (length tl)); [subst; simpl; lia|done].
Qed.

Lemma blocks_elem (ws : list jsstring) (s w : jsstring) (c : N) :
  blocks ws s → w ∈ ws → c ∈ w → c ∈ s.
Proof.
  intros H Hw Hc. induction H as [s|c' ws s _ IH|w' ws s _ IH].
  - by apply elem_of_nil in Hw.
  - right. by apply IH.
  - apply elem_of_app. apply elem_of_cons in Hw as [->|Hw]; [by left|].
    right. by apply IH.
Qed.

Lemma has_block_app_l (u s : jsstring) : has_block s → has_block (u ++ s).
Proof.
  intros (x & y & -> & Hy). exists (u ++ x), y. by rewrite <- app_assoc.
Qed.

Lemma has_block_app_r (s u : jsstring) : has_block s → has_block (s ++ u).
Proof.
  intros (x & y & -> & Hy). exists x, (y ++ u).
  split; [by rewrite <- !app_assoc|]. apply elem_of_app. by left.
Qed.

Lemma comma_not_in_TEXT_OPEN : COMMA ∉ TEXT_OPEN.
Proof. vm_compute. intros H. repeat (apply elem_of_cons in H as [H|H]; [done|]).
  by apply elem_of_nil in H. Qed.

Lemma has_block_app_inv (w J : jsstring) :
  has_block (w ++ J) →
  (J = [] ∨ ∃ J', J = COMMA :: J') →
  has_block w ∨ has_block J ∨
  (∃ x w3, w = x ++ TEXT_OPEN ++ w3 ∧ RBRACE ∈ J).
Proof.
  intros (x & y & Heq & Hy) HJ.
  symmetry in Heq. apply app_eq_app in Heq as [l [[-> ->]|[-> Heq]]].
  - right. left. by exists l, y.
  - apply app_eq_app in Heq as [l' [[Ho ->]|[-> ->]]].
    + destruct l' as [|c l'].
      * rewrite app_nil_r in Ho. subst l. simpl in Hy.
        right. right. exists x, []. by rewrite app_nil_r.
      * destruct HJ as [HJ|[J' HJ]]; simpl in HJ; [done|].
        injection HJ as -> _. exfalso. apply comma_not_in_TEXT_OPEN.
        rewrite Ho. apply elem_of_app. right. by left.
    + apply elem_of_app in Hy as [Hy|Hy].
      * left. by exists x, l'.
      * right. right. by exists x, l'.
Qed.

Lemma elem_of_join (c : N) (ms : list jsstring) :
  c ∈ join [COMMA] ms → c ≠ COMMA → ∃ m, m ∈ ms ∧ c ∈ m.
Proof.
  intros H Hc. induction ms as [|m ms IH]; [by apply elem_of_nil in H|].
  destruct ms as [|q ps].
  - exists m. split; [by left|done].
  - change (join [COMMA] (m :: q :: ps)) with (m ++ COMMA :: join [COMMA] (q :: ps)) in H.
    apply elem_of_app in H as [H|H].
    + exists m. split; [by left|done].
    + apply elem_of_cons in H as [->|H]; [done|].
      destruct (IH H) as (m' & Hm' & Hcm'). exists m'. split; [by right|done].
Qed.

Lemma has_block_join (ms : list jsstring) (s : jsstring) :
  blocks ms s → has_block (join [COMMA] ms) → has_block s.
Proof.
  intros H. induction H as [s|c ms s _ IH|w ms s Hms IH]; intros Hj.
  - by destruct Hj as ([|? ?] & y & ? & _).
  - apply (has_block_app_l [c]). by apply IH.
  - destruct ms as [|q ps].
    + by apply has_block_app_r.
    + change (join [COMMA] (w :: q :: ps))
        with (w ++ COMMA :: join [COMMA] (q :: ps)) in Hj.
      apply has_block_app_inv in Hj as [Hw|[HJ|(x & w3 & -> & Hb)]]; [| | |eauto].
      * by apply has_block_app_r.
      * apply has_block_app_l, IH.
        destruct HJ as (x & y & Heq & Hy).
        destruct x as [|c x]; [done|].
        injection Heq as _ Heq. by exists x, y.
      * apply elem_of_cons in Hb as [|Hb]; [done|].
        apply elem_of_join in Hb as (m & Hm & Hbm); [|done].
        exists x, (w3 ++ s). split; [by rewrite <- !app_assoc|].
        apply elem_of_app. right. by eapply blocks_elem.
Qed.

(** A scan finds an occurrence exactly when the pattern matches somewhere. *)
Lemma scan_finds (m : matcher) (x t : jsstring) (k : nat) :
  m t = Some (S k) → t ≠ [] → js_match m (x ++ t) ≠ [].
Proof.
  intros Hm Ht. unfold js_match. induction x as [|c x IH].
  - destruct t as [|c tl]; [done|]. simpl. by rewrite (tokens_hit _ _ _ k).
  - simpl. destruct (m (c :: x ++ t)) as [[|k']|] eqn:E.
    + unfold tokens. simpl. by rewrite E.
    + by rewrite (tokens_hit _ _ _ k').
    + by rewrite tokens_miss.
Qed.

Lemma scan_found (m : matcher) (s : jsstring) :
  js_match m s ≠ [] → ∃ x t k, s = x ++ t ∧ m t = Some (S k).
Proof.
  unfold js_match.
  remember (length s) as n eqn:Hn. revert s Hn.
  induction n as [n IH] using lt_wf_ind. intros s Hn H.
  destruct s as [|c tl]; [done|].
  destruct (m (c :: tl)) as [[|k]|] eqn:E.
  - unfold tokens in H. simpl in H. rewrite E in H. simpl in H.
    destruct (IH (length tl) ltac:(subst; simpl; lia) tl eq_refl H)
      as (x & t & k & -> & Hm).
    by exists (c :: x), t, k.
  - by exists [], (c :: tl), k.
  - rewrite tokens_miss in H by done. simpl in H.
    destruct (IH (length tl) ltac:(subst; simpl; lia) tl eq_refl H)
      as (x & t & k & -> & Hm).
    by exists (c :: x), t, k.
Qed.

Lemma text_match_iff (s : jsstring) : js_match TEXT_REGEX s ≠ [] ↔ has_block s.
Proof.
  split.
  - intros H. apply scan_found in H as (x & t & k & -> & Hm).
    rewrite TEXT_REGEX_closed in Hm.
    apply delimited_Some in Hm as (ws & r & -> & _).
    exists x, (ws ++ [RBRACE] ++ r). split; [done|].
    apply elem_of_app. right. by left.
  - intros (x & y & -> & Hy).
    apply list_elem_of_split_l in Hy as (ws & r & -> & Hws).
    apply (scan_finds _ _ _ (length TEXT_OPEN + length ws)); [|done].
    replace (S (length TEXT_OPEN + length ws))
      with (length TEXT_OPEN + length ws + length [RBRACE])%nat by (simpl; lia).
    rewrite TEXT_REGEX_closed.
    apply (delimited_hit TEXT_OPEN _ 0 RBRACE [] ws r); [done| |lia].
    apply Forall_forall. intros c Hc.
    apply negb_true_iff, N.eqb_neq. by intros ->.
Qed.

Lemma get_own_app {V : Type} (o o' : object V) (k : jsstring) :
  get_own (o ++ o') k = or_else (get_own o k) (get_own o' k).
Proof.
  induction o as [|[k' v] o IH]; simpl; [by destruct (get_own o' k)|].
  by destruct (decide (k' = k)).
Qed.

Lemma has_own_get_own {V : Type} (o : object V) (k : jsstring) :
  has_own o k = false → get_own o k = None.
Proof.
  induction o as [|[k' v] o IH]; simpl; [done|].
  intros [Hk Ho]%orb_false_iff. apply bool_decide_eq_false in Hk. simpl in Hk.
  destruct (decide (k' = k)); [done|]. by apply IH.
Qed.

Lemma get_own_update {V : Type} (o : object V) (k k' : jsstring) (v : V) :
  get_own ((λ kv, if decide (kv.1 = k) then (k, v) else kv) <$> o) k'
  = if decide (k = k') then (if has_own o k then Some v else None)
    else get_own o k'.
Proof.
  induction o as [|[k0 v0] o IH]; [by destruct (decide (k = k'))|].
  rewrite fmap_cons. cbn [get_own has_own existsb fst].
  destruct (decide (k0 = k)) as [->|Hne].
  - rewrite bool_decide_eq_true_2 by done. simpl.
    destruct (decide (k = k')); [done|]. rewrite IH.
    by destruct (decide (k = k')).
  - rewrite bool_decide_eq_false_2 by done. simpl.
    destruct (decide (k0 = k')) as [->|Hne'].
    + by destruct (decide (k = k')); [congruence|].
    + rewrite IH. by destruct (decide (k = k')).
Qed.

(** Reading a property after an assignment. *)
Lemma get_own_assign {V : Type} (o : object V) (k k' : jsstring) (v : V) :
  get_own (assign o k v) k'
  = if decide (k = PROTO) then get_own o k'
    else if decide (k = k') then Some v else get_own o k'.
Proof.
  unfold assign. destruct (decide (k = PROTO)); [done|].
  destruct (has_own o k) eqn:Hown.
  - rewrite get_own_update, Hown. done.
  - rewrite get_own_app. simpl.
    destruct (decide (k = k')) as [->|].
    + by rewrite has_own_get_own.
    + by destruct (get_own o k').
Qed.

(** Every group of formulas is a subsequence of the formulas. *)
Lemma group_by_normalized_sublist (maths : list jsstring) (key : jsstring)
    (xs : list jsstring) :
  get_own (group_by_normalized maths) key = Some xs → xs `sublist_of` maths.
Proof.
  unfold group_by_normalized.
  assert (∀ (acc : object (list jsstring)) (seen : list jsstring),
            (∀ key xs, get_own acc key = Some xs → xs `sublist_of` seen) →
            ∀ key xs,
              get_own
                (foldl (λ map x,
                          let normalized := js_replace TEXT_REGEX TEXT_PH x in
                          match get_own map normalized with
                          | Some xs => assign map normalized (xs ++ [x])
                          | None => assign map normalized [x]
                          end) acc maths) key = Some xs →
              xs `sublist_of` seen ++ maths) as Hgen.
  { induction maths as [|x maths IH]; intros acc seen Hacc key' xs' H.
    - rewrite app_nil_r. by eapply Hacc.
    - simpl in H. rewrite (cons_middle x), app_assoc.
      eapply IH; [|exact H]. clear H key' xs'. intros key' xs' H.
      destruct (get_own acc (js_replace TEXT_REGEX TEXT_PH x)) as [ys|] eqn:Hys;
        rewrite get_own_assign in H.
      + destruct (decide (_ = PROTO)).
        { apply sublist_inserts_r. by eapply Hacc. }
        destruct (decide (_ = key')).
        * injection H as <-. apply sublist_app; [by eapply Hacc|done].
        * apply sublist_inserts_r. by eapply Hacc.
      + destruct (decide (_ = PROTO)).
        { apply sublist_inserts_r. by eapply Hacc. }
        destruct (decide (_ = key')).
        * injection H as <-. by apply sublist_inserts_l.
        * apply sublist_inserts_r. by eapply Hacc. }
  intros H. by apply (Hgen [] [] ltac:(done) key xs).
Qed.

(** When the English string holds no [\text] block, the dictionary is empty. *)
Lemma getMathDictionary_no_text (englishStr translatedStr : jsstring) :
  js_match TEXT_REGEX englishStr = [] →
  getMathDictionary englishStr translatedStr = [].
Proof.
  intros Hno. unfold getMathDictionary.
  set (inputMap := group_by_normalized (js_match MATH_REGEX englishStr)).
  set (outputMap := group_by_normalized (js_match MATH_REGEX translatedStr)).
  assert (∀ key input, get_own inputMap key = Some input →
                       texts_object input = []) as Hempty.
  { intros key input Hin. unfold texts_object, allMatches_text.
    destruct (js_match TEXT_REGEX (Array_toString input)) as [|w ws] eqn:E; [done|].
    exfalso.
    assert (has_block englishStr) as Hb.
    { apply (has_block_join input).
      - eapply blocks_sublist; [apply (blocks_scan MATH_REGEX)|].
        by eapply group_by_normalized_sublist.
      - apply text_match_iff. unfold Array_toString in E. by rewrite E. }
    apply text_match_iff in Hb. done. }
  induction (keys inputMap) as [|key ks IH] using rev_ind; [done|].
  rewrite foldl_app. simpl. rewrite IH.
  destruct (includes TEXT_PH key); [|done].
  destruct (get_own inputMap key) as [input|] eqn:Hin; [|done].
  destruct (get_own outputMap key) as [output|]; [|done].
  by rewrite (Hempty _ _ Hin).
Qed.

(** ** Filling the placeholders *)

Lemma fill_tokens_ext (f g : nat → jsstring) (index : nat) (ts : list token) :
  (∀ i, f i = g i) → fill_tokens f index ts = fill_tokens g index ts.
Proof.
  intros Hfg. revert index. induction ts as [|[c|w] ts IH]; intros index; simpl.
  - done.
  - by rewrite IH.
  - by rewrite IH, Hfg.
Qed.

Lemma fill_line_ext (m m' g g' w w' : nat → jsstring) (cur : cursors)
    (templateLine : jsstring) :
  (∀ i, m i = m' i) → (∀ i, g i = g' i) → (∀ i, w i = w' i) →
  fill_line m g w cur templateLine = fill_line m' g' w' cur templateLine.
Proof.
  intros Hm Hg Hw. unfold fill_line, fill.
  rewrite (fill_tokens_ext m m') by done.
  destruct (fill_tokens m' _ _) as [l1 mi].
  rewrite (fill_tokens_ext g g') by done.
  destruct (fill_tokens g' _ _) as [l2 gi].
  by rewrite (fill_tokens_ext w w') by done.
Qed.

(** The result depends on the supplies through their values only, and on
    the English lines through their number only. *)
Lemma fill_lines_ext (templateLines : list jsstring)
    (m m' g g' w w' : nat → jsstring) (englishLines englishLines' : list jsstring)
    (index : nat) (cur : cursors) :
  (∀ i, m i = m' i) → (∀ i, g i = g' i) → (∀ i, w i = w' i) →
  length englishLines = length englishLines' →
  fill_lines templateLines m g w englishLines index cur
  = fill_lines templateLines m' g' w' englishLines' index cur.
Proof.
  intros Hm Hg Hw. revert englishLines' index cur.
  induction englishLines as [|l ls IH]; intros [|l' ls'] index cur Hlen;
    try done.
  simpl. destruct (templateLines !! index) as [templateLine|]; [|done].
  rewrite (fill_line_ext m m' g g' w w') by done.
  destruct (fill_line m' g' w' cur templateLine) as [line cur'].
  rewrite (IH ls'); [done|]. simpl in Hlen. lia.
Qed.

(** What the callback of [populateTemplate] yields for the [i]-th
    placeholder is the [i]-th translated occurrence, when the mapping sends
    each translated occurrence to an English occurrence that equals it. *)
Lemma pick_supply (f : jsstring → jsstring) (inputs outputs : list jsstring)
    (mapping : list nat) (i : nat) :
  Forall2 (λ output e, indexOf inputs output = Some e) outputs mapping →
  pick (f <$> inputs) mapping i = supply (f <$> outputs) i.
Proof.
  intros Hmap. unfold pick, supply. rewrite !list_lookup_fmap.
  destruct (outputs !! i) as [output|] eqn:Hout.
  - destruct (Forall2_lookup_l _ _ _ _ _ Hmap Hout) as (e & -> & Hidx).
    apply indexOf_Some in Hidx as [Hidx _]. simpl.
    by rewrite list_lookup_fmap, Hidx.
  - assert (mapping !! i = None) as ->; [|done].
    apply lookup_ge_None. rewrite <- (Forall2_length _ _ _ Hmap).
    by apply lookup_ge_None.
Qed.

Lemma map_completion_pure {A B : Type} (f : A → B) (xs : list A) :
  map_completion (λ x, Ok (f x)) xs = Ok (f <$> xs).
Proof. induction xs as [|x xs IH]; simpl; [done|]. by rewrite IH. Qed.

(** ** Failures of [getMapping] *)

Section MappingFailures.

Context `{engine : RegExpEngine}.

(** Once the English occurrences are there, the only failure is the
    mismatch of the kind, and it happens exactly when some translated
    occurrence equals none of them. *)
Lemma getMapping_mismatch (englishStr translatedStr : jsstring)
    (lang : option jsstring) (k : kind) (dict : option dictionary)
    (inputs : list jsstring) (e : exn) :
  mapping_inputs englishStr k dict = Ok inputs →
  getMapping englishStr translatedStr lang k dict = Throw e ↔
  e = mismatch k ∧
  ∃ output, output ∈ mapping_outputs translatedStr lang k ∧ output ∉ inputs.
Proof.
  intros Hin. unfold getMapping. rewrite Hin. simpl.
  rewrite map_completion_Throw. split.
  - intros (i & output & Hi & Hf & _).
    destruct (indexOf inputs output) eqn:Hidx; [done|].
    injection Hf as <-. split; [done|]. exists output. split.
    + by eapply list_elem_of_lookup_2.
    + by apply indexOf_None.
  - intros [-> (output & Hout & Hnot)].
    assert (∃ i, mapping_outputs translatedStr lang k !! i = Some output ∧
                 indexOf inputs output = None) as Hex.
    { apply list_elem_of_lookup in Hout as [i Hi]. exists i. split; [done|].
      by apply indexOf_None. }
    clear Hout Hnot.
    induction (mapping_outputs translatedStr lang k) as [|o os IH].
    + by destruct Hex as (i & Hi & _).
    + destruct (indexOf inputs o) as [e0|] eqn:Hidx.
      * destruct Hex as ([|i] & Hi & Hnone); simpl in Hi.
        -- congruence.
        -- destruct IH as (j & o' & Hj & Hf & Hbefore); [eauto|].
           exists (S j), o'. repeat split; [done..|].
           intros [|j'] x' Hlt Hx'; simpl in Hx'.
           ++ injection Hx' as <-. rewrite Hidx. eauto.
           ++ apply (Hbefore j'); [lia|done].
      * exists O, o. repeat split; [by rewrite Hidx|]. intros; lia.
Qed.

(** Graphies and widgets are looked up as they are. *)
Lemma mapping_inputs_raw (englishStr : jsstring) (k : kind)
    (dict : option dictionary) :
  k ≠ Math →
  mapping_inputs englishStr k dict = Ok (js_match (findRegex k) englishStr).
Proof. by destruct k. Qed.

(** [createTemplate] hands back the first failure among the three calls. *)
Lemma createTemplate_IsError (englishStr translatedStr : jsstring)
    (lang : option jsstring) (e : exn) :
  createTemplate englishStr translatedStr lang = IsError e ↔
  let dict := Some (getMathDictionary englishStr translatedStr) in
  getMapping englishStr translatedStr lang Math dict = Throw e ∨
  (∃ m, getMapping englishStr translatedStr lang Math dict = Ok m) ∧
  (getMapping englishStr translatedStr lang Graphie None = Throw e ∨
   (∃ g, getMapping englishStr translatedStr lang Graphie None = Ok g) ∧
   getMapping englishStr translatedStr lang Widget None = Throw e).
Proof.
  unfold createTemplate. cbv zeta.
  destruct (getMapping englishStr translatedStr lang Math _) as [m|e1]; simpl.
  - destruct (getMapping englishStr translatedStr lang Graphie _) as [g|e2]; simpl.
    + destruct (getMapping englishStr translatedStr lang Widget _) as [w|e3]; simpl.
      * split; [done|]. intros [?|[_ [?|[_ ?]]]]; done.
      * split.
        -- intros [= <-]. right. split; [eauto|]. right. split; [eauto|done].
        -- intros [?|[_ [?|[_ ?]]]]; congruence.
    + split.
      * intros [= <-]. right. split; [eauto|]. by left.
      * intros [?|[_ [?|[[? ?] _]]]]; congruence.
  - split.
    + intros [= <-]. by left.
    + intros [?|[[? ?] _]]; congruence.
Qed.

End MappingFailures.

(** ** The constructor *)

Section Constructor.

Context `{engine : RegExpEngine} {Item : Type}.

Lemma group_template_find (this : TranslationAssistant (Item := Item))
    (its : list Item) :
  group_template this its
  = (λ item, createTemplate (getEnglishStr this item)
               (to_text (getTranslation this item)) (lang this))
      <$> find (λ item, truthy (getTranslation this item)) its.
Proof.
  induction its as [|item its IH]; simpl; [done|].
  by destruct (truthy (getTranslation this item)).
Qed.

(** The templates of the groups are built while [this.lang] is still
    [undefined]. *)
Lemma constructor_template (allItems : list Item) (getEnglishStr0 : Item → jsstring)
    (getTranslation0 : Item → option jsstring) (lang0 : jsstring)
    (key : jsstring) (g : group) :
  suggestionGroups (constructor allItems getEnglishStr0 getTranslation0 lang0) !! key
  = Some g →
  template g
  = (λ item, createTemplate (getEnglishStr0 item)
               (to_text (getTranslation0 item)) None)
      <$> find (λ item, truthy (getTranslation0 item)) (items g).
Proof.
  unfold constructor. cbn [suggestionGroups]. unfold getSuggestionGroups.
  rewrite lookup_fmap. intros H.
  apply fmap_Some in H as (its & _ & ->). cbn [template items].
  apply (group_template_find
           {| getEnglishStr := getEnglishStr0; getTranslation := getTranslation0;
              suggestionGroups := ∅; lang := None |}).
Qed.

End Constructor.

(** ** Sorting the fragments *)

Lemma str_ltb_asym (a b : jsstring) : str_ltb a b = true → str_ltb b a = false.
Proof.
  revert b. induction a as [|x a IH]; intros [|y b] H; simpl in *; try done.
  apply orb_true_iff in H as [H|H].
  - apply N.ltb_lt in H.
    rewrite (proj2 (N.ltb_ge y x)) by lia. simpl.
    rewrite (proj2 (N.eqb_neq y x)) by lia. done.
  - apply andb_true_iff in H as [Hxy H]. apply N.eqb_eq in Hxy as ->.
    rewrite N.ltb_irrefl, N.eqb_refl. simpl. by apply IH.
Qed.

Lemma insert_sorted_Sorted (x : jsstring) (l : list jsstring) :
  Sorted str_le l → Sorted str_le (insert_sorted x l).
Proof.
  induction l as [|y l IH]; intros Hl; simpl.
  - by repeat constructor.
  - destruct (str_ltb x y) eqn:Hxy.
    + constructor; [done|]. constructor. by apply str_ltb_asym.
    + apply Sorted_inv in Hl as [Hl Hy]. constructor; [by apply IH|].
      destruct l as [|z l]; simpl.
      * by constructor.
      * destruct (str_ltb x z); constructor; [done|].
        by apply HdRel_inv in Hy.
Qed.

Lemma sort_Sorted (xs : list jsstring) : Sorted str_le (sort xs).
Proof.
  induction xs as [|x xs IH]; simpl; [constructor|].
  by apply insert_sorted_Sorted.
Qed.

Lemma insert_sorted_Permutation (x : jsstring) (l : list jsstring) :
  insert_sorted x l ≡ₚ x :: l.
Proof.
  induction l as [|y l IH]; simpl; [done|].
  destruct (str_ltb x y); [done|].
  rewrite IH. apply Permutation_swap.
Qed.

Lemma sort_Permutation (xs : list jsstring) : sort xs ≡ₚ xs.
Proof.
  induction xs as [|x xs IH]; simpl; [done|].
  by rewrite insert_sorted_Permutation, IH.
Qed.


Lemma str_ltb_trichotomy (a b : jsstring) :
  str_ltb a b = false → str_ltb b a = false → a = b.
Proof.
  revert b. induction a as [|x a IH]; intros [|y b] Hab Hba; simpl in *; try done.
  apply orb_false_iff in Hab as [Hxy Hab], Hba as [Hyx Hba].
  apply N.ltb_ge in Hxy, Hyx. assert (x = y) as -> by lia.
  rewrite N.eqb_refl in Hab, Hba. simpl in *. f_equal. by apply IH.
Qed.

Lemma str_ltb_cotrans (a b c : jsstring) :
  str_ltb c a = true → str_ltb b a = true ∨ str_ltb c b = true.
Proof.
  revert a b. induction c as [|z c IH]; intros [|x a] [|y b] H; simpl in *;
    try done; try (by left); try (by right).
  apply orb_true_iff in H as [H|H].
  - apply N.ltb_lt in H.
    destruct (N.lt_trichotomy y x) as [Hyx|[->|Hyx]].
    + left. by rewrite (proj2 (N.ltb_lt y x)).
    + right. by rewrite (proj2 (N.ltb_lt z x)).
    + right. rewrite (proj2 (N.ltb_lt z y)); [done|lia].
  - apply andb_true_iff in H as [Hzx H]. apply N.eqb_eq in Hzx as ->.
    destruct (N.lt_trichotomy y x) as [Hyx|[->|Hyx]].
    + left. by rewrite (proj2 (N.ltb_lt y x)).
    + rewrite N.ltb_irrefl, N.eqb_refl. simpl. by apply IH.
    + right. by rewrite (proj2 (N.ltb_lt x y)).
Qed.

#[local] Instance str_le_trans : Transitive str_le.
Proof.
  intros a b c Hab Hbc. unfold str_le in *.
  destruct (str_ltb c a) eqn:H; [|done].
  destruct (str_ltb_cotrans a b c H); congruence.
Qed.

#[local] Instance str_le_antisym : AntiSymm (=) str_le.
Proof. intros a b Hab Hba. by apply str_ltb_trichotomy. Qed.

(** Sorting forgets the order in which the fragments were met. *)
Lemma sort_order_independent (xs ys : list jsstring) :
  xs ≡ₚ ys → sort xs = sort ys.
Proof.
  intros H. apply (Sorted_unique str_le); [apply sort_Sorted..|].
  by rewrite !sort_Permutation.
Qed.

(** ** Populating a template with the string it was built from *)

Section RoundTrip.

Context `{engine : RegExpEngine}.

(** With no [\text] block in the English string and as many paragraphs on
    both sides, populating the template with its own English string puts
    the occurrences of the translated string back into its lines: the
    mappings pick, for each placeholder, an English occurrence equal to the
    translated one, and rewriting it once more changes nothing. *)
Lemma populateTemplate_refill (englishStr translatedStr : jsstring)
    (lang : option jsstring) (t : Template) :
  js_match TEXT_REGEX englishStr = [] →
  length (split_LINE_BREAK englishStr) = length (split_LINE_BREAK translatedStr) →
  createTemplate englishStr translatedStr lang = IsTemplate t →
  populateTemplate t englishStr lang = refill translatedStr lang.
Proof.
  intros Hno Hlen Hbuilt.
  apply createTemplate_IsTemplate in Hbuilt as (Hlines & Hdict & Hm & Hg & Hw).
  rewrite getMathDictionary_no_text in Hdict by done.
  rewrite Hdict in Hm.
  apply getMapping_Ok in Hm as (mathInputs & Hmi & Hmm).
  apply getMapping_Ok in Hg as (graphieInputs & [= <-] & Hgm).
  apply getMapping_Ok in Hw as (widgetInputs & [= <-] & Hwm).
  unfold mapping_inputs, apply_dictionary, findRegex in Hmi.
  change (entries []) with (@nil (jsstring * option jsstring)) in Hmi.
  change (λ input, apply_entries [] input) with (λ input : jsstring, Ok input) in Hmi.
  rewrite (map_completion_pure (λ x, x)), list_fmap_id in Hmi.
  injection Hmi as <-.
  unfold populateTemplate, refill. rewrite Hdict, Hlines.
  change (entries []) with (@nil (jsstring * option jsstring)).
  change (λ math, apply_entries [] (translateMath math lang))
    with (λ math : jsstring, Ok (translateMath math lang)).
  rewrite map_completion_pure. cbn [bind_completion].
  rewrite (fill_lines_ext _
             _ (supply ((λ math, translateMath math lang)
                          <$> js_match MATH_REGEX translatedStr))
             _ (supply (js_match GRAPHIE_REGEX translatedStr))
             _ (supply (js_match WIDGET_REGEX translatedStr))
             _ (split_LINE_BREAK translatedStr)); [done| | | |done].
  - intros i. unfold mapping_outputs, findRegex in Hmm.
    rewrite (pick_supply _ _ _ _ _ Hmm).
    rewrite <- list_fmap_compose. unfold supply. f_equal. f_equal.
    apply list_fmap_ext. intros _ math _. simpl.
    unfold translateMath. destruct lang as [l|]; [|done].
    destruct (decide (l = PT)); [|done]. apply tm_idempotent.
  - intros i. unfold mapping_outputs, findRegex in Hgm.
    rewrite <- (list_fmap_id (js_match GRAPHIE_REGEX englishStr)).
    rewrite (pick_supply _ _ _ _ _ Hgm). by rewrite list_fmap_id.
  - intros i. unfold mapping_outputs, findRegex in Hwm.
    rewrite <- (list_fmap_id (js_match WIDGET_REGEX englishStr)).
    rewrite (pick_supply _ _ _ _ _ Hwm). by rewrite list_fmap_id.
Qed.

(** The round trip holds for no other translated strings than those that
    their template lines capture. *)
Lemma round_trip_only_when_faithful (englishStr translatedStr : jsstring)
    (lang : option jsstring) (t : Template) :
  js_match TEXT_REGEX englishStr = [] →
  length (split_LINE_BREAK englishStr) = length (split_LINE_BREAK translatedStr) →
  createTemplate englishStr translatedStr lang = IsTemplate t →
  populateTemplate t englishStr lang = Ok (rewrite_maths translatedStr lang) →
  skeleton_faithful translatedStr lang.
Proof.
  intros Hno Hlen Hbuilt H. unfold skeleton_faithful.
  by rewrite <- (populateTemplate_refill englishStr translatedStr lang t).
Qed.

End RoundTrip.

(** ** Paragraphs and trimming *)

Lemma split_LINE_BREAK_cons (c d : N) (tl : jsstring) :
  split_LINE_BREAK (c :: d :: tl)
  = if (c =? LF) && (d =? LF) then [] :: split_LINE_BREAK tl
    else cons_first c (split_LINE_BREAK (d :: tl)).
Proof. done. Qed.

Lemma split_LINE_BREAK_not_nil (s : jsstring) : split_LINE_BREAK s ≠ [].
Proof.
  remember (length s) as n eqn:Hn. revert s Hn.
  induction n as [n IH] using lt_wf_ind. intros s Hn.
  destruct s as [|c [|d tl]]; [done..|].
  rewrite split_LINE_BREAK_cons. destruct ((c =? LF) && (d =? LF)); [done|].
  by destruct (split_LINE_BREAK (d :: tl)).
Qed.

Lemma join_cons_first (sep : jsstring) (c : N) (ls : list jsstring) :
  ls ≠ [] → join sep (cons_first c ls) = c :: join sep ls.
Proof. destruct ls as [|l [|l' ls]]; done. Qed.

(** The paragraphs, joined again, are the string. *)
Lemma join_split_LINE_BREAK (s : jsstring) :
  join LINE_BREAK (split_LINE_BREAK s) = s.
Proof.
  remember (length s) as n eqn:Hn. revert s Hn.
  induction n as [n IH] using lt_wf_ind. intros s Hn.
  destruct s as [|c [|d tl]]; [done..|].
  rewrite split_LINE_BREAK_cons.
  destruct ((c =? LF) && (d =? LF)) eqn:E.
  - apply andb_true_iff in E as [->%N.eqb_eq ->%N.eqb_eq].
    pose proof (split_LINE_BREAK_not_nil tl) as Hne.
    assert (join LINE_BREAK (split_LINE_BREAK tl) = tl) as Htl.
    { apply (IH (length tl)); [subst; simpl; lia|done]. }
    destruct (split_LINE_BREAK tl) as [|l ls] eqn:Hs; [done|].
    change (join LINE_BREAK ([] :: l :: ls))
      with (LINE_BREAK ++ join LINE_BREAK (l :: ls)).
    by rewrite Htl.
  - rewrite join_cons_first by apply split_LINE_BREAK_not_nil.
    f_equal. apply (IH (length (d :: tl))); [subst; simpl; lia|done].
Qed.

Lemma trim_start_spec (s : jsstring) :
  ∃ l, s = l ++ trim_start s ∧ Forall (λ c, is_ws c = true) l ∧
       ∀ c, head (trim_start s) = Some c → is_ws c = false.
Proof.
  induction s as [|c s (l & Hs & Hl & Hhead)]; simpl.
  - by exists [].
  - destruct (is_ws c) eqn:Hc.
    + exists (c :: l). split; [by rewrite Hs at 1|]. split; [by constructor|done].
    + exists []. split; [done|]. split; [constructor|]. simpl. congruence.
Qed.

(** [trim] takes the white space off both ends, and nothing else. *)
Lemma trim_spec (s : jsstring) :
  ∃ l r, s = l ++ trim s ++ r ∧
         Forall (λ c, is_ws c = true) l ∧ Forall (λ c, is_ws c = true) r ∧
         (∀ c, head (trim s) = Some c → is_ws c = false) ∧
         (∀ c, last (trim s) = Some c → is_ws c = false).
Proof.
  unfold trim.
  destruct (trim_start_spec s) as (l & Hs & Hl & Hhead).
  destruct (trim_start_spec (rev (trim_start s))) as (r & Hr & Hrws & Hlast).
  set (s2 := trim_start (rev (trim_start s))) in *.
  assert (trim_start s = rev s2 ++ rev r) as Hs1.
  { rewrite <- rev_app_distr, <- Hr. by rewrite rev_involutive. }
  exists l, (rev r). split; [by rewrite <- Hs1|].
  split; [done|]. split; [by apply Forall_rev|]. split.
  - intros c Hc. apply Hhead. rewrite Hs1.
    destruct (rev s2); [done|]. simpl in *. done.
  - intros c Hc. apply Hlast. apply last_Some in Hc as [l' Hl'].
    apply (f_equal (@rev N)) in Hl'.
    rewrite rev_involutive, rev_app_distr in Hl'. by rewrite Hl'.
Qed.

Lemma split_LINE_BREAK_head (s : jsstring) (l : jsstring) (ls : list jsstring) :
  split_LINE_BREAK s = l :: ls → l = [] ∨ head l = head s.
Proof.
  destruct s as [|c [|d tl]]; simpl.
  - intros [= <- _]. by left.
  - intros [= <- _]. by right.
  - destruct ((c =? LF) && (d =? LF)).
    + intros [= <- _]. by left.
    + destruct (match tl with [] => _ | _ => _ end) as [|l0 ls0]; simpl;
        intros [= <- _]; by right.
Qed.

(** No paragraph holds a line break. *)
Lemma split_LINE_BREAK_parts (s : jsstring) :
  Forall (λ p, includes LINE_BREAK p = false) (split_LINE_BREAK s).
Proof.
  remember (length s) as n eqn:Hn. revert s Hn.
  induction n as [n IH] using lt_wf_ind. intros s Hn.
  destruct s as [|c [|d tl]].
  - by repeat constructor.
  - repeat constructor. simpl. by rewrite andb_false_r.
  - rewrite split_LINE_BREAK_cons.
    destruct ((c =? LF) && (d =? LF)) eqn:E.
    + constructor; [done|]. apply (IH (length tl)); [subst; simpl; lia|done].
    + assert (Forall (λ p, includes LINE_BREAK p = false)
                (split_LINE_BREAK (d :: tl))) as Hrest.
      { apply (IH (length (d :: tl))); [subst; simpl; lia|done]. }
      destruct (split_LINE_BREAK (d :: tl)) as [|l ls] eqn:Hs;
        [by apply split_LINE_BREAK_not_nil in Hs|].
      apply Forall_cons in Hrest as [Hl Hls]. simpl. constructor; [|done].
      apply split_LINE_BREAK_head in Hs as [->|Hhead].
      * simpl. by rewrite andb_false_r.
      * cbn [includes]. rewrite Hl, orb_false_r.
        destruct l as [|d' l]; [simpl; by rewrite andb_false_r|].
        injection Hhead as ->. unfold LINE_BREAK. cbn [starts_with].
        rewrite andb_true_r, (N.eqb_sym LF c), (N.eqb_sym LF d). exact E.
Qed.

(** * The claims *)

(** C9.  The per-language math rewriter is idempotent: for every math string
    and every language code (including an undefined one), rewriting twice
    gives the same string as rewriting once. *)
Theorem translateMath_idempotent (math : jsstring) (lang : option jsstring) :
  translateMath (translateMath math lang) lang = translateMath math lang.
Proof.
  unfold translateMath. destruct lang as [l|]; [|done].
  destruct (decide (l = PT)); [|done].
  apply tm_idempotent.
Qed.

(** C6.  When [getMapping] succeeds, the entry for each translated
    occurrence is the smallest index of an English occurrence whose
    rewritten form equals the rewritten translated occurrence.  The
    rewritten form of an English math occurrence is what the dictionary
    substitutions make of it, and a graphie or a widget is taken as it is;
    a translated math occurrence is rewritten by [translateMath].  In
    particular translated occurrences that are equal to each other get the
    same entry. *)
Theorem getMapping_first_match `{engine : RegExpEngine}
    (englishStr translatedStr : jsstring) (lang : option jsstring) (k : kind)
    (dict : option dictionary) (mapping : list nat) :
  getMapping englishStr translatedStr lang k dict = Ok mapping →
  ∃ inputs,
    match k with
    | Math =>
        Forall2 (λ input rewritten, apply_dictionary dict input = Ok rewritten)
                (js_match MATH_REGEX englishStr) inputs
    | _ => inputs = js_match (findRegex k) englishStr
    end ∧
    (∀ i output,
       js_match (findRegex k) translatedStr !! i = Some output →
       let rewritten :=
         match k with Math => translateMath output lang | _ => output end in
       ∃ e, mapping !! i = Some e ∧ inputs !! e = Some rewritten ∧
            ∀ j, (j < e)%nat → inputs !! j ≠ Some rewritten) ∧
    (∀ i j output,
       mapping_outputs translatedStr lang k !! i = Some output →
       mapping_outputs translatedStr lang k !! j = Some output →
       mapping !! i = mapping !! j).
Proof.
  intros H. apply getMapping_Ok in H as (inputs & Hin & Hmap).
  exists inputs.
  assert (∀ i output,
            mapping_outputs translatedStr lang k !! i = Some output →
            ∃ e, mapping !! i = Some e ∧ indexOf inputs output = Some e) as Hentry.
  { intros i output Hi.
    destruct (Forall2_lookup_l _ _ _ _ _ Hmap Hi) as (e & He & Hidx). eauto. }
  split; [|split].
  - unfold mapping_inputs in Hin.
    destruct k; [by apply map_completion_Ok|by injection Hin..].
  - intros i output Hi rewritten.
    assert (mapping_outputs translatedStr lang k !! i = Some rewritten) as Hi'.
    { unfold mapping_outputs, rewritten.
      destruct k; [by rewrite list_lookup_fmap, Hi|done..]. }
    destruct (Hentry _ _ Hi') as (e & He & Hidx).
    apply indexOf_Some in Hidx as [Hat Hfirst]. eauto.
  - intros i j output Hi Hj.
    destruct (Hentry _ _ Hi) as (e & -> & Hidx).
    destruct (Hentry _ _ Hj) as (e' & -> & Hidx').
    congruence.
Qed.

Lemma getMapping_first_match_witness :
  ∃ inputs,
    Forall2 (λ input rewritten,
               apply_dictionary (engine := word_engine) (Some []) input
               = Ok rewritten)
            (js_match MATH_REGEX english_hint) inputs ∧
    (∀ i output,
       js_match MATH_REGEX translated_hint !! i = Some output →
       ∃ e, [1; 1; 0]%nat !! i = Some e ∧
            inputs !! e = Some (translateMath output ES) ∧
            ∀ j, (j < e)%nat → inputs !! j ≠ Some (translateMath output ES)) ∧
    (∀ i j output,
       mapping_outputs translated_hint ES Math !! i = Some output →
       mapping_outputs translated_hint ES Math !! j = Some output →
       [1; 1; 0]%nat !! i = [1; 1; 0]%nat !! j).
Proof.
  apply (getMapping_first_match (engine := word_engine)
           english_hint translated_hint ES Math (Some []) [1; 1; 0]%nat).
  vm_compute. reflexivity.
Defined.

(** C10.  A mapping returned by a successful [getMapping] has one entry per
    occurrence of the kind in the translated string, and every entry is an
    index into the occurrences of the kind in the English string.  Hence
    the three mappings of a template that was built are made of such
    indices. *)
Theorem getMapping_in_bounds `{engine : RegExpEngine}
    (englishStr translatedStr : jsstring) (lang : option jsstring) (k : kind)
    (dict : option dictionary) (mapping : list nat) :
  getMapping englishStr translatedStr lang k dict = Ok mapping →
  length mapping = length (js_match (findRegex k) translatedStr) ∧
  Forall (λ e, (0 ≤ e < length (js_match (findRegex k) englishStr))%nat) mapping ∧
  ∀ t, createTemplate englishStr translatedStr lang = IsTemplate t →
       Forall (λ e, (e < length (js_match MATH_REGEX englishStr))%nat)
              (mathMapping t) ∧
       Forall (λ e, (e < length (js_match GRAPHIE_REGEX englishStr))%nat)
              (graphieMapping t) ∧
       Forall (λ e, (e < length (js_match WIDGET_REGEX englishStr))%nat)
              (widgetMapping t).
Proof.
  intros H. apply getMapping_bounds in H as [Hlen Hall].
  split; [done|]. split.
  - eapply Forall_impl; [exact Hall|]. simpl. lia.
  - intros t Ht. apply createTemplate_IsTemplate in Ht as (_ & _ & Hm & Hg & Hw).
    apply getMapping_bounds in Hm as [_ Hm].
    apply getMapping_bounds in Hg as [_ Hg].
    apply getMapping_bounds in Hw as [_ Hw]. done.
Qed.

Lemma getMapping_in_bounds_witness :
  length [1; 1; 0]%nat = length (js_match MATH_REGEX translated_hint) ∧
  Forall (λ e, (0 ≤ e < length (js_match MATH_REGEX english_hint))%nat)
         [1; 1; 0]%nat ∧
  ∀ t, createTemplate (engine := word_engine) english_hint translated_hint ES
       = IsTemplate t →
       Forall (λ e, (e < length (js_match MATH_REGEX english_hint))%nat)
              (mathMapping t) ∧
       Forall (λ e, (e < length (js_match GRAPHIE_REGEX english_hint))%nat)
              (graphieMapping t) ∧
       Forall (λ e, (e < length (js_match WIDGET_REGEX english_hint))%nat)
              (widgetMapping t).
Proof.
  apply (getMapping_in_bounds (engine := word_engine)
           english_hint translated_hint ES Math (Some []) [1; 1; 0]%nat).
  vm_compute. reflexivity.
Defined.

(** C5.  Mismatches are found when the template is built, not when it is
    used: for a template that was built from some pair and a query string
    with as many paragraphs as the template has lines, [populateTemplate]
    completes with a string and throws nothing, whatever occurrences the
    query string has. *)
Theorem populateTemplate_completes `{engine : RegExpEngine}
    (english1 translated1 : jsstring) (lang1 : option jsstring) (t : Template)
    (english2 : jsstring) (lang2 : option jsstring) :
  createTemplate english1 translated1 lang1 = IsTemplate t →
  length (split_LINE_BREAK english2) = length (lines t) →
  ∃ suggestion, populateTemplate t english2 lang2 = Ok suggestion.
Proof.
  intros Hbuilt Hlen. unfold populateTemplate.
  destruct (map_completion_total
              (λ math, apply_entries (entries (mathDictionary t))
                         (translateMath math lang2))
              (js_match MATH_REGEX english2)) as [maths ->].
  { intros x. apply apply_entries_Ok. by eapply built_dictionary_compiles. }
  simpl.
  destruct (fill_lines_Ok (lines t)
              (pick maths (mathMapping t))
              (pick (js_match GRAPHIE_REGEX english2) (graphieMapping t))
              (pick (js_match WIDGET_REGEX english2) (widgetMapping t))
              (split_LINE_BREAK english2) 0
              {| mathIndex := 0; graphieIndex := 0; widgetIndex := 0 |})
    as [newLines ->]; [lia|].
  simpl. eauto.
Qed.

Lemma populateTemplate_completes_witness :
  ∃ suggestion,
    populateTemplate (engine := word_engine)
      {| lines := [str "Simplifica __MATH__"];
         mathMapping := [0%nat];
         graphieMapping := [];
         widgetMapping := [];
         mathDictionary := [] |}
      english_plain ES
    = Ok suggestion.
Proof.
  apply (populateTemplate_completes (engine := word_engine)
           english_simplify translated_simplify ES _ english_plain ES).
  - vm_compute. reflexivity.
  - vm_compute. reflexivity.
Defined.

(** C4.  The group key is a function of the string, and it stands for the
    shape: serialisation never sends two different objects [{str, texts}] to
    one key, so two strings get the same key exactly when they have the
    same skeleton and the same sequence of fragment lists.  There is one
    fragment list per math occurrence, in order, and each holds the
    fragments of its occurrence sorted by code units. *)
Theorem group_key_identifies_shape (s1 s2 : jsstring) :
  (s1 = s2 → stringToGroupKey s1 = stringToGroupKey s2) ∧
  (stringToGroupKey s1 = stringToGroupKey s2 ↔
   group_str s1 = group_str s2 ∧ group_texts s1 = group_texts s2) ∧
  (∀ o1 o2 : normalObj, JSON_stringify o1 = JSON_stringify o2 → o1 = o2) ∧
  Forall2 (λ math fragments,
             fragments ≡ₚ allMatches_text math ∧ Sorted str_le fragments)
          (js_match MATH_REGEX s1) (group_texts s1).
Proof.
  assert (∀ o1 o2 : normalObj, JSON_stringify o1 = JSON_stringify o2 → o1 = o2)
    as Hinj.
  { intros o1 o2 H. apply (f_equal JSON_parse) in H.
    rewrite !JSON_parse_stringify in H. congruence. }
  split; [by intros ->|]. split; [|split; [done|]].
  - split.
    + intros H. apply Hinj in H. by injection H.
    + intros [H1 H2]. unfold stringToGroupKey. by rewrite H1, H2.
  - unfold group_texts. apply Forall2_fmap_r, Forall_Forall2_diag, Forall_forall.
    intros math _. split; [apply sort_Permutation|apply sort_Sorted].
Qed.

(** C7.  For an item whose skeleton is the bare math placeholder and whose
    English string does not contain [\text], the callback of [suggest]
    yields the English string rewritten by [translateMath] for the language
    given to the constructor; for an item whose skeleton is the bare graphie
    or widget placeholder, it yields the English string itself.  [suggest]
    on that item alone returns just this pair; in general it maps the
    callback over the items, so when it completes its result holds at each
    index the pair the callback yields for the item at that index. *)
Theorem suggest_bare_placeholder `{engine : RegExpEngine} {Item : Type}
    (allItems : list Item) (getEnglishStr0 : Item → jsstring)
    (getTranslation0 : Item → option jsstring) (lang0 : jsstring) (item : Item) :
  let this := constructor allItems getEnglishStr0 getTranslation0 lang0 in
  let englishStr := getEnglishStr0 item in
  (group_str englishStr = MATH_PH ∧ includes (str "\text") englishStr = false →
   suggest_item this item
   = Ok (item, Some (translateMath englishStr (Some lang0))) ∧
   suggest this [item]
   = Ok [(item, Some (translateMath englishStr (Some lang0)))]) ∧
  (group_str englishStr = GRAPHIE_PH ∨ group_str englishStr = WIDGET_PH →
   suggest_item this item = Ok (item, Some englishStr) ∧
   suggest this [item] = Ok [(item, Some englishStr)]) ∧
  (∀ itemsToTranslate results i,
     suggest this itemsToTranslate = Ok results →
     itemsToTranslate !! i = Some item →
     ∃ pair, results !! i = Some pair ∧ suggest_item this item = Ok pair).
Proof.
  intros this englishStr.
  assert (∀ pair, suggest_item this item = Ok pair →
                  suggest_item this item = Ok pair ∧
                  suggest this [item] = Ok [pair]) as Hone.
  { intros pair H. split; [done|].
    unfold suggest. cbn [map_completion]. by rewrite H. }
  split; [|split].
  - intros [Hstr Hno]. apply Hone.
    unfold suggest_item. change (getEnglishStr this item) with englishStr.
    unfold stringToGroupKey. rewrite JSON_parse_stringify. cbn [obj_str].
    rewrite Hstr, Hno. reflexivity.
  - intros Hstr. apply Hone.
    unfold suggest_item. change (getEnglishStr this item) with englishStr.
    unfold stringToGroupKey. rewrite JSON_parse_stringify. cbn [obj_str].
    destruct Hstr as [-> | ->]; reflexivity.
  - intros itemsToTranslate results i Hall Hi.
    by eapply map_completion_lookup.
Qed.

Lemma suggest_bare_placeholder_witness :
  suggest (engine := word_engine)
    (constructor [] (λ item : jsstring, item) (λ _, None) PT) [english_sin]
  = Ok [(english_sin, Some (str "$\operatorname{sen}(x)$"))] ∧
  suggest (engine := word_engine)
    (constructor [] (λ item : jsstring, item) (λ _, None) PT) [english_graphie]
  = Ok [(english_graphie, Some english_graphie)].
Proof.
  pose proof (suggest_bare_placeholder (engine := word_engine)
                [] (λ item : jsstring, item) (λ _, None) PT english_sin)
    as [Hmath _].
  pose proof (suggest_bare_placeholder (engine := word_engine)
                [] (λ item : jsstring, item) (λ _, None) PT english_graphie)
    as (_ & Hgraphie & _).
  split.
  - apply Hmath. split; vm_compute; reflexivity.
  - apply Hgraphie. left. vm_compute. reflexivity.
Defined.

(** C8 as stated fails: with nothing between the two placeholders the
    collapse applies all the same, and puts a space there; with a line feed
    between them, which is white space, it does not apply. *)
Lemma collapse_without_whitespace :
  (strip_line english_math_widget = str "__MATH____WIDGET__" ∧
   group_str english_math_widget = str "__MATH__ __WIDGET__" ∧
   group_str english_math_widget ≠ spec_group_str english_math_widget) ∧
  (strip_line english_math_newline_widget = MATH_PH ++ [LF] ++ WIDGET_PH ∧
   group_str english_math_newline_widget = MATH_PH ++ [LF] ++ WIDGET_PH ∧
   group_str english_math_newline_widget
   ≠ spec_group_str english_math_newline_widget).
Proof. vm_compute. repeat split; congruence. Qed.

(** C8, amended.  The skeleton is obtained by replacing the math, graphie
    and widget occurrences (in this order) by their placeholders, then
    collapsing, then trimming each paragraph.  The collapse rewrites every
    math placeholder that is followed by a run of tabs and spaces, which may
    be empty, and then by the widget placeholder; it leaves every other code
    unit as it is.  The paragraphs are the parts between line breaks (two
    line feeds), and trimming takes the white space off both ends of a
    paragraph. *)
Theorem group_str_steps (s : jsstring) :
  group_str s
  = join LINE_BREAK
      (trim <$> split_LINE_BREAK
         (collapse
            (js_replace WIDGET_REGEX WIDGET_PH
               (js_replace GRAPHIE_REGEX GRAPHIE_PH
                  (js_replace MATH_REGEX MATH_PH s))))) ∧
  collapse [] = [] ∧
  (∀ ws rest,
     Forall (λ c, c = TAB ∨ c = SPACE) ws →
     collapse (MATH_PH ++ ws ++ WIDGET_PH ++ rest)
     = str "__MATH__ __WIDGET__" ++ collapse rest) ∧
  (∀ c rest,
     (¬ ∃ ws r, Forall (λ c, c = TAB ∨ c = SPACE) ws ∧
                c :: rest = MATH_PH ++ ws ++ WIDGET_PH ++ r) →
     collapse (c :: rest) = c :: collapse rest) ∧
  (∀ t, join LINE_BREAK (split_LINE_BREAK t) = t ∧
        Forall (λ p, includes LINE_BREAK p = false) (split_LINE_BREAK t)) ∧
  (∀ p, ∃ l r, p = l ++ trim p ++ r ∧
               Forall (λ c, is_ws c = true) l ∧ Forall (λ c, is_ws c = true) r ∧
               (∀ c, head (trim p) = Some c → is_ws c = false) ∧
               (∀ c, last (trim p) = Some c → is_ws c = false)).
Proof.
  assert (∀ ws, Forall (λ c, c = TAB ∨ c = SPACE) ws ↔
                Forall (λ c, tab_or_space c = true) ws) as Hws.
  { intros ws. apply Forall_proper; [|done]. intros c. unfold tab_or_space.
    rewrite orb_true_iff, !N.eqb_eq. done. }
  split; [done|]. split; [done|]. split; [|split; [|split]].
  - intros ws rest H. apply collapse_hit. by apply Hws.
  - intros c rest H. apply collapse_miss.
    intros (ws & r & Hall & Heq). apply H. exists ws, r. split; [|done].
    by apply Hws.
  - intros t. split; [apply join_split_LINE_BREAK|apply split_LINE_BREAK_parts].
  - apply trim_spec.
Qed.




(** C1, where the code departs from it.  Whatever language the constructor
    is given, the template of a group is the one that [createTemplate]
    builds, from the first item of the group with a non-empty translation,
    for an undefined language: [this.lang] is assigned after
    [getSuggestionGroups] has run.  At the input below the constructor is
    given the language [pt] and the group gets a template, whereas with
    that language [createTemplate] reports a math mismatch for the pair. *)
Theorem constructor_builds_template_without_lang :
  (∀ (engine : RegExpEngine) (Item : Type) (allItems : list Item)
     (getEnglishStr0 : Item → jsstring) (getTranslation0 : Item → option jsstring)
     (lang0 key : jsstring) (g : group),
     suggestionGroups (constructor allItems getEnglishStr0 getTranslation0 lang0)
       !! key = Some g →
     template g
     = (λ item, createTemplate (getEnglishStr0 item)
                  (to_text (getTranslation0 item)) None)
         <$> find (λ item, truthy (getTranslation0 item)) (items g)) ∧
  template
    <$> (suggestionGroups
           (constructor (engine := word_engine) [item_find_sin] fst snd PT)
         !! stringToGroupKey english_find_sin)
  = Some (Some (createTemplate (engine := word_engine)
                  english_find_sin translated_find_sin None)) ∧
  createTemplate (engine := word_engine) english_find_sin translated_find_sin None
  = IsTemplate {| lines := [str "Ache __MATH__"];
                  mathMapping := [0%nat];
                  graphieMapping := [];
                  widgetMapping := [];
                  mathDictionary := [] |} ∧
  createTemplate (engine := word_engine)
    english_find_sin translated_find_sin (Some PT)
  = IsError (mismatch Math).
Proof.
  split.
  { intros engine Item allItems getEnglishStr0 getTranslation0 lang0 key g Hg.
    by apply (constructor_template allItems _ _ lang0 key). }
  split; [|split; by vm_compute].
  destruct (suggestionGroups _ !! _) as [g|] eqn:Hg; [|by vm_compute in Hg].
  simpl. rewrite (constructor_template _ _ _ _ _ _ Hg).
  assert (items g = [item_find_sin]) as ->; [|done].
  by vm_compute in Hg; injection Hg as <-.
Qed.

(** C3, at an input where the code departs from it.  The dictionary key
    [a)] is not a pattern, so for every engine that refuses it, as
    ECMAScript does, [getMapping] throws a [SyntaxError] and not a mismatch,
    although every translated occurrence is an English occurrence;
    [createTemplate] returns that [SyntaxError]. *)
Theorem getMapping_throws_SyntaxError `{engine : RegExpEngine} :
  new_RegExp (text_pattern (str "a)")) = None →
  getMathDictionary english_paren english_paren = [(str "a)", Some (str "a)"))] ∧
  mapping_outputs english_paren ES Math = js_match MATH_REGEX english_paren ∧
  getMapping english_paren english_paren ES Math
    (Some (getMathDictionary english_paren english_paren))
  = Throw (SyntaxError (text_pattern (str "a)"))) ∧
  createTemplate english_paren english_paren ES
  = IsError (SyntaxError (text_pattern (str "a)"))) ∧
  ∀ k, SyntaxError (text_pattern (str "a)")) ≠ mismatch k.
Proof.
  intros Hrefused.
  assert (getMathDictionary english_paren english_paren
          = [(str "a)", Some (str "a)"))]) as Hdict by by vm_compute.
  assert (getMapping english_paren english_paren ES Math
            (Some (getMathDictionary english_paren english_paren))
          = Throw (SyntaxError (text_pattern (str "a)")))) as Hthrow.
  { rewrite Hdict. unfold getMapping, mapping_inputs, apply_dictionary.
    change (js_match (findRegex Math) english_paren) with [english_paren].
    change (entries [(str "a)", Some (str "a)"))])
      with [(str "a)", Some (str "a)"))].
    simpl. by rewrite Hrefused. }
  split; [done|]. split; [by vm_compute|]. split; [done|]. split.
  - apply createTemplate_IsError. by left.
  - by intros [].
Qed.

Lemma getMapping_throws_SyntaxError_witness :
  getMathDictionary english_paren english_paren = [(str "a)", Some (str "a)"))] ∧
  mapping_outputs english_paren ES Math = js_match MATH_REGEX english_paren ∧
  getMapping (engine := word_engine) english_paren english_paren ES Math
    (Some (getMathDictionary english_paren english_paren))
  = Throw (SyntaxError (text_pattern (str "a)"))) ∧
  createTemplate (engine := word_engine) english_paren english_paren ES
  = IsError (SyntaxError (text_pattern (str "a)"))) ∧
  ∀ k, SyntaxError (text_pattern (str "a)")) ≠ mismatch k.
Proof.
  apply (getMapping_throws_SyntaxError (engine := word_engine)).
  vm_compute. reflexivity.
Defined.

(** * Further properties of the code *)

(** ** Group keys and [JSON.parse] *)

(** X1.  [JSON.parse] gives back the object that [JSON.stringify] wrote.
    In [suggest], the call [JSON.parse(stringToGroupKey(englishStr))]
    therefore never throws, and [normalObj.str] is the skeleton that
    [stringToGroupKey] computed. *)
Theorem group_key_parses :
  (∀ o : normalObj, JSON_parse (JSON_stringify o) = Some o) ∧
  (∀ s : jsstring,
     JSON_parse (stringToGroupKey s)
     = Some {| obj_str := group_str s; obj_texts := group_texts s |}).
Proof.
  split; [apply JSON_parse_stringify|].
  intros s. apply JSON_parse_stringify.
Qed.

(** ** [populateTemplate]: the lines that are read *)

Section PopulateErrors.

Context `{engine : RegExpEngine}.

Lemma fill_lines_Throw (templateLines : list jsstring)
    (maths graphies widgets : nat → jsstring)
    (englishLines : list jsstring) (index : nat) (cur : cursors) :
  (index ≤ length templateLines < index + length englishLines)%nat →
  fill_lines templateLines maths graphies widgets englishLines index cur
  = Throw TypeError.
Proof.
  revert index cur. induction englishLines as [|l ls IH]; intros index cur Hlen.
  - simpl in Hlen. lia.
  - simpl in *. destruct (templateLines !! index) as [tl|] eqn:Htl; [|done].
    apply lookup_lt_Some in Htl.
    destruct (fill_line maths graphies widgets cur tl) as [line cur'].
    rewrite IH by lia. done.
Qed.

Lemma fill_lines_length (templateLines : list jsstring)
    (maths graphies widgets : nat → jsstring)
    (englishLines newLines : list jsstring) (index : nat) (cur : cursors) :
  fill_lines templateLines maths graphies widgets englishLines index cur
  = Ok newLines →
  length newLines = length englishLines.
Proof.
  revert index cur newLines.
  induction englishLines as [|l ls IH]; intros index cur newLines H; simpl in H.
  - by injection H as <-.
  - destruct (templateLines !! index) as [tl|]; [|done].
    destruct (fill_line maths graphies widgets cur tl) as [line cur'].
    destruct (fill_lines _ _ _ _ ls _ _) as [rest|] eqn:Hrest; [|done].
    simpl in H. injection H as <-. simpl. f_equal. by eapply IH.
Qed.

(** With a dictionary whose patterns compile, the only thing that can go
    wrong is a template line that is not there. *)
Lemma populateTemplate_cases (t : Template) (englishStr : jsstring)
    (lang : option jsstring) :
  Forall compiles (entries (mathDictionary t)) →
  if decide (length (split_LINE_BREAK englishStr) ≤ length (lines t))%nat
  then ∃ newLines,
         populateTemplate t englishStr lang = Ok (join LINE_BREAK newLines) ∧
         length newLines = length (split_LINE_BREAK englishStr)
  else populateTemplate t englishStr lang = Throw TypeError.
Proof.
  intros Hdict. unfold populateTemplate.
  destruct (map_completion_total
              (λ math, apply_entries (entries (mathDictionary t))
                         (translateMath math lang))
              (js_match MATH_REGEX englishStr)) as [maths ->].
  { intros x. by apply apply_entries_Ok. }
  cbn [bind_completion].
  destruct (decide _) as [Hle|Hgt].
  - destruct (fill_lines_Ok (lines t)
                (pick maths (mathMapping t))
                (pick (js_match GRAPHIE_REGEX englishStr) (graphieMapping t))
                (pick (js_match WIDGET_REGEX englishStr) (widgetMapping t))
                (split_LINE_BREAK englishStr) 0
                {| mathIndex := 0; graphieIndex := 0; widgetIndex := 0 |})
      as [newLines Hfill]; [lia|].
    rewrite Hfill. cbn [bind_completion]. exists newLines. split; [done|].
    by eapply fill_lines_length.
  - rewrite fill_lines_Throw by lia. done.
Qed.

End PopulateErrors.



(** ** The suggestion groups *)

Section Groups.

Context `{engine : RegExpEngine} {Item : Type}.

Implicit Types (this : TranslationAssistant (Item := Item)) (key : jsstring).

(** The first loop of [getSuggestionGroups], started on groups that are
    there already. *)
Lemma group_items_from this (allItems : list Item)
    (groups : gmap jsstring (list Item)) key :
  foldl (λ groups obj,
           let key := stringToGroupKey (getEnglishStr this obj) in
           match groups !! key with
           | Some objs => <[key := objs ++ [obj]]> groups
           | None => <[key := [obj]]> groups
           end) groups allItems !! key
  = match groups !! key,
          filter (λ obj, stringToGroupKey (getEnglishStr this obj) = key) allItems
    with
    | Some objs, its => Some (objs ++ its)
    | None, [] => None
    | None, its => Some its
    end.
Proof.
  revert groups. induction allItems as [|obj allItems IH]; intros groups.
  - simpl. destruct (groups !! key); [by rewrite app_nil_r|done].
  - cbn [foldl]. rewrite IH. clear IH.
    rewrite filter_cons.
    destruct (decide (stringToGroupKey (getEnglishStr this obj) = key))
      as [<-|Hne].
    + destruct (groups !! _) as [objs|] eqn:Hg.
      * rewrite lookup_insert_eq. by rewrite <- app_assoc.
      * by rewrite lookup_insert_eq.
    + destruct (groups !! stringToGroupKey _) as [objs|];
        by rewrite lookup_insert_ne.
Qed.

Lemma group_items_lookup this (allItems : list Item) key :
  group_items this allItems !! key
  = match filter (λ obj, stringToGroupKey (getEnglishStr this obj) = key)
            allItems with
    | [] => None
    | its => Some its
    end.
Proof. unfold group_items. by rewrite group_items_from, lookup_empty. Qed.

Lemma getSuggestionGroups_lookup this (allItems : list Item) key :
  getSuggestionGroups this allItems !! key
  = match filter (λ obj, stringToGroupKey (getEnglishStr this obj) = key)
            allItems with
    | [] => None
    | its => Some {| items := its; template := group_template this its |}
    end.
Proof.
  unfold getSuggestionGroups. rewrite lookup_fmap, group_items_lookup.
  by destruct (filter _ _).
Qed.

Lemma find_filter (p : Item → bool) (q : Item → Prop) `{!∀ x, Decision (q x)}
    (l : list Item) :
  find p (filter q l) = find (λ x, bool_decide (q x) && p x) l.
Proof.
  induction l as [|x l IH]; [done|].
  rewrite filter_cons. simpl. destruct (decide (q x)) as [Hq|Hq].
  - rewrite bool_decide_eq_true_2 by done. simpl. by destruct (p x).
  - by rewrite bool_decide_eq_false_2.
Qed.

End Groups.

(** X3.  [getSuggestionGroups] puts every item into the group of its key:
    a key has a group exactly when some item has that key, the items of the
    group are the items with that key in the order of [allItems], and the
    template of the group is built from the first of them that has a
    non-empty translation ([null] when there is none). *)
Theorem getSuggestionGroups_partition `{engine : RegExpEngine} {Item : Type}
    (this : TranslationAssistant (Item := Item)) (allItems : list Item)
    (key : jsstring) :
  let same_key :=
    filter (λ obj, stringToGroupKey (getEnglishStr this obj) = key) allItems in
  getSuggestionGroups this allItems !! key
  = if decide (same_key = []) then None
    else Some {| items := same_key;
                 template :=
                   (λ item, createTemplate (getEnglishStr this item)
                              (to_text (getTranslation this item)) (lang this))
                     <$> find (λ item, truthy (getTranslation this item))
                              same_key |}.
Proof.
  intros same_key. rewrite getSuggestionGroups_lookup. fold same_key.
  rewrite <- group_template_find.
  by destruct same_key.
Qed.

(** ** [suggest] on an assistant made by the constructor *)

Section SuggestFromGroups.

Context `{engine : RegExpEngine} {Item : Type}.

Lemma suggest_item_fst (this : TranslationAssistant (Item := Item)) (item : Item)
    (pair : Item * option jsstring) :
  suggest_item this item = Ok pair → pair.1 = item.
Proof.
  unfold suggest_item. intros H.
  destruct (JSON_parse _) as [normalObj|]; [|done].
  assert (∀ m : completion (Item * option jsstring),
            m = match suggestionGroups this
                        !! stringToGroupKey (getEnglishStr this item) with
                | Some g =>
                    match template g with
                    | Some (IsError _) => Ok (item, None)
                    | Some (IsTemplate t) =>
                        try! translatedStr :=
                          populateTemplate t (getEnglishStr this item) (lang this) in
                        Ok (item, Some translatedStr)
                    | None => Ok (item, None)
                    end
                | None => Ok (item, None)
                end →
            m = Ok pair → pair.1 = item) as Hgroup.
  { intros m -> Hm.
    destruct (suggestionGroups this !! _) as [g|]; [|by injection Hm as <-].
    destruct (template g) as [[t|e]|]; [|by injection Hm as <-..].
    destruct (populateTemplate t _ _) as [s|]; [|done].
    by injection Hm as <-. }
  destruct (is_bare_placeholder _).
  - destruct (decide _).
    + destruct (negb _); [by injection H as <-|by eapply Hgroup].
    + by injection H as <-.
  - by eapply Hgroup.
Qed.

(** What the lookup in [suggestionGroups] comes to. *)
Lemma constructor_group_suggestion (allItems : list Item)
    (getEnglishStr0 : Item → jsstring) (getTranslation0 : Item → option jsstring)
    (lang0 : jsstring) (item : Item) :
  let this := constructor allItems getEnglishStr0 getTranslation0 lang0 in
  match suggestionGroups this !! stringToGroupKey (getEnglishStr0 item) with
  | Some g =>
      match template g with
      | Some (IsError _) => Ok (item, None)
      | Some (IsTemplate t) =>
          try! translatedStr :=
            populateTemplate t (getEnglishStr0 item) (lang this) in
          Ok (item, Some translatedStr)
      | None => Ok (item, None)
      end
  | None => Ok (item, None)
  end
  = group_suggestion allItems getEnglishStr0 getTranslation0 lang0 item.
Proof.
  intros this. unfold this, constructor. cbn [suggestionGroups lang].
  rewrite getSuggestionGroups_lookup. cbn [getEnglishStr].
  unfold group_suggestion, first_translated.
  rewrite <- (find_filter (λ obj, truthy (getTranslation0 obj))
                (λ obj, stringToGroupKey (getEnglishStr0 obj)
                        = stringToGroupKey (getEnglishStr0 item))).
  destruct (filter _ allItems) as [|obj its] eqn:Hits; [done|].
  cbn [template]. rewrite group_template_find. cbn [getTranslation getEnglishStr lang].
  destruct (find _ (obj :: its)) as [obj0|]; [|done].
  cbn [fmap option_fmap option_map].
  by destruct (createTemplate _ _ _).
Qed.

Lemma suggest_item_constructor (allItems : list Item)
    (getEnglishStr0 : Item → jsstring) (getTranslation0 : Item → option jsstring)
    (lang0 : jsstring) (item : Item) :
  let englishStr := getEnglishStr0 item in
  let from_group :=
    group_suggestion allItems getEnglishStr0 getTranslation0 lang0 item in
  suggest_item (constructor allItems getEnglishStr0 getTranslation0 lang0) item
  = if is_bare_placeholder (group_str englishStr) then
      if decide (group_str englishStr = MATH_PH) then
        if negb (includes (str "\text") englishStr)
        then Ok (item, Some (translateMath englishStr (Some lang0)))
        else from_group
      else Ok (item, Some englishStr)
    else from_group.
Proof.
  intros englishStr from_group. unfold suggest_item.
  change (getEnglishStr (constructor _ _ _ _) item) with englishStr.
  unfold stringToGroupKey at 1. rewrite JSON_parse_stringify. cbn [obj_str].
  pose proof (constructor_group_suggestion allItems getEnglishStr0
                getTranslation0 lang0 item) as Hg.
  cbv zeta in Hg. fold englishStr in Hg. rewrite Hg. done.
Qed.

End SuggestFromGroups.

(** X4.  When [suggest] completes, its result pairs every item with its
    suggestion, in the order of the items: the first components of the
    result are the items themselves. *)
Theorem suggest_keeps_items `{engine : RegExpEngine} {Item : Type}
    (this : TranslationAssistant (Item := Item)) (itemsToTranslate : list Item)
    (results : list (Item * option jsstring)) :
  suggest this itemsToTranslate = Ok results →
  fst <$> results = itemsToTranslate.
Proof.
  unfold suggest. rewrite map_completion_Ok. intros H.
  induction H as [|item pair its pairs Hpair _ IH]; [done|].
  csimpl. f_equal; [by apply (suggest_item_fst this)|done].
Qed.

Lemma suggest_keeps_items_witness :
  fst <$> [(item_find_cos, Some (str "Ache $\cos y$"));
           (item_find_sin, Some (str "Ache $\operatorname{sen} x$"))]
  = [item_find_cos; item_find_sin].
Proof.
  apply (suggest_keeps_items (engine := word_engine)
           (constructor [item_find_sin] fst snd PT)).
  vm_compute. reflexivity.
Defined.

(** X5.  The suggestion for an item whose skeleton is not a bare
    placeholder (or is the bare math placeholder while the English string
    contains [\text]) comes from the first item of [allItems] that has the
    same group key and a non-empty translation.  It is [null] when there is
    no such item or when [createTemplate] returns an error for it;
    otherwise it is the template of that item, built with an undefined
    language, populated with the English string of the queried item and
    the language given to the constructor. *)
Theorem suggest_from_first_translated `{engine : RegExpEngine} {Item : Type}
    (allItems : list Item) (getEnglishStr0 : Item → jsstring)
    (getTranslation0 : Item → option jsstring) (lang0 : jsstring) (item : Item) :
  let englishStr := getEnglishStr0 item in
  is_bare_placeholder (group_str englishStr) = false ∨
  group_str englishStr = MATH_PH ∧ includes (str "\text") englishStr = true →
  suggest_item (constructor allItems getEnglishStr0 getTranslation0 lang0) item
  = match first_translated allItems getEnglishStr0 getTranslation0
            (stringToGroupKey englishStr) with
    | None => Ok (item, None)
    | Some obj =>
        match createTemplate (getEnglishStr0 obj)
                (to_text (getTranslation0 obj)) None with
        | IsError _ => Ok (item, None)
        | IsTemplate t =>
            try! translatedStr := populateTemplate t englishStr (Some lang0) in
            Ok (item, Some translatedStr)
        end
    end.
Proof.
  intros englishStr H. rewrite suggest_item_constructor. fold englishStr.
  destruct H as [-> | [-> ->]]; reflexivity.
Qed.

Lemma suggest_from_first_translated_witness :
  suggest_item (engine := word_engine)
    (constructor [item_find_sin] fst snd PT) item_find_cos
  = Ok (item_find_cos, Some (str "Ache $\cos y$")).
Proof.
  rewrite (suggest_from_first_translated (engine := word_engine)
             [item_find_sin] fst snd PT item_find_cos).
  - vm_compute. reflexivity.
  - left. vm_compute. reflexivity.
Defined.

Lemma group_suggestion_Throw `{engine : RegExpEngine} {Item : Type}
    (allItems : list Item) (getEnglishStr0 : Item → jsstring)
    (getTranslation0 : Item → option jsstring) (lang0 : jsstring) (item : Item)
    (e : exn) :
  group_suggestion allItems getEnglishStr0 getTranslation0 lang0 item = Throw e →
  e = TypeError ∧
  ∃ obj,
    first_translated allItems getEnglishStr0 getTranslation0
      (stringToGroupKey (getEnglishStr0 item)) = Some obj ∧
    (length (split_LINE_BREAK (to_text (getTranslation0 obj)))
     < length (split_LINE_BREAK (getEnglishStr0 item)))%nat.
Proof.
  unfold group_suggestion. intros H.
  destruct (first_translated _ _ _ _) as [obj|]; [|done].
  destruct (createTemplate _ _ _) as [t|] eqn:Hbuilt; [|done].
  pose proof (populateTemplate_cases t (getEnglishStr0 item) (Some lang0)
                (built_dictionary_compiles _ _ _ _ Hbuilt)) as Hcases.
  apply createTemplate_IsTemplate in Hbuilt as (Hlines & _).
  rewrite Hlines, length_fmap in Hcases.
  destruct (decide _) as [Hle|Hgt] in Hcases.
  - destruct Hcases as (newLines & Hp & _). by rewrite Hp in H.
  - rewrite Hcases in H. injection H as <-. split; [done|].
    exists obj. split; [done|lia].
Qed.

(** X6.  On an assistant made by the constructor, [suggest] throws nothing
    but a [TypeError], and only when some queried item has more paragraphs
    in its English string than there are in the translation from which the
    template of its group was built. *)
Theorem suggest_throws_only_TypeError `{engine : RegExpEngine} {Item : Type}
    (allItems : list Item) (getEnglishStr0 : Item → jsstring)
    (getTranslation0 : Item → option jsstring) (lang0 : jsstring)
    (itemsToTranslate : list Item) (e : exn) :
  suggest (constructor allItems getEnglishStr0 getTranslation0 lang0)
    itemsToTranslate = Throw e →
  e = TypeError ∧
  ∃ item obj,
    item ∈ itemsToTranslate ∧
    first_translated allItems getEnglishStr0 getTranslation0
      (stringToGroupKey (getEnglishStr0 item)) = Some obj ∧
    (length (split_LINE_BREAK (to_text (getTranslation0 obj)))
     < length (split_LINE_BREAK (getEnglishStr0 item)))%nat.
Proof.
  unfold suggest. rewrite map_completion_Throw.
  intros (i & item & Hi & Hthrow & _).
  rewrite suggest_item_constructor in Hthrow.
  assert (group_suggestion allItems getEnglishStr0 getTranslation0 lang0 item
          = Throw e) as Hgroup.
  { destruct (is_bare_placeholder _); [|done].
    destruct (decide _); [|done]. by destruct (negb _). }
  apply group_suggestion_Throw in Hgroup as [-> (obj & Hobj & Hlen)].
  split; [done|]. exists item, obj. split; [|done].
  by eapply list_elem_of_lookup_2.
Qed.

Lemma suggest_throws_only_TypeError_witness :
  TypeError = TypeError ∧
  ∃ item obj,
    item ∈ [item_short_translation] ∧
    first_translated [item_short_translation] fst snd
      (stringToGroupKey (fst item)) = Some obj ∧
    (length (split_LINE_BREAK (to_text (snd obj)))
     < length (split_LINE_BREAK (fst item)))%nat.
Proof.
  apply (suggest_throws_only_TypeError (engine := word_engine)
           [item_short_translation] fst snd PT [item_short_translation]).
  vm_compute. reflexivity.
Defined.

(** ** [translateMath] *)

Section TranslateMathSin.

Let SIN : jsstring := str "\sin".
Let SEN : jsstring := str "\operatorname{sen}".
Let tm : jsstring → jsstring := js_replace (lit_at SIN) SEN.

Lemma includes_cons (w : jsstring) (c : N) (tl : jsstring) :
  includes w (c :: tl) = starts_with w (c :: tl) || includes w tl.
Proof. done. Qed.

Lemma includes_SEN (x : jsstring) : includes SIN (SEN ++ x) = includes SIN x.
Proof.
  let v := eval vm_compute in SEN in change SEN with v.
  let v := eval vm_compute in SIN in change SIN with v.
  cbn [app]. by rewrite !includes_cons.
Qed.

Lemma tm_removes_SIN (s : jsstring) : includes SIN (tm s) = false.
Proof.
  remember (length s) as n eqn:Hn.
  revert s Hn. induction n as [n IH] using lt_wf_ind. intros s Hn.
  destruct s as [|c tl]; [done|].
  destruct (starts_with SIN (c :: tl)) eqn:E.
  - apply starts_with_inv in E as [r E]. rewrite E.
    unfold tm. rewrite replace_lit_hit by done. fold tm.
    rewrite includes_SEN. apply (IH (length r)); [|done].
    rewrite Hn, E, length_app. simpl. lia.
  - unfold tm. rewrite replace_lit_miss by done. fold tm.
    rewrite includes_cons, tm_keeps_miss by done.
    apply (IH (length tl)); [|done]. rewrite Hn. simpl. lia.
Qed.

Lemma tm_fixes (s : jsstring) : includes SIN s = false → tm s = s.
Proof.
  induction s as [|c tl IH]; [done|].
  rewrite includes_cons. intros [Hhere Hrest]%orb_false_iff.
  unfold tm. rewrite replace_lit_miss by done. fold tm. by rewrite IH.
Qed.

End TranslateMathSin.

(** X7.  For the language [pt] the rewritten formula contains no [\sin]
    any more.  A formula is left as it is exactly when the language is not
    [pt] (or is undefined) or the formula contains no [\sin]. *)
Theorem translateMath_sin :
  (∀ math, includes (str "\sin") (translateMath math (Some PT)) = false) ∧
  (∀ math lang,
     translateMath math lang = math ↔
     lang ≠ Some PT ∨ includes (str "\sin") math = false).
Proof.
  split.
  - intros math. unfold translateMath.
    rewrite decide_True by done. apply tm_removes_SIN.
  - intros math lang. unfold translateMath.
    destruct lang as [l|]; [|by split; [left|]].
    destruct (decide (l = PT)) as [->|Hl].
    + split.
      * intros H. right. rewrite <- H. apply tm_removes_SIN.
      * intros [H|H]; [done|]. by apply tm_fixes.
    + split; [|done]. intros _. left. congruence.
Qed.

(** ** The occurrences that the patterns find *)

(** Every occurrence that a scan finds is a match at the place where it
    stands. *)
Lemma js_match_elem (m : matcher) (s w : jsstring) :
  w ∈ js_match m s →
  ∃ x y n, s = x ++ w ++ y ∧ m (w ++ y) = Some (S n) ∧ w = take (S n) (w ++ y).
Proof.
  unfold js_match, tokens.
  remember (length s) as len eqn:Hlen. revert s Hlen.
  induction len as [len IH] using lt_wf_ind. intros s Hlen H.
  destruct s as [|c tl]; [by apply elem_of_nil in H|].
  assert (w ∈ hits (scan m 0 tl) →
          ∃ x y n, c :: tl = x ++ w ++ y ∧ m (w ++ y) = Some (S n) ∧
                   w = take (S n) (w ++ y)) as Hrest.
  { intros Hw.
    destruct (IH (length tl) ltac:(subst; simpl; lia) tl eq_refl Hw)
      as (x & y & n & -> & Hm & Ht).
    by exists (c :: x), y, n. }
  simpl in H. destruct (m (c :: tl)) as [[|k]|] eqn:E; simpl in H; [by auto| |by auto].
  rewrite scan_skip in H. apply elem_of_cons in H as [->|H].
  - exists [], (drop k tl), k. simpl. by rewrite take_drop.
  - destruct (IH (length (drop k tl))
                ltac:(subst; rewrite length_drop; simpl; lia)
                (drop k tl) eq_refl H) as (x & y & n & Hs & Hm & Ht).
    exists (c :: take k tl ++ x), y, n. split; [|done].
    simpl. f_equal. rewrite <- app_assoc, <- Hs. by rewrite take_drop.
Qed.

Lemma delimited_occurrence (open : jsstring) (p : N → bool) (least : nat)
    (close w y : jsstring) (n : nat) :
  delimited open p least close (w ++ y) = Some n → w = take n (w ++ y) →
  ∃ body, w = open ++ body ++ close ∧ Forall (λ c, p c = true) body ∧
          (least ≤ length body)%nat.
Proof.
  intros H Hw. apply delimited_Some in H as (ws & r & Hs & Hws & Hleast & ->).
  exists ws. split; [|done].
  rewrite Hw, Hs. rewrite !app_assoc. rewrite <- !length_app.
  by rewrite take_app_length.
Qed.

Lemma math_tail_inv (c : N) (tl : jsstring) (n : nat) :
  math_tail (c :: tl) = Some n →
  (∃ tl' m, c = BACKSLASH ∧ tl = DOLLAR :: tl' ∧ math_tail tl' = Some m ∧
            n = S (S m)) ∨
  (c ≠ DOLLAR ∧ ∃ m, math_tail tl = Some m ∧ n = S m) ∨
  (c = DOLLAR ∧ n = 1%nat).
Proof.
  cbn [math_tail]. intros H.
  set (escaped := match tl with
                  | d :: tl' =>
                      if (c =? BACKSLASH) && (d =? DOLLAR)
                      then (λ n, S (S n)) <$> math_tail tl' else None
                  | [] => None
                  end) in H.
  destruct escaped as [n'|] eqn:He.
  - left. injection H as <-. subst escaped.
    destruct tl as [|d tl']; [done|].
    destruct (N.eqb_spec c BACKSLASH) as [->|]; [|done].
    destruct (N.eqb_spec d DOLLAR) as [->|]; [|done].
    simpl in He. destruct (math_tail tl') as [m|] eqn:Hm; [|done].
    injection He as <-. by exists tl', m.
  - right. cbn [or_else] in H.
    destruct (N.eqb_spec c DOLLAR) as [->|Hc].
    + right. cbn [or_else] in H. by injection H as <-.
    + left. split; [done|].
      destruct (math_tail tl) as [m|] eqn:Hm; [|done].
      cbn [fmap option_fmap option_map or_else] in H.
      injection H as <-. by exists m.
Qed.

Lemma math_tail_steps (r : jsstring) (n : nat) :
  math_tail r = Some n →
  ∃ steps, take n r = concat steps ++ [DOLLAR] ∧ Forall math_step steps.
Proof.
  remember (length r) as len eqn:Hlen. revert r n Hlen.
  induction len as [len IH] using lt_wf_ind. intros r n Hlen H.
  destruct r as [|c tl]; [done|].
  apply math_tail_inv in H
    as [(tl' & m & -> & -> & Hm & ->)|[(Hc & m & Hm & ->)|[-> ->]]].
  - destruct (IH (length tl') ltac:(subst; simpl; lia) tl' m eq_refl Hm)
      as (steps & Ht & Hsteps).
    exists ([BACKSLASH; DOLLAR] :: steps). split.
    + simpl. by rewrite Ht.
    + constructor; [by left|done].
  - destruct (IH (length tl) ltac:(subst; simpl; lia) tl m eq_refl Hm)
      as (steps & Ht & Hsteps).
    exists ([c] :: steps). split.
    + simpl. by rewrite Ht.
    + constructor; [right; by exists c|done].
  - exists []. split; [by destruct tl|constructor].
Qed.

Lemma math_at_occurrence (w y : jsstring) (n : nat) :
  math_at (w ++ y) = Some n → w = take n (w ++ y) →
  ∃ steps, w = [DOLLAR] ++ concat steps ++ [DOLLAR] ∧ steps ≠ [] ∧
           Forall math_step steps.
Proof.
  unfold math_at. intros H Hw.
  destruct (w ++ y) as [|c r]; [done|].
  destruct r as [|d r']; [done|].
  destruct (N.eqb_spec c DOLLAR) as [->|]; [|done].
  destruct (N.eqb_spec d DOLLAR) as [->|Hd]; [done|].
  cbn [andb negb] in H.
  destruct (math_tail (d :: r')) as [m|] eqn:Hm; [|done].
  injection H as <-.
  apply math_tail_steps in Hm as (steps & Ht & Hsteps).
  exists steps. split; [|split; [|done]].
  - rewrite Hw. cbn [take]. cbn [app]. by rewrite Ht.
  - intros ->. destruct m; simpl in Ht; [done|]. congruence.
Qed.

(** X8.  What the three patterns find in a string.  A math occurrence is a
    dollar, then one or more rounds that are an escaped dollar or a code
    unit other than a dollar, then a dollar; a graphie occurrence is
    [![](], a non-empty text without closing parenthesis, and [)]; a
    widget occurrence is [[[], the snowman, a non-empty text without
    closing bracket, and []]].  The occurrences of a kind lie in the string
    one after the other, without overlap. *)
Theorem occurrences_shape (s : jsstring) :
  Forall (λ w, ∃ steps, w = [DOLLAR] ++ concat steps ++ [DOLLAR] ∧
                        steps ≠ [] ∧ Forall math_step steps)
         (js_match MATH_REGEX s) ∧
  Forall (λ w, ∃ body, w = str "![](" ++ body ++ str ")" ∧
                       body ≠ [] ∧ RPAREN ∉ body)
         (js_match GRAPHIE_REGEX s) ∧
  Forall (λ w, ∃ body, w = str "[[" ++ [SNOWMAN] ++ body ++ str "]]" ∧
                       body ≠ [] ∧ RBRACKET ∉ body)
         (js_match WIDGET_REGEX s) ∧
  ∀ k, blocks (js_match (findRegex k) s) s.
Proof.
  assert (∀ (x : N) (body : jsstring),
            Forall (λ c, negb (c =? x) = true) body → x ∉ body) as Hnot.
  { intros x body Hall Hin. rewrite Forall_forall in Hall.
    apply Hall in Hin. by rewrite N.eqb_refl in Hin. }
  split; [|split; [|split]].
  - apply Forall_forall. intros w Hw.
    apply js_match_elem in Hw as (x & y & n & _ & Hm & Ht).
    rewrite MATH_REGEX_closed in Hm. by eapply math_at_occurrence.
  - apply Forall_forall. intros w Hw.
    apply js_match_elem in Hw as (x & y & n & _ & Hm & Ht).
    rewrite GRAPHIE_REGEX_closed in Hm.
    destruct (delimited_occurrence _ _ _ _ _ _ _ Hm Ht)
      as (body & -> & Hbody & Hlen).
    exists body. split; [done|]. split; [by destruct body; simpl in Hlen; [lia|]|].
    by apply Hnot.
  - apply Forall_forall. intros w Hw.
    apply js_match_elem in Hw as (x & y & n & _ & Hm & Ht).
    rewrite WIDGET_REGEX_closed in Hm.
    destruct (delimited_occurrence _ _ _ _ _ _ _ Hm Ht)
      as (body & -> & Hbody & Hlen).
    exists body. split; [by rewrite <- app_assoc|].
    split; [by destruct body; simpl in Hlen; [lia|]|].
    by apply Hnot.
  - intros k. apply blocks_scan.
Qed.

Lemma text_capture_block (body : jsstring) :
  text_capture (TEXT_OPEN ++ body ++ [RBRACE]) = body.
Proof.
  unfold text_capture. rewrite !length_app.
  change (drop 6 (TEXT_OPEN ++ body ++ [RBRACE])) with (body ++ [RBRACE]).
  replace (length TEXT_OPEN + (length body + length [RBRACE]) - 7)%nat
    with (length body) by (simpl; lia).
  by rewrite take_app_length.
Qed.

(** The captures handed to the callback of [allMatches]. *)
Lemma allMatches_text_elem (text f : jsstring) :
  f ∈ allMatches_text text →
  (RBRACE ∉ f) ∧ ∃ x y, text = x ++ TEXT_OPEN ++ f ++ [RBRACE] ++ y.
Proof.
  unfold allMatches_text. intros (w & -> & Hw)%list_elem_of_fmap.
  apply js_match_elem in Hw as (x & y & n & -> & Hm & Ht).
  rewrite TEXT_REGEX_closed in Hm.
  destruct (delimited_occurrence _ _ _ _ _ _ _ Hm Ht)
    as (body & -> & Hbody & _).
  rewrite text_capture_block. split.
  - intros Hin. rewrite Forall_forall in Hbody.
    apply Hbody in Hin. by rewrite N.eqb_refl in Hin.
  - exists x, y. by rewrite <- !app_assoc.
Qed.

(** X9.  The [texts] of a group key hold, for each math occurrence of the
    string, fragments that stand in that occurrence inside [\text{...}];
    no fragment contains a closing brace. *)
Theorem group_texts_fragments (s : jsstring) :
  Forall2 (λ math fragments,
             Forall (λ f, (RBRACE ∉ f) ∧
                          ∃ x y, math = x ++ str "\text{" ++ f ++ str "}" ++ y)
                    fragments)
          (js_match MATH_REGEX s) (group_texts s).
Proof.
  unfold group_texts. apply Forall2_fmap_r, Forall_Forall2_diag, Forall_forall.
  intros math _. apply Forall_forall. intros f Hf.
  apply allMatches_text_elem. by rewrite <- (sort_Permutation (allMatches_text math)).
Qed.

(** ** What a group key does not depend on *)

(** X10.  The order of the fragments inside a formula does not matter for
    the group key: two strings with the same skeleton whose math
    occurrences hold, one by one, the same fragments up to order get the
    same key. *)
Theorem group_key_fragment_order (s1 s2 : jsstring) :
  group_str s1 = group_str s2 →
  Forall2 (λ math1 math2, allMatches_text math1 ≡ₚ allMatches_text math2)
          (js_match MATH_REGEX s1) (js_match MATH_REGEX s2) →
  stringToGroupKey s1 = stringToGroupKey s2.
Proof.
  intros Hstr Hfragments. unfold stringToGroupKey. rewrite Hstr. f_equal. f_equal.
  unfold group_texts.
  induction Hfragments as [|math1 math2 maths1 maths2 Hperm _ IH]; [done|].
  csimpl. f_equal; [by apply sort_order_independent|done].
Qed.

Lemma group_key_fragment_order_witness :
  stringToGroupKey english_red_blue = stringToGroupKey english_blue_red.
Proof.
  apply group_key_fragment_order.
  - vm_compute. reflexivity.
  - change (js_match MATH_REGEX english_red_blue) with [english_red_blue].
    change (js_match MATH_REGEX english_blue_red) with [english_blue_red].
    constructor; [|constructor].
    change (allMatches_text english_red_blue) with [str "red"; str "blue"].
    change (allMatches_text english_blue_red) with [str "blue"; str "red"].
    apply Permutation_swap.
Defined.

Lemma exec_Lit_miss (w : jsstring) (r : regex) (s : jsstring) :
  starts_with w s = false → exec (Lit w ·· r) s = None.
Proof. intros H. unfold exec. rewrite ends_Seq. cbn [ends]. by rewrite H. Qed.

Lemma tokens_plain_prefix (m : matcher) (ws s : jsstring) :
  Forall (λ c, ∀ tl, m (c :: tl) = None) ws →
  tokens m (ws ++ s) = (Plain <$> ws) ++ tokens m s.
Proof.
  intros H. induction H as [|c ws Hc _ IH]; [done|].
  cbn [app]. rewrite tokens_miss by apply Hc. csimpl. by rewrite IH.
Qed.

Lemma hits_plain (ws : jsstring) (ts : list token) :
  hits ((Plain <$> ws) ++ ts) = hits ts.
Proof. induction ws as [|c ws IH]; [done|]. by csimpl. Qed.

Lemma render_plain (f : jsstring → jsstring) (ws : jsstring) (ts : list token) :
  render f ((Plain <$> ws) ++ ts) = ws ++ render f ts.
Proof. induction ws as [|c ws IH]; [done|]. csimpl. by rewrite IH. Qed.

(** White space opens none of the patterns. *)
Lemma is_ws_opens_nothing (c : N) :
  is_ws c = true →
  ∀ tl, MATH_REGEX (c :: tl) = None ∧ GRAPHIE_REGEX (c :: tl) = None ∧
        WIDGET_REGEX (c :: tl) = None ∧ MATH_WIDGET_REGEX (c :: tl) = None.
Proof.
  intros Hc tl.
  assert (∀ x : N, is_ws x = false → (x =? c) = false) as Hne.
  { intros x Hx. apply N.eqb_neq. intros ->. congruence. }
  assert (∀ (x : N) (w : jsstring),
            is_ws x = false → starts_with (x :: w) (c :: tl) = false) as Hmiss.
  { intros x w Hx. cbn [starts_with]. by rewrite Hne. }
  repeat split; apply exec_Lit_miss.
  - by apply Hmiss.
  - by apply (Hmiss 33 (str "[](")).
  - by apply (Hmiss 91 (str "[")).
  - by apply (Hmiss 95 (str "_MATH__")).
Qed.

Lemma split_LINE_BREAK_prefix (ws t : jsstring) :
  Forall (λ c, c ≠ LF) ws →
  split_LINE_BREAK (ws ++ t)
  = match split_LINE_BREAK t with
    | l :: ls => (ws ++ l) :: ls
    | [] => [ws]
    end.
Proof.
  intros H. induction H as [|c ws Hc _ IH].
  - simpl. destruct (split_LINE_BREAK t) eqn:E; [|done].
    by apply split_LINE_BREAK_not_nil in E.
  - cbn [app].
    assert (split_LINE_BREAK (c :: ws ++ t)
            = cons_first c (split_LINE_BREAK (ws ++ t))) as ->.
    { destruct (ws ++ t) as [|d tl]; [done|].
      rewrite split_LINE_BREAK_cons.
      by rewrite (proj2 (N.eqb_neq c LF)). }
    rewrite IH. by destruct (split_LINE_BREAK t).
Qed.

Lemma trim_prefix (ws l : jsstring) :
  Forall (λ c, is_ws c = true) ws → trim (ws ++ l) = trim l.
Proof.
  intros H. unfold trim. f_equal. f_equal. f_equal.
  induction H as [|c ws Hc _ IH]; [done|]. simpl. by rewrite Hc.
Qed.

Lemma group_key_prefix (ws s : jsstring) :
  Forall (λ c, is_ws c = true ∧ c ≠ LF) ws →
  stringToGroupKey (ws ++ s) = stringToGroupKey s.
Proof.
  intros Hws.
  assert (Forall (λ c, is_ws c = true) ws) as Hspace.
  { eapply Forall_impl; [exact Hws|]. by intros c [? _]. }
  assert (Forall (λ c, c ≠ LF) ws) as Hlf.
  { eapply Forall_impl; [exact Hws|]. by intros c [_ ?]. }
  assert (∀ m : matcher,
            (∀ c tl, is_ws c = true → m (c :: tl) = None) →
            (∀ r t, js_replace m r (ws ++ t) = ws ++ js_replace m r t) ∧
            (∀ t, js_match m (ws ++ t) = js_match m t)) as Hskip.
  { intros m Hm.
    assert (∀ t, tokens m (ws ++ t) = (Plain <$> ws) ++ tokens m t) as Ht.
    { intros t. apply tokens_plain_prefix.
      eapply Forall_impl; [exact Hspace|]. intros c Hc tl. by apply Hm. }
    split.
    - intros r t. unfold js_replace, js_replace_fn. by rewrite Ht, render_plain.
    - intros t. unfold js_match. by rewrite Ht, hits_plain. }
  destruct (Hskip MATH_REGEX) as [Hmath Hmaths];
    [intros c tl Hc; apply (is_ws_opens_nothing c Hc tl)|].
  destruct (Hskip GRAPHIE_REGEX) as [Hgraphie _];
    [intros c tl Hc; apply (is_ws_opens_nothing c Hc tl)|].
  destruct (Hskip WIDGET_REGEX) as [Hwidget _];
    [intros c tl Hc; apply (is_ws_opens_nothing c Hc tl)|].
  destruct (Hskip MATH_WIDGET_REGEX) as [Hcollapse _];
    [intros c tl Hc; apply (is_ws_opens_nothing c Hc tl)|].
  unfold stringToGroupKey. f_equal. f_equal.
  - unfold group_str. cbv zeta.
    rewrite Hmath, Hgraphie, Hwidget, Hcollapse.
    rewrite split_LINE_BREAK_prefix by done.
    destruct (split_LINE_BREAK _) as [|l ls] eqn:Hsplit.
    { by apply split_LINE_BREAK_not_nil in Hsplit. }
    csimpl. by rewrite trim_prefix.
  - unfold group_texts. by rewrite Hmaths.
Qed.

Lemma exec_le (r : regex) (s : jsstring) (n : nat) :
  exec r s = Some n → (n ≤ length s)%nat.
Proof.
  unfold exec. destruct (head (ends r s)); [|done]. intros [= <-]. lia.
Qed.

(** A scan of a string goes the same way when a text follows that the
    pattern does not reach into. *)
Lemma scan_suffix (m : matcher) (ws : jsstring) :
  (∀ t, t ≠ [] → m (t ++ ws) = m t) →
  (∀ t n, m t = Some n → (n ≤ length t)%nat) →
  (∀ s, tokens m (s ++ ws) = tokens m s ++ tokens m ws).
Proof.
  intros Hsame Hle. unfold tokens.
  assert (∀ s k, (k ≤ length s)%nat →
                 scan m k (s ++ ws) = scan m k s ++ scan m 0 ws) as H.
  { induction s as [|c tl IH]; intros k Hk.
    - simpl in Hk. by assert (k = 0%nat) as -> by lia.
    - pose proof (Hsame (c :: tl) ltac:(done)) as Hhere.
      destruct k as [|k]; simpl in Hk; cbn [app scan] in *.
      + rewrite Hhere.
        destruct (m (c :: tl)) as [[|n]|] eqn:E.
        * by rewrite (IH 0%nat) by lia.
        * apply Hle in E. simpl in E.
          rewrite (IH n) by lia. cbn [take]. by rewrite take_app_le by lia.
        * by rewrite (IH 0%nat) by lia.
      + by rewrite (IH k) by lia. }
  intros s. by rewrite (H s 0%nat) by lia.
Qed.

Lemma starts_with_suffix (w t ws : jsstring) :
  Forall (λ a, a ∉ ws) w → w ≠ [] →
  starts_with w (t ++ ws) = starts_with w t.
Proof.
  intros Hw. revert t. induction Hw as [|a w Ha Hw IH]; intros t Hne; [done|].
  destruct t as [|b t].
  - simpl. destruct ws as [|c ws]; [done|].
    rewrite (proj2 (N.eqb_neq a c)); [done|]. intros ->. apply Ha. by left.
  - cbn [app starts_with]. destruct w as [|a' w]; [done|].
    by rewrite IH.
Qed.

Lemma span_len_suffix (p : N → bool) (r ws : jsstring) :
  span_len p (r ++ ws)
  = if bool_decide (span_len p r < length r)%nat then span_len p r
    else (length r + span_len p ws)%nat.
Proof.
  induction r as [|c r IH]; [done|].
  cbn [app span_len length]. destruct (p c).
  - rewrite IH. repeat case_bool_decide; lia.
  - by rewrite bool_decide_eq_true_2 by lia.
Qed.

Lemma delimited_suffix (open : jsstring) (p : N → bool) (least : nat)
    (close t ws : jsstring) :
  Forall (λ a, a ∉ ws) open → open ≠ [] →
  Forall (λ a, a ∉ ws) close → close ≠ [] →
  delimited open p least close (t ++ ws) = delimited open p least close t.
Proof.
  intros Hopen Hopen' Hclose Hclose'. unfold delimited.
  rewrite starts_with_suffix by done.
  destruct (starts_with open t) eqn:Ho; [|done].
  apply starts_with_inv in Ho as [r ->].
  rewrite <- app_assoc, !drop_app_length, span_len_suffix.
  destruct (decide (span_len p r < length r)%nat) as [Hn|Hn].
  - rewrite (bool_decide_eq_true_2 (span_len p r < length r)%nat) by done.
    rewrite drop_app_le by lia. by rewrite starts_with_suffix.
  - rewrite (bool_decide_eq_false_2 (span_len p r < length r)%nat) by done.
    assert (span_len p r = length r) as Hr.
    { pose proof (span_len_le p r). lia. }
    rewrite Hr, drop_all.
    rewrite drop_app_ge by lia.
    assert (starts_with close (drop (length r + span_len p ws - length r) ws)
            = false) as ->.
    { destruct (drop _ ws) as [|c tl] eqn:Hd.
      - by destruct close.
      - destruct close as [|a close]; [done|]. simpl.
        rewrite (proj2 (N.eqb_neq a c)); [done|]. intros ->.
        apply Forall_cons in Hclose as [Ha _]. apply Ha.
        apply (subseteq_drop (length r + span_len p ws - length r) ws).
        rewrite Hd. by left. }
    destruct close; [done|]. by rewrite !andb_false_r.
Qed.

Lemma math_tail_suffix (r ws : jsstring) :
  DOLLAR ∉ ws → math_tail (r ++ ws) = math_tail r.
Proof.
  intros Hws.
  assert (math_tail ws = None) as Hnone.
  { induction ws as [|c ws IH]; [done|].
    apply not_elem_of_cons in Hws as [Hc Hws].
    cbn [math_tail]. rewrite IH by done.
    rewrite (proj2 (N.eqb_neq c DOLLAR)) by done.
    destruct ws as [|d ws']; [done|].
    apply not_elem_of_cons in Hws as [Hd _].
    by rewrite (proj2 (N.eqb_neq d DOLLAR)), andb_false_r by done. }
  remember (length r) as len eqn:Hlen. revert r Hlen.
  induction len as [len IH] using lt_wf_ind. intros r Hlen.
  destruct r as [|c tl]; [done|].
  cbn [app math_tail]. rewrite (IH (length tl)) by (subst; simpl; lia || done).
  f_equal. destruct tl as [|d tl'].
  - destruct ws as [|d ws']; [done|].
    apply not_elem_of_cons in Hws as [Hd _]. cbn [app].
    by rewrite (proj2 (N.eqb_neq d DOLLAR)), andb_false_r by done.
  - cbn [app]. by rewrite (IH (length tl')) by (subst; simpl; lia || done).
Qed.

Lemma math_at_suffix (t ws : jsstring) :
  DOLLAR ∉ ws → math_at (t ++ ws) = math_at t.
Proof.
  intros Hws. destruct t as [|c r].
  - destruct ws as [|c ws']; [done|].
    apply not_elem_of_cons in Hws as [Hc _]. cbn [app math_at].
    rewrite (proj2 (N.eqb_neq c DOLLAR)) by done. by destruct ws'.
  - cbn [app math_at]. destruct r as [|d r'].
    + destruct ws as [|d ws']; [done|]. cbn [app].
      pose proof (math_tail_suffix [] (d :: ws') Hws) as Hnone.
      cbn [app] in Hnone. rewrite Hnone.
      by destruct (_ && _).
    + pose proof (math_tail_suffix (d :: r') ws Hws) as Hsame.
      cbn [app] in *. by rewrite Hsame.
Qed.

Lemma cons_first_app (c : N) (ps : list jsstring) (l : jsstring) :
  ∃ ps' l', cons_first c (ps ++ [l]) = ps' ++ [l'] ∧
            ∀ ws, cons_first c (ps ++ [l ++ ws]) = ps' ++ [l' ++ ws].
Proof.
  destruct ps as [|p ps].
  - by exists [], (c :: l).
  - by exists ((c :: p) :: ps), l.
Qed.

Lemma split_LINE_BREAK_suffix (t ws : jsstring) :
  LF ∉ ws →
  ∃ ps l, split_LINE_BREAK t = ps ++ [l] ∧
          split_LINE_BREAK (t ++ ws) = ps ++ [l ++ ws].
Proof.
  intros Hws.
  assert (split_LINE_BREAK ws = [ws]) as Hone.
  { pose proof (split_LINE_BREAK_prefix ws []) as H.
    simpl in H. rewrite !app_nil_r in H. apply H.
    apply Forall_forall. by intros c Hc ->. }
  remember (length t) as len eqn:Hlen. revert t Hlen.
  induction len as [len IH] using lt_wf_ind. intros t Hlen.
  destruct t as [|c tl]; [by exists [], []|].
  destruct tl as [|d tl'].
  - exists [], [c]. split; [done|]. cbn [app].
    destruct ws as [|d ws']; [done|].
    apply not_elem_of_cons in Hws as [Hd _].
    rewrite split_LINE_BREAK_cons.
    rewrite (proj2 (N.eqb_neq d LF)), andb_false_r by done.
    by rewrite Hone.
  - cbn [app]. rewrite !split_LINE_BREAK_cons.
    destruct ((c =? LF) && (d =? LF)).
    + destruct (IH (length tl') ltac:(subst; simpl; lia) tl' eq_refl)
        as (ps & l & -> & ->).
      by exists ([] :: ps), l.
    + destruct (IH (length (d :: tl')) ltac:(subst; simpl; lia) (d :: tl') eq_refl)
        as (ps & l & Hs & Hs').
      cbn [app] in Hs'. rewrite Hs, Hs'.
      destruct (cons_first_app c ps l) as (ps' & l' & H1 & H2).
      exists ps', l'. by rewrite H1, H2.
Qed.

Lemma trim_start_app (l ws : jsstring) :
  trim_start (l ++ ws)
  = match trim_start l with
    | [] => trim_start ws
    | _ => trim_start l ++ ws
    end.
Proof.
  induction l as [|c l IH]; simpl.
  - by destruct (trim_start ws).
  - by destruct (is_ws c).
Qed.

Lemma trim_suffix (l ws : jsstring) :
  Forall (λ c, is_ws c = true) ws → trim (l ++ ws) = trim l.
Proof.
  intros H. unfold trim. f_equal. rewrite trim_start_app.
  destruct (trim_start l) as [|c l'] eqn:Hl.
  - assert (trim_start ws = []) as ->; [|done].
    induction H as [|c ws' Hc _ IH]; [done|]. simpl. by rewrite Hc.
  - rewrite rev_app_distr. apply Forall_rev in H.
    induction H as [|a ws' Ha _ IH]; [done|]. simpl. by rewrite Ha.
Qed.

Lemma tokens_suffix_plain (m : matcher) (ws : jsstring) :
  (∀ t, t ≠ [] → m (t ++ ws) = m t) →
  (∀ t n, m t = Some n → (n ≤ length t)%nat) →
  (∀ c tl, is_ws c = true → m (c :: tl) = None) →
  Forall (λ c, is_ws c = true) ws →
  (∀ r s, js_replace m r (s ++ ws) = js_replace m r s ++ ws) ∧
  (∀ s, js_match m (s ++ ws) = js_match m s).
Proof.
  intros Hsame Hle Hopen Hws.
  assert (∀ s, tokens m (s ++ ws) = tokens m s ++ (Plain <$> ws)) as Ht.
  { intros s. rewrite (scan_suffix m ws Hsame Hle). f_equal.
    rewrite <- (app_nil_r ws) at 1. rewrite tokens_plain_prefix.
    - by rewrite app_nil_r.
    - eapply Forall_impl; [exact Hws|]. intros c Hc tl. by apply Hopen. }
  assert (∀ f ts, render f (ts ++ (Plain <$> ws)) = render f ts ++ ws) as Hrender.
  { intros f ts. induction ts as [|[c|w] ts IH]; simpl.
    - rewrite <- (app_nil_r (Plain <$> ws)), render_plain. by rewrite app_nil_r.
    - by rewrite IH.
    - by rewrite IH, app_assoc. }
  assert (∀ ts, hits (ts ++ (Plain <$> ws)) = hits ts) as Hhits.
  { intros ts. induction ts as [|[c|w] ts IH]; simpl.
    - rewrite <- (app_nil_r (Plain <$> ws)). by rewrite hits_plain.
    - done.
    - by rewrite IH. }
  split.
  - intros r s. unfold js_replace, js_replace_fn. by rewrite Ht, Hrender.
  - intros s. unfold js_match. by rewrite Ht, Hhits.
Qed.

Lemma group_key_suffix (s ws : jsstring) :
  Forall (λ c, is_ws c = true ∧ c ≠ LF) ws →
  stringToGroupKey (s ++ ws) = stringToGroupKey s.
Proof.
  intros Hws.
  assert (Forall (λ c, is_ws c = true) ws) as Hspace.
  { eapply Forall_impl; [exact Hws|]. by intros c [? _]. }
  assert (LF ∉ ws) as Hlf.
  { intros Hin. rewrite Forall_forall in Hws. by destruct (Hws _ Hin). }
  assert (∀ a : N, is_ws a = false → a ∉ ws) as Hnot.
  { intros a Ha Hin. rewrite Forall_forall in Hspace.
    apply Hspace in Hin. congruence. }
  destruct (tokens_suffix_plain MATH_REGEX ws) as [Hmath Hmaths]; [| | |done|].
  { intros t _. rewrite !MATH_REGEX_closed. apply math_at_suffix. by apply Hnot. }
  { intros t n. apply exec_le. }
  { intros c tl Hc. apply (is_ws_opens_nothing c Hc tl). }
  destruct (tokens_suffix_plain GRAPHIE_REGEX ws) as [Hgraphie _]; [| | |done|].
  { intros t _. rewrite !GRAPHIE_REGEX_closed.
    apply delimited_suffix; [|done| |done]; repeat constructor; by apply Hnot. }
  { intros t n. apply exec_le. }
  { intros c tl Hc. apply (is_ws_opens_nothing c Hc tl). }
  destruct (tokens_suffix_plain WIDGET_REGEX ws) as [Hwidget _]; [| | |done|].
  { intros t _. rewrite !WIDGET_REGEX_closed.
    apply delimited_suffix; [|done| |done]; repeat constructor; by apply Hnot. }
  { intros t n. apply exec_le. }
  { intros c tl Hc. apply (is_ws_opens_nothing c Hc tl). }
  destruct (tokens_suffix_plain MATH_WIDGET_REGEX ws) as [Hcollapse _]; [| | |done|].
  { intros t _. rewrite !MATH_WIDGET_REGEX_closed.
    apply delimited_suffix; [|done| |done]; repeat constructor; by apply Hnot. }
  { intros t n. apply exec_le. }
  { intros c tl Hc. apply (is_ws_opens_nothing c Hc tl). }
  unfold stringToGroupKey. f_equal. f_equal.
  - unfold group_str. cbv zeta.
    rewrite Hmath, Hgraphie, Hwidget, Hcollapse.
    destruct (split_LINE_BREAK_suffix
                (js_replace MATH_WIDGET_REGEX (str "__MATH__ __WIDGET__")
                   (js_replace WIDGET_REGEX WIDGET_PH
                      (js_replace GRAPHIE_REGEX GRAPHIE_PH
                         (js_replace MATH_REGEX MATH_PH s)))) ws Hlf)
      as (ps & l & -> & ->).
    rewrite !fmap_app. csimpl. by rewrite trim_suffix.
  - unfold group_texts. by rewrite Hmaths.
Qed.

(** X11.  White space around a string (other than line feeds) does not
    change its group key. *)
Theorem group_key_surrounding_space (before s after : jsstring) :
  Forall (λ c, is_ws c = true ∧ c ≠ LF) before →
  Forall (λ c, is_ws c = true ∧ c ≠ LF) after →
  stringToGroupKey (before ++ s ++ after) = stringToGroupKey s.
Proof.
  intros Hbefore Hafter.
  by rewrite group_key_prefix, group_key_suffix.
Qed.

Lemma group_key_surrounding_space_witness :
  stringToGroupKey (str "  " ++ english_simplify ++ [TAB; SPACE])
  = stringToGroupKey english_simplify.
Proof.
  apply group_key_surrounding_space; repeat constructor; done.
Defined.

(** ** [getMathDictionary] and [createTemplate] *)

Lemma getMathDictionary_no_output (englishStr translatedStr : jsstring) :
  js_match MATH_REGEX translatedStr = [] →
  getMathDictionary englishStr translatedStr = [].
Proof.
  intros Hno. unfold getMathDictionary. rewrite Hno.
  set (inputMap := group_by_normalized (js_match MATH_REGEX englishStr)).
  induction (keys inputMap) as [|key ks IH] using rev_ind; [done|].
  rewrite foldl_app. cbn [foldl]. rewrite IH.
  destruct (includes TEXT_PH key); [|done].
  by destruct (get_own inputMap key).
Qed.

(** X12.  The dictionary is empty when the English string has no math
    occurrence, when the translated string has none, or when the English
    string holds no [\text{...}] block. *)
Theorem getMathDictionary_empty (englishStr translatedStr : jsstring) :
  js_match MATH_REGEX englishStr = [] ∨
  js_match MATH_REGEX translatedStr = [] ∨
  js_match TEXT_REGEX englishStr = [] →
  getMathDictionary englishStr translatedStr = [].
Proof.
  intros [H|[H|H]].
  - by apply getMathDictionary_no_math.
  - by apply getMathDictionary_no_output.
  - by apply getMathDictionary_no_text.
Qed.

Lemma getMathDictionary_empty_witness :
  getMathDictionary english_red_blue english_plain = [] ∧
  getMathDictionary english_fractions translated_fractions = [].
Proof.
  split.
  - apply getMathDictionary_empty. right. left. vm_compute. reflexivity.
  - apply getMathDictionary_empty. right. right. vm_compute. reflexivity.
Defined.

Section CreateTemplateCases.

Context `{engine : RegExpEngine}.

(** A call of [getMapping] whose English occurrences are there succeeds
    when every translated occurrence is among them, and throws the
    mismatch of the kind otherwise. *)
Lemma getMapping_cases (englishStr translatedStr : jsstring)
    (lang : option jsstring) (k : kind) (dict : option dictionary)
    (inputs : list jsstring) :
  mapping_inputs englishStr k dict = Ok inputs →
  match getMapping englishStr translatedStr lang k dict with
  | Ok _ => Forall (λ output, output ∈ inputs)
                   (mapping_outputs translatedStr lang k)
  | Throw e =>
      e = mismatch k ∧
      ¬ Forall (λ output, output ∈ inputs) (mapping_outputs translatedStr lang k)
  end.
Proof.
  intros Hin.
  destruct (getMapping englishStr translatedStr lang k dict) as [mapping|e] eqn:H.
  - apply getMapping_Ok in H as (inputs' & Hin' & Hall).
    assert (inputs' = inputs) as -> by congruence.
    apply Forall_forall. intros output Hout.
    apply list_elem_of_lookup in Hout as [i Hi].
    destruct (Forall2_lookup_l _ _ _ _ _ Hall Hi) as (j & _ & Hj).
    apply indexOf_Some in Hj as [Hj _]. by eapply list_elem_of_lookup_2.
  - apply (getMapping_mismatch _ _ _ _ _ inputs) in H as [-> (output & Hout & Hnot)];
      [|done].
    split; [done|]. intros Hall. rewrite Forall_forall in Hall. by apply Hnot, Hall.
Qed.

End CreateTemplateCases.

(** X13.  For an English string without [\text{...}] block,
    [createTemplate] returns a template exactly when every math occurrence
    of the translated string, rewritten by [translateMath], is a math
    occurrence of the English string, and every graphie and widget
    occurrence of the translated string is one of the English string; the
    dictionary of the template is empty.  Otherwise it returns the mismatch
    of the first kind (math, graphie, widget) for which this fails. *)
Theorem createTemplate_without_text `{engine : RegExpEngine}
    (englishStr translatedStr : jsstring) (lang : option jsstring) :
  js_match TEXT_REGEX englishStr = [] →
  let math_ok :=
    Forall (λ output, translateMath output lang ∈ js_match MATH_REGEX englishStr)
           (js_match MATH_REGEX translatedStr) in
  let graphie_ok :=
    Forall (λ output, output ∈ js_match GRAPHIE_REGEX englishStr)
           (js_match GRAPHIE_REGEX translatedStr) in
  let widget_ok :=
    Forall (λ output, output ∈ js_match WIDGET_REGEX englishStr)
           (js_match WIDGET_REGEX translatedStr) in
  match createTemplate englishStr translatedStr lang with
  | IsTemplate t =>
      math_ok ∧ graphie_ok ∧ widget_ok ∧
      lines t = strip_line <$> split_LINE_BREAK translatedStr ∧
      mathDictionary t = []
  | IsError e =>
      (¬ math_ok ∧ e = mismatch Math) ∨
      (math_ok ∧ ¬ graphie_ok ∧ e = mismatch Graphie) ∨
      (math_ok ∧ graphie_ok ∧ ¬ widget_ok ∧ e = mismatch Widget)
  end.
Proof.
  intros Hno math_ok graphie_ok widget_ok.
  pose proof (getMathDictionary_no_text englishStr translatedStr Hno) as Hdict.
  assert (mapping_inputs englishStr Math (Some []) 
          = Ok (js_match MATH_REGEX englishStr)) as Hinputs.
  { unfold mapping_inputs, apply_dictionary, findRegex.
    change (entries []) with (@nil (jsstring * option jsstring)).
    change (λ input, apply_entries [] input) with (λ input : jsstring, Ok input).
    by rewrite (map_completion_pure (λ x, x)), list_fmap_id. }
  pose proof (getMapping_cases englishStr translatedStr lang Math (Some [])
                _ Hinputs) as Hm.
  pose proof (getMapping_cases englishStr translatedStr lang Graphie None
                _ eq_refl) as Hg.
  pose proof (getMapping_cases englishStr translatedStr lang Widget None
                _ eq_refl) as Hw.
  unfold mapping_outputs, findRegex in Hm, Hg, Hw.
  assert (math_ok ↔
          Forall (λ output, output ∈ js_match MATH_REGEX englishStr)
                 ((λ output, translateMath output lang)
                    <$> js_match MATH_REGEX translatedStr)) as Hmath_ok.
  { by rewrite Forall_fmap. }
  destruct (createTemplate englishStr translatedStr lang) as [t|e] eqn:Hc.
  - apply createTemplate_IsTemplate in Hc as (Hlines & Hd & Hmath & Hgraphie & Hwidget).
    rewrite Hdict in Hd. rewrite Hd in Hmath. rewrite Hmath in Hm.
    rewrite Hgraphie in Hg. rewrite Hwidget in Hw.
    apply Hmath_ok in Hm. done.
  - apply createTemplate_IsError in Hc. cbv zeta in Hc. rewrite Hdict in Hc.
    destruct Hc as [Hc|[[m Hc] [Hc'|[[g Hc'] Hc'']]]].
    + rewrite Hc in Hm. destruct Hm as [-> Hm]. left.
      split; [|done]. by rewrite Hmath_ok.
    + rewrite Hc in Hm. rewrite Hc' in Hg. destruct Hg as [-> Hg].
      apply Hmath_ok in Hm. right. by left.
    + rewrite Hc in Hm. rewrite Hc' in Hg. rewrite Hc'' in Hw.
      destruct Hw as [-> Hw]. apply Hmath_ok in Hm. right. by right.
Qed.

Lemma createTemplate_without_text_witness :
  Forall (λ output, translateMath output ES ∈ js_match MATH_REGEX english_fractions)
         (js_match MATH_REGEX translated_fractions) ∧
  Forall (λ output, output ∈ js_match GRAPHIE_REGEX english_fractions)
         (js_match GRAPHIE_REGEX translated_fractions) ∧
  Forall (λ output, output ∈ js_match WIDGET_REGEX english_fractions)
         (js_match WIDGET_REGEX translated_fractions) ∧
  [str "__MATH__ y __MATH__"]
  = strip_line <$> split_LINE_BREAK translated_fractions ∧
  @nil (jsstring * option jsstring) = [].
Proof.
  pose proof (createTemplate_without_text (engine := word_engine)
                english_fractions translated_fractions ES) as H.
  assert (createTemplate (engine := word_engine)
            english_fractions translated_fractions ES
          = IsTemplate {| lines := [str "__MATH__ y __MATH__"];
                          mathMapping := [1; 0]%nat;
                          graphieMapping := [];
                          widgetMapping := [];
                          mathDictionary := [] |}) as Hbuilt.
  { vm_compute. reflexivity. }
  rewrite Hbuilt in H. apply H. vm_compute. reflexivity.
Defined.

(** ** Translations that are plain text *)

Lemma tokens_all_plain (m : matcher) (s : jsstring) :
  Forall (λ c, ∀ tl, m (c :: tl) = None) s → tokens m s = Plain <$> s.
Proof.
  intros H. rewrite <- (app_nil_r s) at 1.
  rewrite tokens_plain_prefix by done. by rewrite app_nil_r.
Qed.

Lemma plain_opens_nothing (c : N) (tl : jsstring) :
  c ≠ DOLLAR ∧ c ≠ 33 ∧ c ≠ LBRACKET ∧ c ≠ 95 →
  MATH_REGEX (c :: tl) = None ∧ GRAPHIE_REGEX (c :: tl) = None ∧
  WIDGET_REGEX (c :: tl) = None ∧
  lit_at MATH_PH (c :: tl) = None ∧ lit_at GRAPHIE_PH (c :: tl) = None ∧
  lit_at WIDGET_PH (c :: tl) = None.
Proof.
  intros (H1 & H2 & H3 & H4).
  assert (∀ (x : N) (w : jsstring),
            x ≠ c → starts_with (x :: w) (c :: tl) = false) as Hmiss.
  { intros x w Hx. cbn [starts_with]. by rewrite (proj2 (N.eqb_neq x c)). }
  repeat split.
  - apply exec_Lit_miss. by apply Hmiss.
  - apply exec_Lit_miss. by apply (Hmiss 33 (str "[](")).
  - apply exec_Lit_miss. by apply (Hmiss 91 (str "[")).
  - apply lit_at_miss. by apply (Hmiss 95 (str "_MATH__")).
  - apply lit_at_miss. by apply (Hmiss 95 (str "_GRAPHIE__")).
  - apply lit_at_miss. by apply (Hmiss 95 (str "_WIDGET__")).
Qed.

Lemma render_all_plain (f : jsstring → jsstring) (s : jsstring) :
  render f (Plain <$> s) = s.
Proof. induction s as [|c s IH]; [done|]. csimpl. by rewrite IH. Qed.

Lemma hits_all_plain (s : jsstring) : hits (Plain <$> s) = [].
Proof. induction s as [|c s IH]; [done|]. by csimpl. Qed.

Lemma plain_text_untouched (s : jsstring) :
  plain_text s →
  (∀ k, js_match (findRegex k) s = []) ∧ strip_line s = s ∧
  ∀ maths graphies widgets cur,
    fill_line maths graphies widgets cur s = (s, cur).
Proof.
  intros H.
  assert (∀ m : matcher,
            (∀ c tl, c ≠ DOLLAR ∧ c ≠ 33 ∧ c ≠ LBRACKET ∧ c ≠ 95 →
                     m (c :: tl) = None) →
            tokens m s = Plain <$> s) as Ht.
  { intros m Hm. apply tokens_all_plain.
    eapply Forall_impl; [exact H|]. intros c Hc tl. by apply Hm. }
  assert (∀ m : matcher,
            (∀ c tl, c ≠ DOLLAR ∧ c ≠ 33 ∧ c ≠ LBRACKET ∧ c ≠ 95 →
                     m (c :: tl) = None) →
            ∀ r, js_replace m r s = s) as Hr.
  { intros m Hm r. unfold js_replace, js_replace_fn.
    by rewrite Ht, render_all_plain. }
  assert (∀ ph supply index,
            (∀ c tl, c ≠ DOLLAR ∧ c ≠ 33 ∧ c ≠ LBRACKET ∧ c ≠ 95 →
                     lit_at ph (c :: tl) = None) →
            fill ph supply index s = (s, index)) as Hf.
  { intros ph supply index Hph. unfold fill. rewrite Ht by done.
    clear. induction s as [|c s IH]; [done|]. csimpl. by rewrite IH. }
  split; [|split].
  - intros k. unfold js_match. rewrite Ht; [apply hits_all_plain|].
    intros c tl Hc. destruct k; by apply plain_opens_nothing.
  - unfold strip_line. rewrite !Hr; [done|..];
      intros c tl Hc; by apply plain_opens_nothing.
  - intros maths graphies widgets [mi gi wi]. unfold fill_line. cbn [mathIndex graphieIndex widgetIndex].
    rewrite !Hf; [done|..]; intros c tl Hc; by apply plain_opens_nothing.
Qed.

Lemma elem_of_join_part (sep : jsstring) (ps : list jsstring) (l : jsstring) (c : N) :
  l ∈ ps → c ∈ l → c ∈ join sep ps.
Proof.
  intros Hl Hc. induction ps as [|p ps IH]; [by apply elem_of_nil in Hl|].
  destruct ps as [|q ps].
  - apply list_elem_of_singleton in Hl as ->. done.
  - change (join sep (p :: q :: ps)) with (p ++ sep ++ join sep (q :: ps)).
    apply elem_of_cons in Hl as [->|Hl].
    + apply elem_of_app. by left.
    + apply elem_of_app. right. apply elem_of_app. right. by apply IH.
Qed.

Lemma split_LINE_BREAK_plain (s : jsstring) :
  plain_text s → Forall plain_text (split_LINE_BREAK s).
Proof.
  intros H. apply Forall_forall. intros l Hl. apply Forall_forall. intros c Hc.
  unfold plain_text in H. rewrite Forall_forall in H. apply H.
  rewrite <- (join_split_LINE_BREAK s). by eapply elem_of_join_part.
Qed.

Lemma fill_lines_plain (templateLines : list jsstring)
    (maths graphies widgets : nat → jsstring)
    (englishLines : list jsstring) (index : nat) (cur : cursors) :
  Forall plain_text templateLines →
  (index + length englishLines ≤ length templateLines)%nat →
  fill_lines templateLines maths graphies widgets englishLines index cur
  = Ok (take (length englishLines) (drop index templateLines)).
Proof.
  intros Hplain. revert index cur.
  induction englishLines as [|l ls IH]; intros index cur Hlen; [done|].
  simpl in Hlen. cbn [fill_lines length].
  destruct (lookup_lt_is_Some_2 templateLines index) as [tl Htl]; [lia|].
  rewrite Htl.
  assert (plain_text tl) as Hl.
  { rewrite Forall_forall in Hplain. apply Hplain. by eapply list_elem_of_lookup_2. }
  destruct (plain_text_untouched tl Hl) as (_ & _ & ->).
  rewrite IH by lia. cbn [bind_completion].
  rewrite (drop_S _ _ _ Htl). done.
Qed.

Section Plain.
Context `{engine : RegExpEngine}.

Lemma createTemplate_plain (englishStr translatedStr : jsstring)
    (lang : option jsstring) :
  plain_text translatedStr →
  createTemplate englishStr translatedStr lang
  = IsTemplate (plain_template translatedStr).
Proof.
  intros H. destruct (plain_text_untouched _ H) as (Hno & _ & _).
  apply createTemplate_IsTemplate. cbn [plain_template lines mathDictionary mathMapping graphieMapping widgetMapping].
  pose proof (split_LINE_BREAK_plain _ H) as Hlines.
  split; [|split; [|split; [|split]]].
  - induction Hlines as [|l ls Hl _ IH]; [done|]. csimpl.
    destruct (plain_text_untouched l Hl) as (_ & -> & _). by rewrite <- IH.
  - symmetry. apply getMathDictionary_no_output. apply (Hno Math).
  - unfold getMapping, mapping_inputs, mapping_outputs, apply_dictionary.
    rewrite (Hno Math).
    change (entries []) with (@nil (jsstring * option jsstring)).
    change (λ input, apply_entries [] input) with (λ input : jsstring, Ok input).
    by rewrite (map_completion_pure (λ x, x)).
  - unfold getMapping, mapping_inputs, mapping_outputs. by rewrite (Hno Graphie).
  - unfold getMapping, mapping_inputs, mapping_outputs. by rewrite (Hno Widget).
Qed.

Lemma populateTemplate_plain (translatedStr englishStr : jsstring)
    (lang : option jsstring) :
  plain_text translatedStr →
  (length (split_LINE_BREAK englishStr) ≤ length (split_LINE_BREAK translatedStr))%nat →
  populateTemplate (plain_template translatedStr) englishStr lang
  = Ok (join LINE_BREAK
          (take (length (split_LINE_BREAK englishStr))
                (split_LINE_BREAK translatedStr))).
Proof.
  intros H Hlen. unfold populateTemplate. cbn [plain_template lines mathDictionary mathMapping graphieMapping widgetMapping].
  change (entries []) with (@nil (jsstring * option jsstring)).
  change (λ math, apply_entries [] (translateMath math lang))
    with (λ math : jsstring, Ok (translateMath math lang)).
  rewrite map_completion_pure. cbn [bind_completion].
  rewrite fill_lines_plain; [done|by apply split_LINE_BREAK_plain|lia].
Qed.

End Plain.

(** X14.  A translated string that is plain text (no dollar, exclamation
    mark, opening bracket or underscore) always gives a template, whatever
    the English string: its lines are the paragraphs of the translation and
    its mappings and dictionary are empty.  Populating it gives the first
    paragraphs of the translation, as many as the English string has; with
    equally many paragraphs it gives the translation itself. *)
Theorem plain_translation_template `{engine : RegExpEngine}
    (englishStr translatedStr : jsstring) (lang : option jsstring) :
  plain_text translatedStr →
  createTemplate englishStr translatedStr lang
  = IsTemplate (plain_template translatedStr) ∧
  (∀ english2 lang2,
     (length (split_LINE_BREAK english2)
      ≤ length (split_LINE_BREAK translatedStr))%nat →
     populateTemplate (plain_template translatedStr) english2 lang2
     = Ok (join LINE_BREAK
             (take (length (split_LINE_BREAK english2))
                   (split_LINE_BREAK translatedStr)))) ∧
  (∀ english2 lang2,
     length (split_LINE_BREAK english2) = length (split_LINE_BREAK translatedStr) →
     populateTemplate (plain_template translatedStr) english2 lang2
     = Ok translatedStr).
Proof.
  intros H. split; [by apply createTemplate_plain|]. split.
  - intros english2 lang2 Hlen. by apply populateTemplate_plain.
  - intros english2 lang2 Hlen. rewrite populateTemplate_plain by (done || lia).
    rewrite Hlen, firstn_all. by rewrite join_split_LINE_BREAK.
Qed.

Lemma plain_translation_template_witness :
  createTemplate (engine := word_engine) (str "Hello $x$") (str "Hola") ES
  = IsTemplate (plain_template (str "Hola")) ∧
  (∀ english2 lang2,
     (length (split_LINE_BREAK english2)
      ≤ length (split_LINE_BREAK (str "Hola")))%nat →
     populateTemplate (engine := word_engine)
       (plain_template (str "Hola")) english2 lang2
     = Ok (join LINE_BREAK
             (take (length (split_LINE_BREAK english2))
                   (split_LINE_BREAK (str "Hola"))))) ∧
  (∀ english2 lang2,
     length (split_LINE_BREAK english2) = length (split_LINE_BREAK (str "Hola")) →
     populateTemplate (engine := word_engine)
       (plain_template (str "Hola")) english2 lang2
     = Ok (str "Hola")).
Proof.
  apply (plain_translation_template (engine := word_engine)).
  repeat constructor; done.
Defined.

(** X15.  Translation memory for plain text.  Let an item's skeleton not
    be a bare placeholder (or be the bare math placeholder while the
    English string contains [\text]).  If the first item of [allItems]
    with the same group key and a non-empty translation has a translation
    that is plain text with as many paragraphs as the English string of the
    item, then the suggestion for the item is that translation. *)
Theorem suggest_plain_translation `{engine : RegExpEngine} {Item : Type}
    (allItems : list Item) (getEnglishStr0 : Item → jsstring)
    (getTranslation0 : Item → option jsstring) (lang0 : jsstring)
    (item obj : Item) (translatedStr : jsstring) :
  let englishStr := getEnglishStr0 item in
  is_bare_placeholder (group_str englishStr) = false ∨
  group_str englishStr = MATH_PH ∧ includes (str "\text") englishStr = true →
  first_translated allItems getEnglishStr0 getTranslation0
    (stringToGroupKey englishStr) = Some obj →
  getTranslation0 obj = Some translatedStr →
  plain_text translatedStr →
  length (split_LINE_BREAK englishStr) = length (split_LINE_BREAK translatedStr) →
  suggest_item (constructor allItems getEnglishStr0 getTranslation0 lang0) item
  = Ok (item, Some translatedStr).
Proof.
  intros englishStr Hshape Hfirst Htranslation Hplain Hlen.
  rewrite suggest_item_constructor. fold englishStr.
  assert (group_suggestion allItems getEnglishStr0 getTranslation0 lang0 item
          = Ok (item, Some translatedStr)) as ->.
  { unfold group_suggestion. fold englishStr. rewrite Hfirst, Htranslation.
    cbn [to_text]. rewrite createTemplate_plain by done.
    rewrite populateTemplate_plain by (done || lia).
    cbn [bind_completion]. rewrite Hlen, firstn_all.
    by rewrite join_split_LINE_BREAK. }
  destruct Hshape as [-> | [-> ->]]; reflexivity.
Qed.

Lemma suggest_plain_translation_witness :
  suggest_item (engine := word_engine)
    (constructor [item_hello_math] fst snd PT) item_hello_query
  = Ok (item_hello_query, Some (str "Hola")).
Proof.
  apply (suggest_plain_translation (engine := word_engine)
           [item_hello_math] fst snd PT item_hello_query item_hello_math).
  - left. vm_compute. reflexivity.
  - vm_compute. reflexivity.
  - reflexivity.
  - repeat constructor; done.
  - vm_compute. reflexivity.
Defined.

(** ** The round trip as [suggest] makes it *)

Lemma translateMath_undefined (maths : list jsstring) :
  (λ math, translateMath math None) <$> maths = maths.
Proof. apply list_fmap_id. Qed.

(** X16.  The constructor builds its templates with an undefined language
    and [suggest] populates them with the language it was given.  For an
    English string without [\text{...}] block and a translation with as
    many paragraphs, populating such a template with the English string it
    was built from puts the occurrences of the translation back into its
    lines, the math rewritten for the language of the population; when the
    translation is captured by its template lines, the result is the
    translation with its math rewritten. *)
Theorem populateTemplate_built_without_language `{engine : RegExpEngine}
    (englishStr translatedStr : jsstring) (lang : option jsstring) (t : Template) :
  js_match TEXT_REGEX englishStr = [] →
  length (split_LINE_BREAK englishStr) = length (split_LINE_BREAK translatedStr) →
  createTemplate englishStr translatedStr None = IsTemplate t →
  populateTemplate t englishStr lang = refill translatedStr lang ∧
  (skeleton_faithful translatedStr lang →
   populateTemplate t englishStr lang = Ok (rewrite_maths translatedStr lang)).
Proof.
  intros Hno Hlen Hbuilt.
  assert (populateTemplate t englishStr lang = refill translatedStr lang) as Hrefill.
  { apply createTemplate_IsTemplate in Hbuilt as (Hlines & Hdict & Hm & Hg & Hw).
    rewrite getMathDictionary_no_text in Hdict by done.
    rewrite Hdict in Hm.
    apply getMapping_Ok in Hm as (mathInputs & Hmi & Hmm).
    apply getMapping_Ok in Hg as (graphieInputs & [= <-] & Hgm).
    apply getMapping_Ok in Hw as (widgetInputs & [= <-] & Hwm).
    unfold mapping_inputs, apply_dictionary, findRegex in Hmi.
    change (entries []) with (@nil (jsstring * option jsstring)) in Hmi.
    change (λ input, apply_entries [] input)
      with (λ input : jsstring, Ok input) in Hmi.
    rewrite (map_completion_pure (λ x, x)), list_fmap_id in Hmi.
    injection Hmi as <-.
    unfold mapping_outputs, findRegex in Hmm, Hgm, Hwm.
    rewrite translateMath_undefined in Hmm.
    unfold populateTemplate, refill. rewrite Hdict, Hlines.
    change (entries []) with (@nil (jsstring * option jsstring)).
    change (λ math, apply_entries [] (translateMath math lang))
      with (λ math : jsstring, Ok (translateMath math lang)).
    rewrite map_completion_pure. cbn [bind_completion].
    rewrite (fill_lines_ext _
               _ (supply ((λ math, translateMath math lang)
                            <$> js_match MATH_REGEX translatedStr))
               _ (supply (js_match GRAPHIE_REGEX translatedStr))
               _ (supply (js_match WIDGET_REGEX translatedStr))
               _ (split_LINE_BREAK translatedStr)); [done| | | |done].
    - intros i. by rewrite (pick_supply _ _ _ _ _ Hmm).
    - intros i. rewrite <- (list_fmap_id (js_match GRAPHIE_REGEX englishStr)).
      rewrite (pick_supply _ _ _ _ _ Hgm). by rewrite list_fmap_id.
    - intros i. rewrite <- (list_fmap_id (js_match WIDGET_REGEX englishStr)).
      rewrite (pick_supply _ _ _ _ _ Hwm). by rewrite list_fmap_id. }
  split; [done|]. intros Hfaithful. by rewrite Hrefill.
Qed.

Lemma populateTemplate_built_without_language_witness :
  populateTemplate (engine := word_engine)
    {| lines := [str "Ache __MATH__"];
       mathMapping := [0%nat];
       graphieMapping := [];
       widgetMapping := [];
       mathDictionary := [] |}
    english_find_sin (Some PT)
  = refill translated_find_sin (Some PT) ∧
  (skeleton_faithful translated_find_sin (Some PT) →
   populateTemplate (engine := word_engine)
     {| lines := [str "Ache __MATH__"];
        mathMapping := [0%nat];
        graphieMapping := [];
        widgetMapping := [];
        mathDictionary := [] |}
     english_find_sin (Some PT)
   = Ok (rewrite_maths translated_find_sin (Some PT))).
Proof.
  apply (populateTemplate_built_without_language (engine := word_engine)
           english_find_sin translated_find_sin (Some PT)).
  - vm_compute. reflexivity.
  - vm_compute. reflexivity.
  - vm_compute. reflexivity.
Defined.

(** ** The members of a group and the template of the group *)

Lemma stringToGroupKey_inj (s1 s2 : jsstring) :
  stringToGroupKey s1 = stringToGroupKey s2 →
  group_str s1 = group_str s2 ∧ group_texts s1 = group_texts s2.
Proof.
  unfold stringToGroupKey. intros H. apply (f_equal JSON_parse) in H.
  rewrite !JSON_parse_stringify in H. by injection H.
Qed.

(** X17.  Strings with the same group key have the same number of math
    occurrences.  Hence the math mapping of a template holds indices into
    the math occurrences of every string that has the group key of the
    English string the template was built from, not only of that string. *)
Theorem same_key_math_indices `{engine : RegExpEngine}
    (englishStr english0 translated0 : jsstring) (lang : option jsstring)
    (t : Template) :
  stringToGroupKey englishStr = stringToGroupKey english0 →
  createTemplate english0 translated0 lang = IsTemplate t →
  length (js_match MATH_REGEX englishStr) = length (js_match MATH_REGEX english0) ∧
  Forall (λ e, (e < length (js_match MATH_REGEX englishStr))%nat) (mathMapping t).
Proof.
  intros Hkey Hbuilt.
  assert (length (js_match MATH_REGEX englishStr)
          = length (js_match MATH_REGEX english0)) as Hlen.
  { apply stringToGroupKey_inj in Hkey as [_ Htexts].
    apply (f_equal length) in Htexts. unfold group_texts in Htexts.
    by rewrite !length_fmap in Htexts. }
  split; [done|]. rewrite Hlen.
  apply createTemplate_IsTemplate in Hbuilt as (_ & _ & Hm & _).
  by apply getMapping_bounds in Hm as [_ Hm].
Qed.

Lemma same_key_math_indices_witness :
  length (js_match MATH_REGEX (str "Find $\cos y$"))
  = length (js_match MATH_REGEX english_find_sin) ∧
  Forall (λ e, (e < length (js_match MATH_REGEX (str "Find $\cos y$")))%nat)
         [0%nat].
Proof.
  apply (same_key_math_indices (engine := word_engine)
           (str "Find $\cos y$") english_find_sin translated_find_sin None
           {| lines := [str "Ache __MATH__"];
              mathMapping := [0%nat];
              graphieMapping := [];
              widgetMapping := [];
              mathDictionary := [] |}).
  - vm_compute. reflexivity.
  - vm_compute. reflexivity.
Defined.

(** ** The dictionary of a pair of formulas *)

Lemma has_own_false {V : Type} (o : object V) (k : jsstring) :
  k ∉ o.*1 → has_own o k = false.
Proof.
  intros H. unfold has_own. induction o as [|[k' v] o IH]; [done|].
  csimpl in *. apply not_elem_of_cons in H as [Hk H].
  rewrite bool_decide_eq_false_2 by done. by apply IH.
Qed.

Lemma assign_fresh {V : Type} (o : object V) (k : jsstring) (v : V) :
  k ≠ PROTO → k ∉ o.*1 → assign o k v = o ++ [(k, v)].
Proof.
  intros Hk Hfresh. unfold assign.
  rewrite decide_False by done. by rewrite has_own_false.
Qed.

Lemma entries_ordinary {V : Type} (o : object V) :
  Forall (λ kv, array_index kv.1 = None) o → entries o = o.
Proof.
  intros H. unfold entries.
  assert (indexed_entries o = []) as ->.
  { induction H as [|kv o Hkv _ IH]; [done|]. simpl. by rewrite Hkv. }
  simpl. induction H as [|kv o Hkv _ IH]; [done|].
  rewrite filter_cons, decide_True by done. by rewrite IH.
Qed.

(** The object [inputTexts] when the captures are distinct ordinary keys. *)
Lemma foldl_assign_fresh (o : object bool) (fs : list jsstring) :
  Forall (λ f, f ≠ PROTO) fs → NoDup (o.*1 ++ fs) →
  foldl (λ o t, assign o t true) o fs = o ++ ((λ f, (f, true)) <$> fs).
Proof.
  revert o. induction fs as [|f fs IH]; intros o Hp Hnd.
  - by rewrite app_nil_r.
  - apply Forall_cons in Hp as [Hf Hp]. cbn [foldl].
    apply NoDup_app in Hnd as (Ho & Hdisj & Hfs).
    apply NoDup_cons in Hfs as [Hffs Hfs].
    rewrite assign_fresh; [|done|].
    + rewrite IH; [|done|].
      * csimpl. by rewrite <- app_assoc.
      * rewrite fmap_app. csimpl. rewrite <- app_assoc. csimpl.
        apply NoDup_app. split; [done|]. split; [|by constructor].
        intros x Hx. by apply Hdisj.
    + intros Hin. apply (Hdisj f Hin). by left.
Qed.

Lemma pair_keys_fresh (dict : dictionary) (i : nat) (fs gs : list jsstring) :
  Forall (λ f, f ≠ PROTO) fs → NoDup (dict.*1 ++ fs) →
  pair_keys dict i fs gs = dict ++ imap (λ j f, (f, gs !! (i + j)%nat)) fs.
Proof.
  revert dict i. induction fs as [|f fs IH]; intros dict i Hp Hnd.
  - by rewrite app_nil_r.
  - apply Forall_cons in Hp as [Hf Hp]. cbn [pair_keys].
    apply NoDup_app in Hnd as (Ho & Hdisj & Hfs).
    apply NoDup_cons in Hfs as [Hffs Hfs].
    rewrite assign_fresh; [|done|].
    + rewrite IH; [|done|].
      * cbn [imap]. rewrite <- app_assoc. cbn [app]. rewrite Nat.add_0_r.
        f_equal. f_equal. apply imap_ext. intros j x _. simpl.
        f_equal. f_equal. lia.
      * rewrite fmap_app. csimpl. rewrite <- app_assoc. csimpl.
        apply NoDup_app. split; [done|]. split; [|by constructor].
        intros x Hx. by apply Hdisj.
    + intros Hin. apply (Hdisj f Hin). by left.
Qed.

Lemma includes_app (w x y : jsstring) : includes w (x ++ w ++ y) = true.
Proof.
  induction x as [|c x IH].
  - cbn [app]. destruct (w ++ y) as [|c s] eqn:E.
    + apply app_eq_nil in E as [-> _]. done.
    + rewrite includes_cons, <- E, starts_with_app. done.
  - cbn [app]. by rewrite includes_cons, IH, orb_true_r.
Qed.

Lemma replace_includes (m : matcher) (rep s : jsstring) :
  js_match m s ≠ [] → includes rep (js_replace m rep s) = true.
Proof.
  unfold js_match, js_replace, js_replace_fn. intros H.
  assert (∃ x y, render (λ _, rep) (tokens m s) = x ++ rep ++ y) as (x & y & ->);
    [|apply includes_app].
  induction (tokens m s) as [|[c|w] ts IH]; [done| |].
  - destruct (IH H) as (x & y & E). exists (c :: x), y. simpl. by rewrite E.
  - by exists [], (render (λ _, rep) ts).
Qed.

Lemma normalized_dollar (tl : jsstring) :
  js_replace TEXT_REGEX TEXT_PH (DOLLAR :: tl)
  = DOLLAR :: js_replace TEXT_REGEX TEXT_PH tl.
Proof. apply replace_miss. by apply exec_Lit_miss. Qed.

Lemma group_by_normalized_one (tl : jsstring) :
  group_by_normalized [DOLLAR :: tl]
  = [(js_replace TEXT_REGEX TEXT_PH (DOLLAR :: tl), [DOLLAR :: tl])].
Proof.
  unfold group_by_normalized. cbn [foldl get_own].
  rewrite assign_fresh; [done| |by apply not_elem_of_nil].
  by rewrite normalized_dollar.
Qed.

Lemma keys_texts_object (math : jsstring) :
  NoDup (allMatches_text math) →
  Forall ordinary_key (allMatches_text math) →
  keys (texts_object [math]) = allMatches_text math.
Proof.
  intros Hnd Hord. unfold keys, texts_object.
  change (Array_toString [math]) with math.
  rewrite foldl_assign_fresh; [|by eapply Forall_impl; [exact Hord|]; intros f []|done].
  cbn [app]. rewrite entries_ordinary.
  - rewrite <- list_fmap_compose. apply list_fmap_id.
  - apply Forall_fmap. eapply Forall_impl; [exact Hord|]. by intros f [].
Qed.

Lemma getMathDictionary_one (englishStr translatedStr : jsstring)
    (tl tl' : jsstring) :
  let math := DOLLAR :: tl in
  let math' := DOLLAR :: tl' in
  js_match MATH_REGEX englishStr = [math] →
  js_match MATH_REGEX translatedStr = [math'] →
  js_replace TEXT_REGEX TEXT_PH math = js_replace TEXT_REGEX TEXT_PH math' →
  NoDup (allMatches_text math) → NoDup (allMatches_text math') →
  Forall ordinary_key (allMatches_text math ++ allMatches_text math') →
  getMathDictionary englishStr translatedStr
  = imap (λ i f, (f, allMatches_text math' !! i)) (allMatches_text math).
Proof.
  intros math math' HE HT Hnorm Hnd Hnd' Hord.
  apply Forall_app in Hord as [Hord Hord'].
  unfold getMathDictionary. rewrite HE, HT.
  unfold math, math'. rewrite !group_by_normalized_one.
  fold math math'. rewrite <- Hnorm.
  set (key := js_replace TEXT_REGEX TEXT_PH math).
  assert (keys [(key, [math])] = [key]) as ->.
  { unfold keys. rewrite entries_ordinary; [done|].
    constructor; [|done]. unfold key, math. by rewrite normalized_dollar. }
  cbn [foldl get_own]. rewrite !decide_True by done.
  destruct (includes TEXT_PH key) eqn:Hinc.
  - rewrite !keys_texts_object by done.
    rewrite pair_keys_fresh; [done| |done].
    eapply Forall_impl; [exact Hord|]. by intros f [].
  - destruct (allMatches_text math) as [|f fs] eqn:Hfs; [done|].
    exfalso. unfold key in Hinc. rewrite replace_includes in Hinc; [done|].
    unfold allMatches_text in Hfs. intros Hnone. by rewrite Hnone in Hfs.
Qed.

Lemma math_occurrence_dollar (s math : jsstring) :
  math ∈ js_match MATH_REGEX s → ∃ tl, math = DOLLAR :: tl.
Proof.
  intros Hin. apply js_match_elem in Hin as (x & y & n & _ & Hm & Ht).
  rewrite MATH_REGEX_closed in Hm.
  destruct (math_at_occurrence _ _ _ Hm Ht) as (steps & -> & _). eauto.
Qed.

(** X18.  For an English and a translated string with one math occurrence
    each, the two of the same form once every [\text{...}] block is
    replaced, and with fragments that are distinct within each formula and
    are ordinary keys (not [__proto__], not an array index), the
    dictionary maps the fragments of the English formula, in order, to the
    fragments of the translated formula at the same positions
    ([undefined] where the translated formula has fewer). *)
Theorem getMathDictionary_pairs_fragments
    (englishStr translatedStr math math' : jsstring) :
  js_match MATH_REGEX englishStr = [math] →
  js_match MATH_REGEX translatedStr = [math'] →
  js_replace TEXT_REGEX TEXT_PH math = js_replace TEXT_REGEX TEXT_PH math' →
  NoDup (allMatches_text math) → NoDup (allMatches_text math') →
  Forall ordinary_key (allMatches_text math ++ allMatches_text math') →
  getMathDictionary englishStr translatedStr
  = imap (λ i f, (f, allMatches_text math' !! i)) (allMatches_text math).
Proof.
  intros HE HT.
  destruct (math_occurrence_dollar englishStr math) as [tl ->].
  { rewrite HE. by left. }
  destruct (math_occurrence_dollar translatedStr math') as [tl' ->].
  { rewrite HT. by left. }
  by apply getMathDictionary_one.
Qed.

Lemma getMathDictionary_pairs_fragments_witness :
  getMathDictionary english_red_blue translated_roja_azul
  = [(str "red", Some (str "roja")); (str "blue", Some (str "azul"))].
Proof.
  apply (getMathDictionary_pairs_fragments
           english_red_blue translated_roja_azul
           english_red_blue translated_roja_azul).
  - vm_compute. reflexivity.
  - vm_compute. reflexivity.
  - vm_compute. reflexivity.
  - refine (bool_decide_unpack _ _). vm_compute. exact I.
  - refine (bool_decide_unpack _ _). vm_compute. exact I.
  - change (allMatches_text english_red_blue) with [str "red"; str "blue"].
    change (allMatches_text translated_roja_azul) with [str "roja"; str "azul"].
    repeat (constructor; [split; [by vm_compute|by vm_compute]|]).
    constructor.
Defined.

(** ** Mappings that are permutations *)

(** X19.  When the English occurrences that [getMapping] compares with
    are pairwise distinct and the translated occurrences, as compared, are
    a rearrangement of them, the mapping is a rearrangement of the indices
    [0, 1, ..., n - 1] of the English occurrences: every English occurrence
    is used exactly once. *)
Theorem getMapping_permutation `{engine : RegExpEngine}
    (englishStr translatedStr : jsstring) (lang : option jsstring) (k : kind)
    (dict : option dictionary) (inputs : list jsstring) (mapping : list nat) :
  getMapping englishStr translatedStr lang k dict = Ok mapping →
  mapping_inputs englishStr k dict = Ok inputs →
  NoDup inputs →
  mapping_outputs translatedStr lang k ≡ₚ inputs →
  mapping ≡ₚ seq 0 (length inputs).
Proof.
  intros Hok Hin Hnd Hperm.
  apply getMapping_Ok in Hok as (inputs' & Hin' & Hall).
  assert (inputs' = inputs) as -> by congruence.
  set (outputs := mapping_outputs translatedStr lang k) in *.
  assert (NoDup outputs) as Hnd' by by rewrite Hperm.
  assert (∀ i e, mapping !! i = Some e →
                 ∃ output, outputs !! i = Some output ∧ inputs !! e = Some output)
    as Hentry.
  { intros i e Hi.
    destruct (Forall2_lookup_r _ _ _ _ _ Hall Hi) as (output & Hout & Hidx).
    apply indexOf_Some in Hidx as [Hidx _]. eauto. }
  apply NoDup_Permutation.
  - apply NoDup_alt. intros i j e Hi Hj.
    destruct (Hentry _ _ Hi) as (o1 & Ho1 & He1).
    destruct (Hentry _ _ Hj) as (o2 & Ho2 & He2).
    assert (o1 = o2) as -> by congruence.
    by eapply NoDup_lookup.
  - apply NoDup_seq.
  - intros e. rewrite elem_of_seq. split.
    + intros [i Hi]%list_elem_of_lookup.
      destruct (Hentry _ _ Hi) as (o & _ & He).
      apply lookup_lt_Some in He. lia.
    + intros [_ He]. simpl in He.
      destruct (lookup_lt_is_Some_2 inputs e He) as [v Hv].
      assert (v ∈ outputs) as [i Hi]%list_elem_of_lookup.
      { rewrite Hperm. by eapply list_elem_of_lookup_2. }
      destruct (Forall2_lookup_l _ _ _ _ _ Hall Hi) as (e' & He' & Hidx).
      apply indexOf_Some in Hidx as [Hidx _].
      assert (e' = e) as -> by exact (NoDup_lookup inputs e' e v Hnd Hidx Hv).
      by eapply list_elem_of_lookup_2.
Qed.

Lemma getMapping_permutation_witness :
  [1; 0]%nat ≡ₚ seq 0 (length (js_match MATH_REGEX english_fractions)).
Proof.
  apply (getMapping_permutation (engine := word_engine)
           english_fractions translated_fractions ES Math (Some [])).
  - vm_compute. reflexivity.
  - vm_compute. reflexivity.
  - refine (bool_decide_unpack _ _). vm_compute. exact I.
  - change (mapping_outputs translated_fractions ES Math)
      with [str "$3/6$"; str "$2/4$"].
    change (js_match MATH_REGEX english_fractions)
      with [str "$2/4$"; str "$3/6$"].
    apply Permutation_swap.
Defined.

(** ** What is inside a formula *)

Lemma math_tail_body (b y : jsstring) :
  DOLLAR ∉ b → last b ≠ Some BACKSLASH →
  math_tail (b ++ DOLLAR :: y) = Some (S (length b)).
Proof.
  intros Hd Hlast. induction b as [|c b IH].
  - cbn [app math_tail length]. by destruct y.
  - apply not_elem_of_cons in Hd as [Hc Hd].
    cbn [app math_tail length].
    rewrite (proj2 (N.eqb_neq c DOLLAR)) by done.
    destruct b as [|d b].
    + cbn [app math_tail length]. rewrite N.eqb_refl, andb_true_r.
      rewrite (proj2 (N.eqb_neq c BACKSLASH)); [by destruct y|].
      intros ->. by apply Hlast.
    + rewrite IH; [|done|by rewrite last_cons_cons in Hlast].
      apply not_elem_of_cons in Hd as [Hd _]. cbn [app].
      by rewrite (proj2 (N.eqb_neq d DOLLAR)), andb_false_r.
Qed.

Lemma MATH_REGEX_formula (b y : jsstring) :
  formula_body b → MATH_REGEX (formula b ++ y) = Some (length (formula b)).
Proof.
  intros (Hne & Hd & Hlast). rewrite MATH_REGEX_closed.
  unfold formula, math_at. rewrite <- !app_assoc. cbn [app].
  rewrite math_tail_body by done.
  destruct b as [|d b]; [done|]. apply not_elem_of_cons in Hd as [Hd _].
  cbn [app]. rewrite N.eqb_refl, (proj2 (N.eqb_neq d DOLLAR)) by done.
  cbn [andb negb fmap option_fmap option_map]. f_equal.
  cbn [length]. rewrite length_app. simpl. lia.
Qed.

Lemma MATH_REGEX_opens_with_dollar (c : N) (tl : jsstring) :
  c ≠ DOLLAR → MATH_REGEX (c :: tl) = None.
Proof.
  intros Hc. apply exec_Lit_miss. cbn [starts_with].
  by rewrite (proj2 (N.eqb_neq DOLLAR c)).
Qed.

Lemma tokens_formula (text b y : jsstring) :
  DOLLAR ∉ text → formula_body b →
  tokens MATH_REGEX (text ++ formula b ++ y)
  = (Plain <$> text) ++ Hit (formula b) :: tokens MATH_REGEX y.
Proof.
  intros Htext Hb. rewrite tokens_plain_prefix.
  - f_equal.
    pose proof (MATH_REGEX_formula b y Hb) as Hm.
    destruct (formula b) as [|c m] eqn:Hf; [done|]. cbn [app length] in *.
    rewrite (tokens_hit _ _ _ (length m)) by done.
    by rewrite take_app_length, drop_app_length.
  - apply Forall_forall. intros c Hc tl. apply MATH_REGEX_opens_with_dollar.
    by intros ->.
Qed.

Lemma with_formulas_maths (segments : list (jsstring * jsstring)) (rest : jsstring) :
  Forall (λ seg, (DOLLAR ∉ seg.1) ∧ formula_body seg.2) segments →
  js_replace MATH_REGEX MATH_PH (with_formulas segments rest)
  = foldr (λ seg r, seg.1 ++ MATH_PH ++ r)
          (js_replace MATH_REGEX MATH_PH rest) segments ∧
  js_match MATH_REGEX (with_formulas segments rest)
  = ((λ seg, formula seg.2) <$> segments) ++ js_match MATH_REGEX rest.
Proof.
  intros H. induction H as [|[text b] segments [Htext Hb] _ [IH1 IH2]]; [done|].
  cbn [with_formulas foldr fst snd] in *. split.
  - rewrite <- IH1. unfold js_replace, js_replace_fn.
    rewrite tokens_formula by done. by rewrite render_plain.
  - rewrite fmap_cons, <- app_comm_cons, <- IH2. unfold js_match.
    rewrite tokens_formula by done. by rewrite hits_plain.
Qed.

(** X20.  The group key depends on the formulas of a string only through
    their fragments.  Two strings made of the same texts (without dollar),
    each followed by a formula, and of the same rest get the same key when
    the formulas hold, one by one, the same fragments up to order;
    whatever else stands in the formulas does not matter.  A formula here
    is a non-empty body between two dollars that has no dollar and does not
    end with a backslash.  So [simplify $2/4$] and [simplify $3/12$] are in
    one group. *)
Theorem group_key_formula_contents
    (segments segments' : list (jsstring * jsstring)) (rest : jsstring) :
  Forall (λ seg, (DOLLAR ∉ seg.1) ∧ formula_body seg.2) segments →
  Forall (λ seg, (DOLLAR ∉ seg.1) ∧ formula_body seg.2) segments' →
  Forall2 (λ seg seg',
             seg.1 = seg'.1 ∧
             allMatches_text (formula seg.2) ≡ₚ allMatches_text (formula seg'.2))
          segments segments' →
  stringToGroupKey (with_formulas segments rest)
  = stringToGroupKey (with_formulas segments' rest).
Proof.
  intros H H' Hsame.
  destruct (with_formulas_maths segments rest H) as [Hstr Hmaths].
  destruct (with_formulas_maths segments' rest H') as [Hstr' Hmaths'].
  unfold stringToGroupKey. f_equal. f_equal.
  - unfold group_str. cbv zeta. rewrite Hstr, Hstr'. do 6 f_equal.
    clear -Hsame.
    induction Hsame as [|seg seg' segs segs' [Htext _] _ IH]; [done|].
    cbn [foldr]. by rewrite Htext, IH.
  - unfold group_texts. rewrite Hmaths, Hmaths', !fmap_app. f_equal.
    clear -Hsame.
    induction Hsame as [|seg seg' segs segs' [_ Hperm] _ IH]; [done|].
    rewrite !fmap_cons. f_equal; [by apply sort_order_independent|done].
Qed.

Lemma group_key_formula_contents_witness :
  stringToGroupKey (str "simplify $2/4$") = stringToGroupKey (str "simplify $3/12$").
Proof.
  apply (group_key_formula_contents
           [(str "simplify ", str "2/4")] [(str "simplify ", str "3/12")] []).
  - constructor; [|constructor].
    repeat split; try done; refine (bool_decide_unpack _ _); vm_compute; exact I.
  - constructor; [|constructor].
    repeat split; try done; refine (bool_decide_unpack _ _); vm_compute; exact I.
  - constructor; [|constructor]. split; [done|].
    change (allMatches_text (formula (str "2/4"))) with (@nil jsstring).
    by change (allMatches_text (formula (str "3/12"))) with (@nil jsstring).
Defined.

(** ** A suggestion for a string with one formula *)

Lemma tokens_lit_none (w s : jsstring) :
  includes w s = false → tokens (lit_at w) s = Plain <$> s.
Proof.
  induction s as [|c tl IH]; [done|].
  rewrite includes_cons. intros [Hhere Hrest]%orb_false_iff.
  rewrite tokens_miss by by apply lit_at_miss. csimpl. by rewrite IH.
Qed.

Lemma fill_none (placeholder : jsstring) (supply : nat → jsstring) (index : nat)
    (line : jsstring) :
  includes placeholder line = false →
  fill placeholder supply index line = (line, index).
Proof.
  intros H. unfold fill. rewrite tokens_lit_none by done.
  clear. induction line as [|c line IH]; [done|]. csimpl. by rewrite IH.
Qed.

Lemma split_no_break (s : jsstring) :
  includes LINE_BREAK s = false → split_LINE_BREAK s = [s].
Proof.
  remember (length s) as len eqn:Hlen. revert s Hlen.
  induction len as [len IH] using lt_wf_ind. intros s Hlen H.
  destruct s as [|c [|d tl]]; [done..|].
  rewrite includes_cons in H. apply orb_false_iff in H as [Hhere Hrest].
  rewrite split_LINE_BREAK_cons.
  assert ((c =? LF) && (d =? LF) = false) as ->.
  { cbn [LINE_BREAK starts_with] in Hhere.
    rewrite andb_true_r, (N.eqb_sym LF c), (N.eqb_sym LF d) in Hhere. done. }
  by rewrite (IH (length (d :: tl)) ltac:(subst; simpl; lia) (d :: tl)).
Qed.

Lemma plain_no_dollar (s : jsstring) : plain_text s → DOLLAR ∉ s.
Proof.
  intros H Hin. unfold plain_text in H. rewrite Forall_forall in H.
  by destruct (H _ Hin) as [? _].
Qed.

Lemma js_match_no_dollar (s : jsstring) :
  DOLLAR ∉ s → js_match MATH_REGEX s = [] ∧ js_replace MATH_REGEX MATH_PH s = s.
Proof.
  intros H.
  assert (tokens MATH_REGEX s = Plain <$> s) as Ht.
  { apply tokens_all_plain. apply Forall_forall. intros c Hc tl.
    apply MATH_REGEX_opens_with_dollar. by intros ->. }
  unfold js_match, js_replace, js_replace_fn. rewrite Ht.
  by rewrite hits_all_plain, render_all_plain.
Qed.

(** The line of a template for a text, a formula and a text. *)
Lemma strip_line_one_formula (text b rest : jsstring) :
  plain_text text → formula_body b → plain_text rest →
  strip_line (text ++ formula b ++ rest) = text ++ MATH_PH ++ rest.
Proof.
  intros Htext Hb Hrest. unfold strip_line.
  destruct (with_formulas_maths [(text, b)] rest) as [Hstr _].
  { constructor; [|done]. split; [by apply plain_no_dollar|done]. }
  cbn [with_formulas foldr fst snd] in Hstr. rewrite Hstr.
  destruct (js_match_no_dollar rest (plain_no_dollar _ Hrest)) as [_ ->].
  assert (∀ m : matcher,
            (∀ c tl, c ≠ 33 ∧ c ≠ LBRACKET → m (c :: tl) = None) →
            ∀ r, js_replace m r (text ++ MATH_PH ++ rest) = text ++ MATH_PH ++ rest)
    as Hkeep.
  { intros m Hm r. unfold js_replace, js_replace_fn.
    rewrite tokens_all_plain; [by rewrite render_all_plain|].
    apply Forall_app. split; [|apply Forall_app; split].
    - eapply Forall_impl; [exact Htext|]. intros c (_ & ? & ? & _) tl. by apply Hm.
    - repeat constructor; intros tl; by apply Hm.
    - eapply Forall_impl; [exact Hrest|]. intros c (_ & ? & ? & _) tl. by apply Hm. }
  rewrite !Hkeep; [done|..]; intros c tl [H1 H2]; apply exec_Lit_miss.
  - change (str "[[") with (LBRACKET :: str "["). cbn [starts_with].
    by rewrite (proj2 (N.eqb_neq LBRACKET c)).
  - change (str "![](") with (33 :: str "[]("). cbn [starts_with].
    by rewrite (proj2 (N.eqb_neq 33 c)).
Qed.

Lemma fill_line_one_formula (text rest math : jsstring)
    (graphies widgets : nat → jsstring) :
  plain_text text → plain_text rest →
  includes GRAPHIE_PH (text ++ math ++ rest) = false →
  includes WIDGET_PH (text ++ math ++ rest) = false →
  fill_line (pick [math] [0%nat]) graphies widgets initial_cursors
    (text ++ MATH_PH ++ rest)
  = (text ++ math ++ rest,
     {| mathIndex := 1; graphieIndex := 0; widgetIndex := 0 |}).
Proof.
  intros Htext Hrest Hg Hw. unfold fill_line. cbn [initial_cursors mathIndex graphieIndex widgetIndex].
  assert (∀ s, plain_text s → Forall (λ c, ∀ tl, lit_at MATH_PH (c :: tl) = None) s)
    as Hplain.
  { intros s Hs. eapply Forall_impl; [exact Hs|].
    intros c Hc tl. by apply plain_opens_nothing. }
  assert (fill MATH_PH (pick [math] [0%nat]) 0 (text ++ MATH_PH ++ rest)
          = (text ++ math ++ rest, 1%nat)) as ->.
  { unfold fill. rewrite tokens_plain_prefix by by apply Hplain.
    destruct MATH_PH as [|c ph] eqn:Hph; [done|]. cbn [app].
    rewrite (tokens_hit _ _ _ (length ph)).
    2:{ rewrite <- Hph. rewrite app_comm_cons, <- Hph.
        rewrite lit_at_hit. by rewrite Hph. }
    rewrite take_app_length, drop_app_length.
    rewrite tokens_all_plain by by apply Hplain.
    clear. induction text as [|c' text IH].
    - cbn [fmap list_fmap app fill_tokens].
      assert (fill_tokens (pick [math] [0%nat]) 1 (Plain <$> rest) = (rest, 1%nat)) as ->.
      { clear. induction rest as [|c rest IH]; [done|]. csimpl. by rewrite IH. }
      done.
    - csimpl. csimpl in IH. by rewrite IH. }
  by rewrite !fill_none.
Qed.

Section OneFormula.

Context `{engine : RegExpEngine}.

Lemma createTemplate_one_formula (text rest text' rest' b : jsstring)
    (lang : option jsstring) :
  let englishStr := text ++ formula b ++ rest in
  let translatedStr := text' ++ formula b ++ rest' in
  DOLLAR ∉ text → DOLLAR ∉ rest → formula_body b →
  plain_text text' → plain_text rest' →
  js_match TEXT_REGEX englishStr = [] →
  js_match GRAPHIE_REGEX translatedStr = [] →
  js_match WIDGET_REGEX translatedStr = [] →
  includes LINE_BREAK translatedStr = false →
  translateMath (formula b) lang = formula b →
  createTemplate englishStr translatedStr lang
  = IsTemplate {| lines := [text' ++ MATH_PH ++ rest'];
                  mathMapping := [0%nat];
                  graphieMapping := [];
                  widgetMapping := [];
                  mathDictionary := [] |}.
Proof.
  intros englishStr translatedStr Htext Hrest Hb Htext' Hrest' Hno Hg Hw Hbreak Htm.
  assert (js_match MATH_REGEX englishStr = [formula b]) as Hmaths.
  { destruct (with_formulas_maths [(text, b)] rest) as [_ H].
    { by constructor. }
    cbn [with_formulas] in H. unfold englishStr. rewrite H.
    by destruct (js_match_no_dollar rest Hrest) as [-> _]. }
  assert (js_match MATH_REGEX translatedStr = [formula b]) as Hmaths'.
  { destruct (with_formulas_maths [(text', b)] rest') as [_ H].
    { constructor; [|done]. split; [by apply plain_no_dollar|done]. }
    cbn [with_formulas] in H. unfold translatedStr. rewrite H.
    by destruct (js_match_no_dollar rest' (plain_no_dollar _ Hrest')) as [-> _]. }
  apply createTemplate_IsTemplate.
  cbn [lines mathDictionary mathMapping graphieMapping widgetMapping].
  split; [|split; [|split; [|split]]].
  - rewrite split_no_break by done. csimpl.
    unfold translatedStr. by rewrite strip_line_one_formula.
  - symmetry. by apply getMathDictionary_no_text.
  - unfold getMapping, mapping_inputs, mapping_outputs, apply_dictionary, findRegex.
    rewrite Hmaths, Hmaths'.
    change (entries []) with (@nil (jsstring * option jsstring)).
    cbn [map_completion apply_entries bind_completion fmap list_fmap].
    rewrite Htm. cbn [indexOf]. by rewrite decide_True.
  - unfold getMapping, mapping_inputs, mapping_outputs, findRegex. by rewrite Hg.
  - unfold getMapping, mapping_inputs, mapping_outputs, findRegex. by rewrite Hw.
Qed.

Lemma populateTemplate_one_formula (text rest text' rest' c : jsstring)
    (lang : option jsstring) :
  let englishStr := text ++ formula c ++ rest in
  let suggestion := text' ++ translateMath (formula c) lang ++ rest' in
  DOLLAR ∉ text → DOLLAR ∉ rest → formula_body c →
  plain_text text' → plain_text rest' →
  includes LINE_BREAK englishStr = false →
  includes GRAPHIE_PH suggestion = false →
  includes WIDGET_PH suggestion = false →
  populateTemplate {| lines := [text' ++ MATH_PH ++ rest'];
                      mathMapping := [0%nat];
                      graphieMapping := [];
                      widgetMapping := [];
                      mathDictionary := [] |} englishStr lang
  = Ok suggestion.
Proof.
  intros englishStr suggestion Htext Hrest Hc Htext' Hrest' Hbreak Hg Hw.
  assert (js_match MATH_REGEX englishStr = [formula c]) as Hmaths.
  { destruct (with_formulas_maths [(text, c)] rest) as [_ H].
    { by constructor. }
    cbn [with_formulas] in H. unfold englishStr. rewrite H.
    by destruct (js_match_no_dollar rest Hrest) as [-> _]. }
  unfold populateTemplate.
  cbn [lines mathDictionary mathMapping graphieMapping widgetMapping].
  rewrite Hmaths, split_no_break by done.
  change (entries []) with (@nil (jsstring * option jsstring)).
  cbn [map_completion apply_entries bind_completion fill_lines lookup list_lookup].
  fold initial_cursors.
  rewrite fill_line_one_formula by done.
  done.
Qed.

End OneFormula.

(** X21.  The suggestion for a string that differs from a translated one
    in its formula.  Let the first translated item of the group of the
    queried item read [text $b$ rest] in English and [text' $b$ rest'] in
    translation, and let the queried item read [text $c$ rest].  Then the
    suggestion is [text' $c$ rest'] with the formula rewritten by
    [translateMath] for the language of the constructor.  Here the texts
    have no dollar, the translated texts are plain, the bodies [b] and [c]
    are not empty, have no dollar and do not end with a backslash, both
    strings are one paragraph, the English string of the translated item
    holds no [\text{...}] block, its translation has no graphie or widget
    occurrence, and the suggestion does not contain the text of the
    graphie or widget placeholder. *)
Theorem suggest_swaps_formula `{engine : RegExpEngine} {Item : Type}
    (allItems : list Item) (getEnglishStr0 : Item → jsstring)
    (getTranslation0 : Item → option jsstring) (lang0 : jsstring)
    (item obj : Item) (text rest text' rest' b c : jsstring) :
  let englishStr := text ++ formula c ++ rest in
  let english0 := text ++ formula b ++ rest in
  let translated0 := text' ++ formula b ++ rest' in
  let suggestion := text' ++ translateMath (formula c) (Some lang0) ++ rest' in
  getEnglishStr0 item = englishStr →
  first_translated allItems getEnglishStr0 getTranslation0
    (stringToGroupKey englishStr) = Some obj →
  getEnglishStr0 obj = english0 →
  getTranslation0 obj = Some translated0 →
  is_bare_placeholder (group_str englishStr) = false ∨
  group_str englishStr = MATH_PH ∧ includes (str "\text") englishStr = true →
  DOLLAR ∉ text → DOLLAR ∉ rest → formula_body b → formula_body c →
  plain_text text' → plain_text rest' →
  includes LINE_BREAK englishStr = false →
  includes LINE_BREAK translated0 = false →
  js_match TEXT_REGEX english0 = [] →
  js_match GRAPHIE_REGEX translated0 = [] →
  js_match WIDGET_REGEX translated0 = [] →
  includes GRAPHIE_PH suggestion = false →
  includes WIDGET_PH suggestion = false →
  suggest_item (constructor allItems getEnglishStr0 getTranslation0 lang0) item
  = Ok (item, Some suggestion).
Proof.
  intros englishStr english0 translated0 suggestion HE Hfirst HE0 HT0 Hshape
    Htext Hrest Hb Hc Htext' Hrest' Hbreak Hbreak0 Hno Hg Hw Hgph Hwph.
  rewrite suggest_item_constructor. rewrite HE.
  assert (group_suggestion allItems getEnglishStr0 getTranslation0 lang0 item
          = Ok (item, Some suggestion)) as ->.
  { unfold group_suggestion. rewrite HE, Hfirst, HE0, HT0. cbn [to_text].
    unfold english0, translated0.
    rewrite createTemplate_one_formula by done.
    unfold englishStr. rewrite populateTemplate_one_formula by done.
    done. }
  destruct Hshape as [-> | [-> ->]]; reflexivity.
Qed.

Lemma suggest_swaps_formula_witness :
  suggest_item (engine := word_engine)
    (constructor [item_simplify] fst snd PT) item_simplify_sin
  = Ok (item_simplify_sin, Some (str "simplifica $\operatorname{sen} x$")).
Proof.
  apply (suggest_swaps_formula (engine := word_engine)
           [item_simplify] fst snd PT item_simplify_sin item_simplify
           (str "Simplify ") [] (str "simplifica ") [] (str "2/4") (str "\sin x")).
  - reflexivity.
  - vm_compute. reflexivity.
  - reflexivity.
  - reflexivity.
  - left. vm_compute. reflexivity.
  - refine (bool_decide_unpack _ _). vm_compute. exact I.
  - apply not_elem_of_nil.
  - repeat split; try done; refine (bool_decide_unpack _ _); vm_compute; exact I.
  - repeat split; try done; refine (bool_decide_unpack _ _); vm_compute; exact I.
  - repeat constructor; done.
  - constructor.
  - vm_compute. reflexivity.
  - vm_compute. reflexivity.
  - vm_compute. reflexivity.
  - vm_compute. reflexivity.
  - vm_compute. reflexivity.
  - vm_compute. reflexivity.
  - vm_compute. reflexivity.
Defined.
